(** * MicroMath+ : run-time environment, virtual machine, compiler, tokeniser

    A shallow embedding of the execution core of MicroMath+
    (execution.h, adaptors.h, def_rte.h, vm.h, compiler.h and the
    tokenising end of math_parser.h) together with the properties that
    the design document states about it.

    Conventions.
    - [int] and [size_t] values are integers of [Z]; the wrap-around of the
      two machine types is written out with [wrap_int] and [wrap_size].
    - A [shared_ptr< value< T > >] is a handle: an index into a store of
      cells that is threaded next to the run-time environment, so that
      several [load_var] instructions and the variable table observe one
      cell.  A null or dangling handle is an index outside the store.
    - [std::stack] is a list whose head is the top of the stack.
    - Undefined behaviour of the C++ program (popping an empty stack,
      indexing a vector out of range, reading an array element that was
      never written, dereferencing a null pointer) is a result of its own,
      distinct from the exceptions that the program throws.
    - A loop whose bound is not apparent from its text ([vm::run], the
      searches and the loops of the tokeniser) takes fuel; running out of it
      is a result of its own, and the statements give the fuel that
      suffices.
    - The user-defined [procedure< T >] wrapper, which owns a private
      virtual machine, is registered by the console program only and is
      outside this development. *)

From Stdlib Require Import ZArith String Ascii List Lia Bool PrimFloat Uint63.
From stdpp Require Import base list gmap.
Import ListNotations.

Open Scope Z_scope.

(** ** Machine integers *)

Definition int_min : Z := - 2 ^ 31.
Definition int_max : Z := 2 ^ 31 - 1.
Definition size_max : Z := 2 ^ 64 - 1.

Definition in_int (z : Z) : Prop := int_min <= z <= int_max.
Definition in_size (z : Z) : Prop := 0 <= z <= size_max.

(** Two's complement reduction to [int]. *)
Definition wrap_int (z : Z) : Z := (z + 2 ^ 31) mod 2 ^ 32 - 2 ^ 31.

(** Reduction modulo 2^64 ([std::vector::size_type]). *)
Definition wrap_size (z : Z) : Z := z mod 2 ^ 64.

(** ** math_parser.h : tokens *)

(** [math_parser::token] and the four classes derived from it; a plain
    [token] has type [UNKNOWN]. *)
Inductive token : Type :=
| unknown_tok (str : string)
| value_token (str : string)
| name_token (str : string)
| function_token (str : string) (args outvalues : Z)
| operator_token (str : string) (largs rargs outvalues : Z).

(** The member [str] of the base class. *)
Definition token_str (t : token) : string :=
  match t with
  | unknown_tok s | value_token s | name_token s
  | function_token s _ _ | operator_token s _ _ _ => s
  end.

(** [math_parser::TokenPtr] : a token or a null pointer. *)
Definition TokenPtr : Type := option token.

(** ** The value type of the templates *)

(** What the templates require of their parameter [T]: the value [T()],
    the conversion of the result of [std::atof] to [T], and the arithmetic
    that the function objects of def_rte.h apply to it. *)
Class Numeric (T : Type) : Type := {
  T_default : T;
  T_atof : string -> T;
  T_add : T -> T -> T;
  T_sub : T -> T -> T;
  T_mul : T -> T -> T
}.

(** ** Results of effectful code *)

(** The exceptions of compiler.h, def_rte.h and of the tokeniser. *)
Inductive exn : Type :=
| invalid_assign
| null_token
| unknown_token (data : string)
| invalid_name (data : string).

(** Undefined behaviour that the embedding makes explicit. *)
Inductive undefined : Type :=
| empty_stack
| out_of_range
| null_pointer
| uninitialised.

Inductive result (A : Type) : Type :=
| Ok (a : A)
| Throw (e : exn)
| Undefined (u : undefined)
| OutOfFuel.

Arguments Ok {A} a.
Arguments Throw {A} e.
Arguments Undefined {A} u.
Arguments OutOfFuel {A}.

(** ** execution.h : values and function interface *)

Section Execution.

Context {T : Type} {num : Numeric T}.

(** [value< T >] : a named cell. *)
Record value : Type := Value { vname : string; val : T }.

(** [shared_ptr< value< T > >]. *)
Definition handle : Type := nat.

(** [function_i< T >] : the data members of the function interface. *)
Record function_i : Type := FunctionI {
  name : string;
  values_in : Z;
  values_out : Z;
  lvalues_in : Z;
  rvalues_in : Z
}.

(** The constructor [function_i( n, in, out, lin )]. *)
Definition function_i_new (n : string) (vin vout lin : Z) : function_i :=
  {| name := n; values_in := vin; values_out := vout;
     lvalues_in := lin; rvalues_in := wrap_int (vin - lin) |}.

(** The classes derived from [function_i< T >] in execution.h and
    def_rte.h, each with the arguments of its constructor; [function_unary]
    and [function_binary] are [function< FunT, T >] at the two adaptors of
    adaptors.h, and the template argument [N], the size of an array, is a
    natural number. *)
Inductive function_obj : Type :=
| function_unary (f : T -> T) (n : string) (vin vout lin : Z)
| function_binary (f : T -> T -> T) (n : string) (vin vout lin : Z)
| scalar_assign
| vector_assign (N : nat)
| dotprod3
| crossprod3
| vector_op_apply (N : nat) (fp : function_obj).

(** The [function_i] base sub-object, as each constructor initialises it. *)
Fixpoint base (f : function_obj) : function_i :=
  match f with
  | function_unary _ n vin vout lin => function_i_new n vin vout lin
  | function_binary _ n vin vout lin => function_i_new n vin vout lin
  | scalar_assign => function_i_new "=" 2 1 1
  | vector_assign N =>
      function_i_new "=" (wrap_int (2 * Z.of_nat N)) (Z.of_nat N) (Z.of_nat N)
  | dotprod3 => function_i_new "*" 6 1 3
  | crossprod3 => function_i_new "cross3" 6 3 0
  | vector_op_apply N fp =>
      function_i_new (name (base fp)) (wrap_int (2 * Z.of_nat N))
        (Z.of_nat N) (Z.of_nat N)
  end.

(** The constructor of [vector_op_apply] throws unless the wrapped function
    is a binary operator. *)
Definition vector_op_apply_new (N : nat) (fp : function_obj)
  : option function_obj :=
  if negb (lvalues_in (base fp) =? 1) || negb (rvalues_in (base fp) =? 1)
  then None
  else Some (vector_op_apply N fp).

(** The integer constructor arguments of a function object are [int]s. *)
Fixpoint ints_ok (f : function_obj) : Prop :=
  match f with
  | function_unary _ _ vin vout lin => in_int vin /\ in_int vout /\ in_int lin
  | function_binary _ _ vin vout lin => in_int vin /\ in_int vout /\ in_int lin
  | vector_assign N => in_int (Z.of_nat N)
  | vector_op_apply N fp => in_int (Z.of_nat N) /\ ints_ok fp
  | _ => True
  end.

(** ** execution.h : instructions, programs and the run-time environment *)

Inductive instruction : Type :=
| load_val (v : T)
| load_var (val_p : handle)
| call_fun (fun_p : function_obj).

Definition prog_type : Type := list instruction.

Record rte : Type := Rte {
  fun_tab : list function_obj;
  var_tab : list handle;
  const_tab : list handle;
  prog_p : option prog_type;
  stack : list T;
  exe_stack : list Z;
  ip : Z
}.

(** The constructor [rte( functions, vars, constants )]. *)
Definition rte_new (functions : list function_obj)
  (vars constants : list handle) : rte :=
  {| fun_tab := functions; var_tab := vars; const_tab := constants;
     prog_p := None; stack := []; exe_stack := []; ip := 0 |}.

(** The two loops of [rte::function_p]. *)
Fixpoint function_p_name (tab : list function_obj) (s : string)
  : option function_obj :=
  match tab with
  | [] => None
  | f :: tab' =>
      if String.eqb (name (base f)) s then Some f else function_p_name tab' s
  end.

Fixpoint function_p_arity (tab : list function_obj) (s : string)
  (rargs largs : Z) : option function_obj :=
  match tab with
  | [] => None
  | f :: tab' =>
      if String.eqb (name (base f)) s
         && (rvalues_in (base f) =? rargs)
         && (lvalues_in (base f) =? largs)
      then Some f
      else function_p_arity tab' s rargs largs
  end.

Definition function_p (rt : rte) (s : string) (rargs largs : Z)
  : option function_obj :=
  if rargs <? 0 then function_p_name (fun_tab rt) s
  else function_p_arity (fun_tab rt) s rargs largs.

(** [rte::variable_p] and [rte::constant_p] read the name of each cell
    through its handle. *)
Inductive lookup_result : Type :=
| Found (h : handle)
| Null
| BadHandle.

Fixpoint value_p (cells : list value) (tab : list handle) (s : string)
  : lookup_result :=
  match tab with
  | [] => Null
  | h :: tab' =>
      match cells !! h with
      | None => BadHandle
      | Some c => if String.eqb (vname c) s then Found h
                  else value_p cells tab' s
      end
  end.

Definition variable_p (rt : rte) (cells : list value) (s : string) :=
  value_p cells (var_tab rt) s.

Definition constant_p (rt : rte) (cells : list value) (s : string) :=
  value_p cells (const_tab rt) s.

(** ** Effects: a state and error monad over the environment and the cells *)

(** What is mutable while a program is compiled or run: a run-time
    environment and the store of cells its handles point into. *)
Record machine : Type := Machine { env : rte; cells : list value }.

Definition M (A : Type) : Type := machine -> result A * machine.

Definition ret {A} (a : A) : M A := fun m => (Ok a, m).

Definition bind {A B} (c : M A) (k : A -> M B) : M B :=
  fun m =>
    match c m with
    | (Ok a, m') => k a m'
    | (Throw e, m') => (Throw e, m')
    | (Undefined u, m') => (Undefined u, m')
    | (OutOfFuel, m') => (OutOfFuel, m')
    end.

Definition throw {A} (e : exn) : M A := fun m => (Throw e, m).
Definition undef {A} (u : undefined) : M A := fun m => (Undefined u, m).

Notation "'let!' x ':=' c 'in' k" := (bind c (fun x => k))
  (at level 10, x name, c at level 100, k at level 200, only parsing).
Notation "'do!' c 'in' k" := (bind c (fun _ => k))
  (at level 10, c at level 100, k at level 200, only parsing).

Definition set_stack (s : list T) (rt : rte) : rte :=
  {| fun_tab := fun_tab rt; var_tab := var_tab rt; const_tab := const_tab rt;
     prog_p := prog_p rt; stack := s; exe_stack := exe_stack rt; ip := ip rt |}.

Definition set_ip (i : Z) (rt : rte) : rte :=
  {| fun_tab := fun_tab rt; var_tab := var_tab rt; const_tab := const_tab rt;
     prog_p := prog_p rt; stack := stack rt; exe_stack := exe_stack rt;
     ip := i |}.

Definition set_prog_p (p : option prog_type) (rt : rte) : rte :=
  {| fun_tab := fun_tab rt; var_tab := var_tab rt; const_tab := const_tab rt;
     prog_p := p; stack := stack rt; exe_stack := exe_stack rt; ip := ip rt |}.

Definition set_var_tab (v : list handle) (rt : rte) : rte :=
  {| fun_tab := fun_tab rt; var_tab := v; const_tab := const_tab rt;
     prog_p := prog_p rt; stack := stack rt; exe_stack := exe_stack rt;
     ip := ip rt |}.

(** [rt.stack.push( v )] *)
Definition push (v : T) : M unit :=
  fun m => (Ok tt, Machine (set_stack (v :: stack (env m)) (env m)) (cells m)).

(** [rt.stack.pop()] *)
Definition pop : M unit :=
  fun m =>
    match stack (env m) with
    | [] => (Undefined empty_stack, m)
    | _ :: s => (Ok tt, Machine (set_stack s (env m)) (cells m))
    end.

(** [rt.stack.top()] read as a value. *)
Definition top : M T :=
  fun m =>
    match stack (env m) with
    | [] => (Undefined empty_stack, m)
    | v :: _ => (Ok v, m)
    end.

(** Assignment through the reference that [rt.stack.top()] returns. *)
Definition set_top (v : T) : M unit :=
  fun m =>
    match stack (env m) with
    | [] => (Undefined empty_stack, m)
    | _ :: s => (Ok tt, Machine (set_stack (v :: s) (env m)) (cells m))
    end.

(** [rt.stack.empty()] *)
Definition empty : M bool :=
  fun m => (Ok (match stack (env m) with [] => true | _ => false end), m).

(** [*rt.prog_p] *)
Definition deref_prog : M prog_type :=
  fun m =>
    match prog_p (env m) with
    | None => (Undefined null_pointer, m)
    | Some p => (Ok p, m)
    end.

(** [prog[ i ]] for an index of type [size_type]. *)
Definition prog_at (prog : prog_type) (i : Z) : M instruction :=
  fun m =>
    if i <? 0 then (Undefined out_of_range, m)
    else match prog !! Z.to_nat i with
         | None => (Undefined out_of_range, m)
         | Some ins => (Ok ins, m)
         end.

(** [rt.ip] *)
Definition get_ip : M Z := fun m => (Ok (ip (env m)), m).

(** [val_p->val] read through a handle. *)
Definition read_cell (h : handle) : M T :=
  fun m =>
    match cells m !! h with
    | None => (Undefined null_pointer, m)
    | Some c => (Ok (val c), m)
    end.

(** [val_p->val = v] *)
Definition write_cell (h : handle) (v : T) : M unit :=
  fun m =>
    match cells m !! h with
    | None => (Undefined null_pointer, m)
    | Some c => (Ok tt, Machine (env m) (<[h := Value (vname c) v]> (cells m)))
    end.

(** A local array [T v[ N ]]: its elements are indeterminate until they are
    assigned. *)
Definition array : Type := list (option T).

Definition array_new (N : nat) : array := replicate N None.

Definition array_get (v : array) (i : nat) : M T :=
  match v !! i with
  | Some (Some x) => ret x
  | Some None => undef uninitialised
  | None => undef out_of_range
  end.

Definition array_set (v : array) (i : nat) (x : T) : array := <[i := Some x]> v.

(** [for( int i = i0; i != i0 + k && cond; ++i ) a = body( i, a )] *)
Fixpoint for_up {A} (k : nat) (i : nat) (cond : M bool)
  (body : nat -> A -> M A) (a : A) : M A :=
  match k with
  | O => ret a
  | S k' =>
      let! c := cond in
      if c then let! a' := body i a in for_up k' (S i) cond body a'
      else ret a
  end.

(** [for( int i = k - 1; i >= 0; --i ) body( i )] *)
Fixpoint for_down (k : nat) (body : nat -> M unit) : M unit :=
  match k with
  | O => ret tt
  | S k' => do! body k' in for_down k' body
  end.

(** ** adaptors.h and def_rte.h : the effect of each function object *)

(** The body of the two loops of [vector_op_apply] that move [N] values from
    the stack into an array. *)
Definition take_top (i : nat) (v : array) : M array :=
  let! x := top in
  do! pop in
  ret (array_set v i x).

(** [!rt.stack.empty()] *)
Definition not_empty : M bool :=
  let! e := empty in ret (negb e).

(** The body of the second loop of [vector_assign]: the instruction
    [1 + i] places before the current one must be a [load_var]; its variable
    receives the top of the stack. *)
Definition assign_component (prog : prog_type) (i : nat) (v : array)
  : M array :=
  let! ipv := get_ip in
  let! ins := prog_at prog (wrap_size (ipv - (1 + Z.of_nat i))) in
  match ins with
  | load_var h =>
      let! x := top in
      do! pop in
      do! write_cell h x in
      ret (array_set v i x)
  | _ => throw invalid_assign
  end.

(** [rt.stack.push( v[ i ] )] *)
Definition push_component (v : array) (i : nat) : M unit :=
  let! x := array_get v i in push x.

(** The body of the third loop of [vector_op_apply], given the effect of
    the wrapped function. *)
Definition apply_component (fp : M unit) (v1 v2 : array) (i : nat) (vo : array)
  : M array :=
  let! a := array_get v1 i in
  do! push a in
  let! b := array_get v2 i in
  do! push b in
  do! fp in
  let! x := top in
  do! pop in
  ret (array_set vo i x).

(** [operator()( rte< T >& rt )] of each class. *)
Fixpoint call (f : function_obj) : M unit :=
  match f with
  | function_unary fn _ _ _ _ =>
      let! st := top in
      set_top (fn st)
  | function_binary fn _ _ _ _ =>
      let! op2 := top in
      do! pop in
      let! op1 := top in
      set_top (fn op1 op2)
  | scalar_assign =>
      let! prog := deref_prog in
      do! pop in
      let! i := get_ip in
      let! ins := prog_at prog (wrap_size (i - 1)) in
      match ins with
      | load_var h => let! v := top in write_cell h v
      | _ => throw invalid_assign
      end
  | vector_assign N =>
      let! prog := deref_prog in
      let! e := empty in
      do! (if e then ret tt
           else for_up N 0 not_empty (fun _ _ => pop) tt) in
      let! v := for_up N 0 not_empty (assign_component prog) (array_new N) in
      for_down N (push_component v)
  | dotprod3 =>
      let! z2 := top in do! pop in
      let! y2 := top in do! pop in
      let! x2 := top in do! pop in
      let! z1 := top in do! pop in
      let! y1 := top in do! pop in
      let! x1 := top in do! pop in
      push (T_add (T_add (T_mul x1 x2) (T_mul y1 y2)) (T_mul z1 z2))
  | crossprod3 =>
      let! z2 := top in do! pop in
      let! y2 := top in do! pop in
      let! x2 := top in do! pop in
      let! z1 := top in do! pop in
      let! y1 := top in do! pop in
      let! x1 := top in do! pop in
      do! push (T_sub (T_mul y1 z2) (T_mul y2 z1)) in
      do! push (T_sub (T_mul x2 z1) (T_mul x1 z2)) in
      push (T_sub (T_mul x1 y2) (T_mul x2 y1))
  | vector_op_apply N fp =>
      let! v2 := for_up N 0 (ret true) take_top (array_new N) in
      let! v1 := for_up N 0 (ret true) take_top (array_new N) in
      let! vo :=
        for_up N 0 (ret true) (apply_component (call fp) v1 v2) (array_new N) in
      for_down N (push_component vo)
  end.

(** [instruction::exec( rte< T >& rt )] *)
Definition exec (ins : instruction) : M unit :=
  match ins with
  | load_val v => push v
  | load_var h => let! v := read_cell h in push v
  | call_fun f => call f
  end.

(** ** vm.h : the virtual machine *)

(** [rte_.ip = i] *)
Definition put_ip (i : Z) : M unit :=
  fun m => (Ok tt, Machine (set_ip i (env m)) (cells m)).

(** [vm::prog( pr )] *)
Definition vm_prog (pr : option prog_type) : M unit :=
  fun m => (Ok tt, Machine (set_prog_p pr (env m)) (cells m)).

(** The loop of [vm::run]; each unit of fuel pays for one test of the loop
    condition. *)
Fixpoint run_loop (fuel : nat) (prog : prog_type) (end_ : Z) : M unit :=
  match fuel with
  | O => fun m => (OutOfFuel, m)
  | S fuel' =>
      let! i := get_ip in
      if negb (i =? end_) then
        let! ins := prog_at prog i in
        do! exec ins in
        let! i' := get_ip in
        do! put_ip (wrap_size (i' + 1)) in
        run_loop fuel' prog end_
      else ret tt
  end.

(** [vm::run( i )] *)
Definition run (fuel : nat) (i : Z) : M unit :=
  let! prog := deref_prog in
  let end_ := Z.of_nat (length prog) in
  do! put_ip i in
  run_loop fuel prog end_.

(** The loop as the design document words it: "while [ip < program.size],
    dispatch [program[ip].exec( rte )], then increment [ip]".  It is the
    subject of a comparison with [run_loop] and is not part of the code. *)
Fixpoint documented_loop (fuel : nat) (prog : prog_type) (end_ : Z) : M unit :=
  match fuel with
  | O => fun m => (OutOfFuel, m)
  | S fuel' =>
      let! i := get_ip in
      if i <? end_ then
        let! ins := prog_at prog i in
        do! exec ins in
        let! i' := get_ip in
        do! put_ip (wrap_size (i' + 1)) in
        documented_loop fuel' prog end_
      else ret tt
  end.

Definition documented_run (fuel : nat) (i : Z) : M unit :=
  let! prog := deref_prog in
  let end_ := Z.of_nat (length prog) in
  do! put_ip i in
  documented_loop fuel prog end_.

(** The instructions of a program from some place on, one after the other:
    each is executed and the instruction pointer is incremented after it. *)
Fixpoint exec_all (l : list instruction) : M unit :=
  match l with
  | [] => ret tt
  | ins :: l' =>
      do! exec ins in
      let! i := get_ip in
      do! put_ip (wrap_size (i + 1)) in
      exec_all l'
  end.

(** ** compiler.h *)

(** [new value< T >( n, v )] : a fresh cell and the handle to it. *)
Definition new_value (n : string) (v : T) : M handle :=
  fun m => (Ok (length (cells m)), Machine (env m) (cells m ++ [Value n v])).

(** [rt.var_tab.push_back( h )] *)
Definition var_tab_push_back (h : handle) : M unit :=
  fun m =>
    (Ok tt, Machine (set_var_tab (var_tab (env m) ++ [h]) (env m)) (cells m)).

(** [rt.function_p( s, rargs, largs )] *)
Definition find_function (s : string) (rargs largs : Z)
  : M (option function_obj) :=
  fun m => (Ok (function_p (env m) s rargs largs), m).

(** [rt.variable_p( s )] and [rt.constant_p( s )]; a null entry of a table
    cannot be read for its name. *)
Definition find_value (tab : rte -> list handle) (s : string)
  : M (option handle) :=
  fun m =>
    match value_p (cells m) (tab (env m)) s with
    | Found h => (Ok (Some h), m)
    | Null => (Ok None, m)
    | BadHandle => (Undefined null_pointer, m)
    end.

Section Compiler.

(** The two options of the compiler. *)
Variables count_args_ create_variables_ : bool.

(** [compiler::compile( TokenPtr t, rte< T >& rt )] *)
Definition compile_token (t : TokenPtr) : M instruction :=
  match t with
  | None => throw null_token
  | Some (unknown_tok s) => throw (unknown_token s)
  | Some (value_token s) => ret (load_val (T_atof s))
  | Some (function_token s args _) =>
      let! f := find_function s (if count_args_ then args else -1) 0 in
      match f with
      | Some f => ret (call_fun f)
      | None => throw (unknown_token s)
      end
  | Some (operator_token s largs rargs _) =>
      let! f := find_function s rargs largs in
      match f with
      | Some f => ret (call_fun f)
      | None => throw (unknown_token s)
      end
  | Some (name_token s) =>
      let! f := (if negb count_args_ then find_function s (-1) 0
                 else ret None) in
      match f with
      | Some f => ret (call_fun f)
      | None =>
          let! v := find_value var_tab s in
          match v with
          | Some v => ret (load_var v)
          | None =>
              let! c := find_value const_tab s in
              match c with
              | Some c => let! x := read_cell c in ret (load_val x)
              | None =>
                  if create_variables_ then
                    let! new_var := new_value s T_default in
                    do! var_tab_push_back new_var in
                    ret (load_var new_var)
                  else throw (unknown_token s)
              end
          end
      end
  end.

(** The loop of [compiler::compile( tokens, rt )], with the program built
    so far. *)
Fixpoint compile_from (tokens : list TokenPtr) (program : prog_type)
  : M prog_type :=
  match tokens with
  | [] => ret program
  | t :: tokens' =>
      let! inst := compile_token t in
      compile_from tokens' (program ++ [inst])
  end.

(** [compiler::compile( tokens, rt )] *)
Definition compile (tokens : list TokenPtr) : M prog_type :=
  compile_from tokens [].

End Compiler.

(** ** Vocabulary of the statements *)

(** Everything of a machine except its value stack and the values held in
    its cells. *)
Definition frame (m m' : machine) : Prop :=
  fun_tab (env m') = fun_tab (env m) /\
  var_tab (env m') = var_tab (env m) /\
  const_tab (env m') = const_tab (env m) /\
  prog_p (env m') = prog_p (env m) /\
  exe_stack (env m') = exe_stack (env m) /\
  ip (env m') = ip (env m) /\
  map vname (cells m') = map vname (cells m).

(** A computation that needs no fuel and keeps the frame. *)
Definition framed {A} (c : M A) : Prop :=
  forall m, frame m (snd (c m)) /\ fst (c m) <> OutOfFuel.

(** What [function_p( s, rargs, largs )] asks of a function object. *)
Definition selects (s : string) (rargs largs : Z) (g : function_obj) : Prop :=
  name (base g) = s /\
  (0 <= rargs -> rvalues_in (base g) = rargs /\ lvalues_in (base g) = largs).

(** [dynamic_cast< load_var< T >* >] succeeds. *)
Definition is_load_var (ins : instruction) : bool :=
  match ins with load_var _ => true | _ => false end.

(** The machines on which the second loop of [vector_assign], about to
    look [1 + j] places back, reaches place [1 + i] and finds [ins]
    there. *)
Record reaches (prog : prog_type) (i j : nat) (m : machine) : Prop := {
  reaches_ip_lo : 1 + Z.of_nat i <= ip (env m);
  reaches_ip_hi : ip (env m) <= Z.of_nat (length prog);
  reaches_size : ip (env m) <= size_max;
  reaches_stack : (i - j < length (stack (env m)))%nat;
  reaches_cells :
    forall n h, prog !! n = Some (load_var h) -> (h < length (cells m))%nat
}.

(** One turn of the loop of [run], on a machine whose instruction pointer
    is below the size of the program. *)
Definition turn (prog : prog_type) (rest : M unit) : M unit :=
  bind get_ip (fun i =>
  bind (prog_at prog i) (fun ins =>
  bind (exec ins) (fun _ =>
  bind get_ip (fun i' =>
  bind (put_ip (wrap_size (i' + 1))) (fun _ => rest))))).

(** A program is compiled from a token sequence one instruction for each
    token, in order, each against the machine that the tokens before it
    left behind. *)
Inductive compiles (ca cv : bool)
  : machine -> list TokenPtr -> prog_type -> machine -> Prop :=
| compiles_nil (m : machine) : compiles ca cv m [] [] m
| compiles_cons (m m1 m2 : machine) (t : TokenPtr) (ins : instruction)
    (ts : list TokenPtr) (inss : prog_type) :
    compile_token ca cv t m = (Ok ins, m1) ->
    compiles ca cv m1 ts inss m2 ->
    compiles ca cv m (t :: ts) (ins :: inss) m2.

(** The program of [x = V] after the swap of the operands. *)
Definition assignment (V : T) (h : handle) : prog_type :=
  [load_val V; load_var h; call_fun scalar_assign].

(** What no instruction changes: the tables, the program, the stack of
    procedure calls and the names of the cells. *)
Definition tables_kept (m m' : machine) : Prop :=
  fun_tab (env m') = fun_tab (env m) /\
  var_tab (env m') = var_tab (env m) /\
  const_tab (env m') = const_tab (env m) /\
  prog_p (env m') = prog_p (env m) /\
  exe_stack (env m') = exe_stack (env m) /\
  map vname (cells m') = map vname (cells m).

(** The cells after [val_p->val = x] through the handle [h]. *)
Definition store (h : handle) (x : T) (cs : list value) : list value :=
  match cs !! h with
  | Some c => <[h := Value (vname c) x]> cs
  | None => cs
  end.

(** The cells after a sequence of such assignments, first to last. *)
Definition store_all (l : list (handle * T)) (cs : list value) : list value :=
  fold_left (fun cs hx => store (fst hx) (snd hx) cs) l cs.

(** A function object that declares its values as [generate_def_functions]
    declares them for its class: one in and one out for a function of one
    argument, two in and one out for a function of two, and only such a
    function under [vector_op_apply]; the sizes are those of arrays whose
    doubled length is an [int]. *)
Definition declared_as_generated (f : function_obj) : Prop :=
  match f with
  | function_unary _ _ vin vout _ => vin = 1 /\ vout = 1
  | function_binary _ _ vin vout _ => vin = 2 /\ vout = 1
  | vector_assign N => 2 * Z.of_nat N <= int_max
  | vector_op_apply N (function_binary _ _ vin vout _) =>
      vin = 2 /\ vout = 1 /\ 2 * Z.of_nat N <= int_max
  | vector_op_apply _ _ => False
  | _ => True
  end.

(** The machine after the compiler has created the variables [names], in
    that order: a fresh cell for each, with the value [T()], and the handle
    to it at the end of the table of variables. *)
Definition with_variables (names : list string) (m : machine) : machine :=
  Machine
    (set_var_tab
       (var_tab (env m) ++ seq (length (cells m)) (length names)) (env m))
    (cells m ++ map (fun n => Value n T_default) names).

(** Every handle of the two tables of values points to a cell. *)
Definition tables_valid (m : machine) : Prop :=
  forall h,
    In h (var_tab (env m)) \/ In h (const_tab (env m)) ->
    (h < length (cells m))%nat.

(** Every [load_var] of a program points to a cell. *)
Definition handles_valid (prog : prog_type) (cs : list value) : Prop :=
  forall h, In (load_var h) prog -> (h < length cs)%nat.

(** A machine set to run [prog], every [load_var] of which points to a
    cell. *)
Definition sound (prog : prog_type) (m : machine) : Prop :=
  prog_p (env m) = Some prog /\ handles_valid prog (cells m).

(** A computation that reads through no null pointer on such a machine. *)
Definition null_free {A} (prog : prog_type) (c : M A) : Prop :=
  forall m, sound prog m -> fst (c m) <> Undefined null_pointer.

End Execution.

(** ** def_rte.h : the default run-time environment, for [double] *)

Section DefaultRte.

(** The functions of <cmath> that the tables name; [std::atof] is the
    other function of the C library that the code calls. *)
Record cmath : Type := Cmath {
  fabs : float -> float;   acos : float -> float;  asin : float -> float;
  atan : float -> float;   ceil : float -> float;  cos : float -> float;
  cosh : float -> float;   exp : float -> float;   floor : float -> float;
  log : float -> float;    log10 : float -> float; sin : float -> float;
  sinh : float -> float;   sqrt : float -> float;  tan : float -> float;
  pow : float -> float -> float;
  fmod : float -> float -> float;
  atan2 : float -> float -> float
}.

Variable libm : cmath.
Variable atof : string -> float.

#[local] Instance double : Numeric float := {|
  T_default := 0%float;
  T_atof := atof;
  T_add := PrimFloat.add;
  T_sub := PrimFloat.sub;
  T_mul := PrimFloat.mul
|}.

Definition neg (v : float) : float := (- v)%float.
Definition inv (v : float) : float := (1 / v)%float.
Definition add (v1 v2 : float) : float := (v1 + v2)%float.
Definition sub (v1 v2 : float) : float := (v1 - v2)%float.
Definition mul (v1 v2 : float) : float := (v1 * v2)%float.
Definition div (v1 v2 : float) : float := (v1 / v2)%float.

(** [unary_function_t< T >], [binary_function_t< T >] and [value_t< T >]. *)
Record unary_function_t : Type :=
  UnaryT { u_name : string; u_f : float -> float; u_left_params : Z }.
Record binary_function_t : Type :=
  BinaryT { b_name : string; b_f : float -> float -> float; b_left_params : Z }.
Record value_t : Type := ValueT { v_name : string; v_val : float }.

Definition unary_functions : list unary_function_t :=
  [ UnaryT "abs" (fabs libm) 0;   UnaryT "acos" (acos libm) 0;
    UnaryT "asin" (asin libm) 0;  UnaryT "atan" (atan libm) 0;
    UnaryT "ceil" (ceil libm) 0;  UnaryT "cos" (cos libm) 0;
    UnaryT "cosh" (cosh libm) 0;  UnaryT "exp" (exp libm) 0;
    UnaryT "floor" (floor libm) 0; UnaryT "log" (log libm) 0;
    UnaryT "log10" (log10 libm) 0; UnaryT "sin" (sin libm) 0;
    UnaryT "sinh" (sinh libm) 0;  UnaryT "sqrt" (sqrt libm) 0;
    UnaryT "tan" (tan libm) 0;    UnaryT "inv" inv 0;
    UnaryT "-" neg 1 ].

Definition binary_functions : list binary_function_t :=
  [ BinaryT "^" (pow libm) 1;  BinaryT "*" mul 1;  BinaryT "/" div 1;
    BinaryT "+" add 1;         BinaryT "-" sub 1;  BinaryT "%" (fmod libm) 1;
    BinaryT "add" add 0;       BinaryT "sub" sub 0; BinaryT "div" div 0;
    BinaryT "mul" mul 0;       BinaryT "pow" (pow libm) 0;
    BinaryT "atan2" (atan2 libm) 0 ].

Definition constants : list value_t :=
  [ ValueT "e" 0x1.5bf0a8b145769p+1%float;
    ValueT "log2e" 0x1.71547652b82fep+0%float;
    ValueT "Pi" 0x1.921fb54442d18p+1%float ].

Definition variables : list value_t :=
  [ ValueT "x" 0%float; ValueT "y" 0%float; ValueT "z" 0%float;
    ValueT "w" 0%float ].

Definition generate_unary_functions (functions : list unary_function_t)
  : list function_obj :=
  map (fun u => function_unary (u_f u) (u_name u) 1 1 (u_left_params u))
      functions.

Definition generate_binary_functions (functions : list binary_function_t)
  : list function_obj :=
  map (fun b => function_binary (b_f b) (b_name b) 2 1 (b_left_params b))
      functions.

(** The last loop of [generate_def_functions]: the binary operators lifted
    to three components.  The constructor of [vector_op_apply] may throw. *)
Fixpoint lift_operators (functions : list binary_function_t)
  : option (list function_obj) :=
  match functions with
  | [] => Some []
  | b :: functions' =>
      if b_left_params b =? 1 then
        let f3d := function_binary (b_f b) (b_name b) 2 1 (b_left_params b) in
        match vector_op_apply_new 3 f3d with
        | None => None
        | Some g =>
            match lift_operators functions' with
            | None => None
            | Some gs => Some (g :: gs)
            end
        end
      else lift_operators functions'
  end.

Definition generate_def_functions : option (list function_obj) :=
  let ft := generate_unary_functions unary_functions in
  let bf := generate_binary_functions binary_functions in
  let ft := ft ++ bf in
  let ft := ft ++ [vector_assign 4] in
  let ft := ft ++ [vector_assign 3] in
  let ft := ft ++ [vector_assign 2] in
  let ft := ft ++ [crossprod3] in
  let ft := ft ++ [dotprod3] in
  match lift_operators binary_functions with
  | None => None
  | Some lifted => Some ((ft ++ lifted) ++ [scalar_assign])
  end.

(** [generate_variables] and [generate_constants]: one fresh cell for each
    entry, and the table of the handles to them. *)
Fixpoint generate_values (vals : list value_t) (cells : list value)
  : list handle * list value :=
  match vals with
  | [] => ([], cells)
  | v :: vals' =>
      let h := length cells in
      let (tab, cells') :=
        generate_values vals' (cells ++ [Value (v_name v) (v_val v)]) in
      (h :: tab, cells')
  end.

(** [generate_default_rte], with the cells it allocates: those of the
    variables first here; the language leaves the order open and no handle
    is ever compared with another. *)
Definition generate_default_rte : option machine :=
  match generate_def_functions with
  | None => None
  | Some functions =>
      let (vars, cells1) := generate_values variables [] in
      let (consts, cells2) := generate_values constants cells1 in
      Some (Machine (rte_new functions vars consts) cells2)
  end.

End DefaultRte.

(** ** text_utility.h : the matchers of numbers and names *)

Definition in_range (lo hi : nat) (ch : ascii) : bool :=
  ((lo <=? nat_of_ascii ch) && (nat_of_ascii ch <=? hi))%nat.

Definition is_digit (ch : ascii) : bool := in_range 48 57 ch.

(** [toupper( ch ) == 'E'] *)
Definition is_E (ch : ascii) : bool :=
  Ascii.eqb ch "E"%char || Ascii.eqb ch "e"%char.

(** [isspace] in the C locale. *)
Definition is_space (ch : ascii) : bool :=
  Ascii.eqb ch " "%char || in_range 9 13 ch.

(** The mutable members of [match_number]. *)
Record match_number : Type := MatchNumber {
  dot_found_ : bool;
  E_pos_ : Z;
  number_cnt_ : Z
}.

Definition match_number_new : match_number := MatchNumber false (-1) (-1).

(** [match_number::operator()( ch )], with the state it leaves. *)
Definition match_number_call (st : match_number) (ch : ascii)
  : bool * match_number :=
  let cnt := number_cnt_ st + 1 in
  let sign_after_E :=
    if (Ascii.eqb ch "+"%char || Ascii.eqb ch "-"%char)
       && (0 <=? E_pos_ st) && (E_pos_ st =? cnt - 1)
    then (true, MatchNumber (dot_found_ st) (E_pos_ st) cnt)
    else (false, match_number_new) in
  if is_digit ch then (true, MatchNumber (dot_found_ st) (E_pos_ st) cnt)
  else if Ascii.eqb ch "."%char then
    if 0 <=? E_pos_ st then (false, match_number_new)
    else if negb (dot_found_ st) then (true, MatchNumber true (E_pos_ st) cnt)
    else (false, match_number_new)
  else if is_E ch then
    if cnt =? 0 then (false, match_number_new)
    else if E_pos_ st <? 0 then (true, MatchNumber (dot_found_ st) cnt cnt)
    else sign_after_E
  else sign_after_E.

(** The mutable members of [match_name]. *)
Record match_name : Type := MatchName {
  name_cnt_ : Z;
  n_cnt_ : Z;
  tmp_buf_0 : ascii;
  tmp_buf_1 : ascii;
  match_number_ : match_number
}.

Definition match_name_new : match_name :=
  MatchName (-1) (-1) " "%char " "%char match_number_new.

(** [match_name::operator()( ch )], with the state it leaves. *)
Definition match_name_call (st : match_name) (ch : ascii) : bool * match_name :=
  let cnt := name_cnt_ st + 1 in
  let n := n_cnt_ st + 1 in
  let b0 := if n mod 2 =? 0 then ch else tmp_buf_0 st in
  let b1 := if n mod 2 =? 0 then tmp_buf_1 st else ch in
  let '(number_before, mn) :=
    if (cnt =? 0) && is_E ch then
      let (r0, mn0) := match_number_call (match_number_ st) b0 in
      if r0 then (true, mn0) else match_number_call mn0 b1
    else (false, match_number_ st) in
  if number_before then (false, MatchName (-1) n b0 b1 mn)
  else if in_range 97 122 ch then (true, MatchName cnt n b0 b1 mn)
  else if in_range 65 90 ch then (true, MatchName cnt n b0 b1 mn)
  else if Ascii.eqb ch "_"%char then (true, MatchName cnt n b0 b1 mn)
  else if is_digit ch && (0 <? cnt) then (true, MatchName cnt n b0 b1 mn)
  else (false, MatchName (-1) n b0 b1 mn).

(** [std::not1( p )] *)
Definition not1 {St} (p : St -> ascii -> bool * St) (st : St) (ch : ascii)
  : bool * St :=
  let (r, st') := p st ch in (negb r, st').

(** [mmath_plus::find_if( first, last, predicate )] over the characters
    from [first] on; the predicate is a copy and its final state is lost. *)
Fixpoint find_if {St} (p : St -> ascii -> bool * St) (st : St)
  (l : list ascii) (first : nat) : nat :=
  match l with
  | [] => first
  | ch :: l' =>
      let (r, st') := p st ch in
      if r then first else find_if p st' l' (S first)
  end.

(** An iterator is a position in the text. *)
Definition range_type : Type := (nat * nat)%type.

(** The characters between two iterators. *)
Definition between (text : list ascii) (b e : nat) : list ascii :=
  take (e - b) (drop b text).

(** [search_range( begin, end, p )] *)
Definition search_range {St} (text : list ascii) (b e : nat)
  (p : St -> ascii -> bool * St) (p0 : St) : range_type :=
  let b' := find_if p p0 (between text b e) b in
  if (b' =? e)%nat then (e, e)
  else (b', find_if (not1 p) p0 (between text b' e) b').

(** ** math_parser.h : operators and the tokeniser *)

Record operator_type : Type := OperatorType {
  op_name : string;
  operands : Z;
  op_largs : Z;
  op_rargs : Z;
  outvals : Z;
  swap : bool
}.

(** [std::istringstream]: what is left to read, [eofbit] and [failbit]. *)
Record istringstream : Type := IStringStream {
  buf : list ascii;
  eofbit : bool;
  failbit : bool
}.

(** A C string ends at its first NUL. *)
Fixpoint c_str (l : list ascii) : list ascii :=
  match l with
  | [] => []
  | ch :: l' => if Ascii.eqb ch Ascii.zero then [] else ch :: c_str l'
  end.

Definition istringstream_new (l : list ascii) : istringstream :=
  IStringStream l false false.

Definition good (ist : istringstream) : bool :=
  negb (eofbit ist) && negb (failbit ist).

Fixpoint skip_space (l : list ascii) : list ascii :=
  match l with
  | [] => []
  | ch :: l' => if is_space ch then skip_space l' else l
  end.

(** The longest prefix of characters that satisfy [p], and the rest. *)
Fixpoint span (p : ascii -> bool) (l : list ascii) : list ascii * list ascii :=
  match l with
  | [] => ([], [])
  | ch :: l' =>
      if p ch then let (w, r) := span p l' in (ch :: w, r) else ([], l)
  end.

Definition is_nil {A} (l : list A) : bool :=
  match l with [] => true | _ => false end.

(** [is >> s] for a string: [s] keeps its value when nothing is read. *)
Definition extract_string (ist : istringstream) (s : list ascii)
  : list ascii * istringstream :=
  if negb (good ist) then (s, IStringStream (buf ist) (eofbit ist) true)
  else
    match skip_space (buf ist) with
    | [] => (s, IStringStream [] true true)
    | rest =>
        let (w, rest') := span (fun ch => negb (is_space ch)) rest in
        (w, IStringStream rest' (is_nil rest') false)
    end.

(** The value of a sequence of decimal digits. *)
Fixpoint digits_value (ds : list ascii) (acc : Z) : Z :=
  match ds with
  | [] => acc
  | d :: ds' => digits_value ds' (10 * acc + (Z.of_nat (nat_of_ascii d) - 48))
  end.

(** [is >> v] for an [int]: an optional sign and decimal digits; a value
    that no [int] represents sets [failbit]. *)
Definition extract_int (ist : istringstream) : option Z * istringstream :=
  if negb (good ist) then (None, IStringStream (buf ist) (eofbit ist) true)
  else
    match skip_space (buf ist) with
    | [] => (None, IStringStream [] true true)
    | ch :: rest =>
        let '(negative, rest1) :=
          if Ascii.eqb ch "-"%char then (true, rest)
          else if Ascii.eqb ch "+"%char then (false, rest)
          else (false, ch :: rest) in
        let (ds, rest2) := span is_digit rest1 in
        match ds with
        | [] => (None, IStringStream rest1 (is_nil rest1) true)
        | _ =>
            let v := if negative then - digits_value ds 0
                     else digits_value ds 0 in
            if (int_min <=? v) && (v <=? int_max)
            then (Some v, IStringStream rest2 (is_nil rest2) false)
            else (None, IStringStream rest2 (is_nil rest2) true)
        end
    end.

(** [while( is ) { is >> v; if( is ) values.push_back( v ); }] *)
Fixpoint read_values (fuel : nat) (ist : istringstream) (values : list Z)
  : list Z :=
  match fuel with
  | O => values
  | S fuel' =>
      if failbit ist then values
      else
        let (v, ist') := extract_int ist in
        match v with
        | Some v => read_values fuel' ist' (values ++ [v])
        | None => read_values fuel' ist' values
        end
  end.

(** The integers between the brackets of an annotation. *)
Definition annotation_values (l : list ascii) : list Z :=
  read_values (S (S (length l))) (istringstream_new l) [].

(** [s.find( ch, from )] *)
Fixpoint find_char (ch : ascii) (l : list ascii) (from : nat) : option nat :=
  match l with
  | [] => None
  | c :: l' =>
      match from with
      | S from' => option_map S (find_char ch l' from')
      | O => if Ascii.eqb c ch then Some O
             else option_map S (find_char ch l' O)
      end
  end.

(** [s.find( ch ) != std::string::npos] *)
Definition contains (ch : ascii) (l : list ascii) : bool :=
  match find_char ch l 0 with
  | Some _ => true
  | None => false
  end.

Section Parser.

Variable operators_ : list operator_type.
Variables count_args_ debug_ : bool.

(** [find_if( operators_.begin(), operators_.end(), findop( fname ) )
     != operators_.end()] *)
Definition is_operator (fname : string) : bool :=
  existsb (fun o => String.eqb (op_name o) fname) operators_.

Definition text_of (text : list ascii) (b e : nat) : string :=
  string_of_list_ascii (between text b e).

(** [math_parser::search_name( b, e )] *)
Fixpoint search_name (fuel : nat) (text : list ascii) (b e : nat)
  : result range_type :=
  match fuel with
  | O => OutOfFuel
  | S fuel' =>
      let r := search_range text b e match_name_call match_name_new in
      if (fst r =? e)%nat then Ok r
      else if (snd r =? e)%nat
              || negb (match text !! snd r with
                       | Some ch => Ascii.eqb ch "("%char
                       | None => false
                       end)
      then
        if is_operator (text_of text (fst r) (snd r))
        then search_name fuel' text (snd r) e
        else Ok (fst r, pred (snd r))
      else search_name fuel' text (snd r) e
  end.

(** [math_parser::search_number( b, e, start )] *)
Fixpoint search_number (fuel : nat) (text : list ascii) (b e start : nat)
  : result range_type :=
  match fuel with
  | O => OutOfFuel
  | S fuel' =>
      if (b =? e)%nat then Ok (e, e)
      else
        let r := search_range text b e match_number_call match_number_new in
        if (fst r =? e)%nat then Ok r
        else
          match search_name (S (length text)) text (snd r) e with
          | Ok rn =>
              if (fst rn =? snd r)%nat && negb (fst rn =? e)%nat
              then Throw (invalid_name (text_of text (fst r) (S (snd rn))))
              else if (fst r =? start)%nat then Ok (fst r, pred (snd r))
              else
                let nr := search_range text (pred (fst r)) (snd r)
                            match_name_call match_name_new in
                if negb (fst nr =? snd r)%nat
                then search_number fuel' text (snd r) e start
                else
                  let last := match text !! pred (snd r) with
                              | Some ch => ch
                              | None => Ascii.zero
                              end in
                  if negb (fst r =? snd r)%nat && negb (is_digit last)
                  then Ok (search_range text (snd r) e
                             match_number_call match_number_new)
                  else if is_digit last || Ascii.eqb last "."%char
                  then
                    if negb (fst r =? start)%nat then
                      match search_name (S (length text)) text (pred (fst r)) e
                      with
                      | Ok v =>
                          if (fst v <? snd r)%nat
                          then search_number fuel' text (snd r) e start
                          else Ok (fst r, pred (snd r))
                      | Throw x => Throw x
                      | Undefined u => Undefined u
                      | OutOfFuel => OutOfFuel
                      end
                    else Ok (fst r, pred (snd r))
                  else search_number fuel' text (snd r) e start
          | Throw x => Throw x
          | Undefined u => Undefined u
          | OutOfFuel => OutOfFuel
          end
  end.

(** The token of an annotated word, from the integers of its annotation;
    a null pointer unless there are one, two or three of them. *)
Definition annotated_token (name : string) (values : list Z) : TokenPtr :=
  match values with
  | [a] => Some (function_token name a (-1))
  | [a; o] => Some (function_token name a o)
  | [l; r; o] => Some (operator_token name l r o)
  | _ => None
  end.

(** The end of [create_token]: a number, a name, or an unknown token. *)
Definition plain_token (s : string) : result TokenPtr :=
  let text := list_ascii_of_string s in
  let e := length text in
  match search_number (S e) text 0 e 0 with
  | Ok r =>
      if negb (fst r =? e)%nat then Ok (Some (value_token s))
      else
        match search_name (S e) text 0 e with
        | Ok r =>
            if negb (fst r =? e)%nat then Ok (Some (name_token s))
            else if negb count_args_ && is_operator s
            then Ok (Some (operator_token s (-1) (-1) (-1)))
            else Ok (Some (unknown_tok s))
        | Throw x => Throw x
        | Undefined u => Undefined u
        | OutOfFuel => OutOfFuel
        end
  | Throw x => Throw x
  | Undefined u => Undefined u
  | OutOfFuel => OutOfFuel
  end.

(** [math_parser::create_token( s )] *)
Definition create_token (s : string) : result TokenPtr :=
  let text := list_ascii_of_string s in
  if count_args_ then
    match find_char "["%char text 0 with
    | Some i =>
        let name := text_of text 0 i in
        match find_char "]"%char text i with
        | None => Ok (Some (unknown_tok s))
        | Some c => Ok (annotated_token name
                          (annotation_values (between text (S i) c)))
        end
    | None => plain_token s
    end
  else if is_operator s then Ok (Some (operator_token s (-1) (-1) (-1)))
  else plain_token s.

Definition last_is (ch : ascii) (l : list ascii) : bool :=
  match last l with
  | Some c => Ascii.eqb c ch
  | None => false
  end.

(** The inner loop of [create_tokens]: the words that follow, up to one
    that ends with a closing bracket. *)
Fixpoint gather (fuel : nat) (ist : istringstream) (s2 : list ascii)
  (sv : list (list ascii)) : list (list ascii) * istringstream :=
  match fuel with
  | O => (sv, ist)
  | S fuel' =>
      if negb (failbit ist) && negb (last_is "]"%char s2) then
        let (s2', ist') := extract_string ist s2 in
        gather fuel' ist' s2' (if good ist' then sv ++ [s2'] else sv)
      else (sv, ist)
  end.

(** [s += BLANK; s += sv[ i ];] for each gathered word. *)
Definition join (s : list ascii) (sv : list (list ascii)) : list ascii :=
  fold_left (fun acc w => acc ++ " "%char :: w) sv s.

(** The end of the body of the loop of [create_tokens]: the token of the
    word [s], when there is one, is appended; the debug output reads its
    type whether there is one or not. *)
Definition push_token (s : string) (tokens_ : list token)
  : result (list token) :=
  match create_token s with
  | Ok t =>
      let tokens' := match t with
                     | Some t => tokens_ ++ [t]
                     | None => tokens_
                     end in
      if debug_ then
        match t with
        | Some _ => Ok tokens'
        | None => Undefined null_pointer
        end
      else Ok tokens'
  | Throw x => Throw x
  | Undefined u => Undefined u
  | OutOfFuel => OutOfFuel
  end.

(** The loop of [math_parser::create_tokens]. *)
Fixpoint create_tokens_loop (fuel : nat) (ist : istringstream)
  (tokens_ : list token) : result (list token) :=
  match fuel with
  | O => OutOfFuel
  | S fuel' =>
      if failbit ist then Ok tokens_
      else
        let (s, ist1) := extract_string ist [] in
        if is_nil s then Ok tokens_
        else
          let (s, ist2) :=
            if count_args_ && contains "["%char s
               && negb (last_is "]"%char s)
            then
              let (sv, ist2) :=
                gather (S (length (buf ist1))) ist1 [" "%char] [] in
              (join s sv, ist2)
            else (s, ist1) in
          match push_token (string_of_list_ascii s) tokens_ with
          | Ok tokens' => create_tokens_loop fuel' ist2 tokens'
          | r => r
          end
  end.

(** [math_parser::create_tokens()], from the expression in RPN to the
    tokens. *)
Definition create_tokens (expr_ : string) : result (list token) :=
  let text := c_str (list_ascii_of_string expr_) in
  create_tokens_loop (S (length text)) (istringstream_new text) [].

End Parser.

(** ** test.cpp : the console program *)

(** The operator table of the console program; [op_t( n, o )] has
    [l = r = out = 1] and no swap. *)
Definition ops_array : list operator_type :=
  [ OperatorType "cross3" 1 0 6 3 false;
    OperatorType "^" 2 1 1 1 false;  OperatorType "*" 2 3 3 1 false;
    OperatorType "*" 2 1 1 1 false;  OperatorType "/" 2 1 1 1 false;
    OperatorType "-" 1 0 1 1 false;  OperatorType "-" 2 1 1 1 false;
    OperatorType "-" 2 3 3 3 false;
    OperatorType "+" 2 3 3 3 false;  OperatorType "+" 2 1 1 1 false;
    OperatorType "=" 2 1 1 1 true;
    OperatorType "=" 2 3 3 3 true ].

(** ** A host on which the statements are exercised *)

(** [std::atof] on a text that starts with decimal digits and has no
    fraction and no exponent: the integer they denote, which is exact below
    2^53.  The C function does more; statements that hold for every [atof]
    are stated for every [atof]. *)
Definition atof_decimal (s : string) : float :=
  PrimFloat.of_uint63
    (Uint63.of_Z
       (digits_value (fst (span is_digit (list_ascii_of_string s))) 0)).

(** An inhabitant of [cmath]: [fabs] and [sqrt] are the IEEE operations;
    the other functions, which binary64 arithmetic alone does not define,
    are stood in for by projections.  No statement depends on them. *)
Definition cmath_sample : cmath :=
  {| fabs := PrimFloat.abs; acos := fun x => x; asin := fun x => x;
     atan := fun x => x; ceil := fun x => x; cos := fun x => x;
     cosh := fun x => x; exp := fun x => x; floor := fun x => x;
     log := fun x => x; log10 := fun x => x; sin := fun x => x;
     sinh := fun x => x; sqrt := PrimFloat.sqrt; tan := fun x => x;
     pow := fun x _ => x; fmod := fun x _ => x; atan2 := fun x _ => x |}.

(** The default run-time environment on that host ([generate_def_functions]
    does not throw, see [default_rte_generated]). *)
Definition default_machine : @machine float :=
  match generate_default_rte cmath_sample with
  | Some m => m
  | None => Machine (rte_new [] [] []) []
  end.

(** An environment with the variable [x] and the scalar assignment. *)
Definition sample_cells : list (@value float) := [Value "x" 0%float].

Definition sample_rte : @rte float := rte_new [scalar_assign] [0%nat] [].

(** A machine about to execute an assignment that follows four literals. *)
Definition after_literals : @machine float :=
  Machine
    {| fun_tab := []; var_tab := []; const_tab := [];
       prog_p := Some [load_val 1%float; load_val 2%float; load_val 3%float;
                       load_val 4%float; call_fun (vector_assign 2)];
       stack := [4%float; 3%float; 2%float; 1%float];
       exe_stack := []; ip := 4 |}
    [].

(** The program of the tokens [1 2 =[ 2 2 2 ]]: a vector assignment of
    arity two that follows two literals and no variable. *)
Definition two_literals : @prog_type float :=
  [load_val 1%float; load_val 2%float; call_fun (vector_assign 2)].

(** A machine about to execute the last instruction of [two_literals]. *)
Definition after_two_literals : @machine float :=
  Machine
    {| fun_tab := []; var_tab := []; const_tab := [];
       prog_p := Some two_literals;
       stack := [2%float; 1%float];
       exe_stack := []; ip := 2 |}
    [].

(** A machine with an empty program. *)
Definition no_program : @machine float :=
  Machine (set_prog_p (Some []) (rte_new [] [] [])) [].

(** The tokens of [(1,2,3) + (4,5,6)], that is of the RPN text
    [1 2 3 4 5 6 +[ 3 3 3 ]]. *)
Definition vector_sum_tokens : list TokenPtr :=
  [ Some (value_token "1"); Some (value_token "2"); Some (value_token "3");
    Some (value_token "4"); Some (value_token "5"); Some (value_token "6");
    Some (operator_token "+" 3 3 3) ].

(** ** text_utility.h and math_parser.cpp : matching parentheses *)

Definition OPENPAR : ascii := "("%char.
Definition CLOSEPAR : ascii := ")"%char.

(** [match_opening::operator()( c )], with the counter it leaves; the
    counter is an [int]. *)
Definition match_opening_call (cnt_ : Z) (c : ascii) : bool * Z :=
  let cnt1 := if Ascii.eqb c OPENPAR then wrap_int (cnt_ + 1) else cnt_ in
  let cnt2 := if Ascii.eqb c CLOSEPAR then wrap_int (cnt1 - 1) else cnt1 in
  (cnt2 =? 0, cnt2).

(** [match_closing::operator()( c )], with the counter it leaves. *)
Definition match_closing_call (cnt_ : Z) (c : ascii) : bool * Z :=
  let cnt1 := if Ascii.eqb c OPENPAR then wrap_int (cnt_ - 1) else cnt_ in
  let cnt2 := if Ascii.eqb c CLOSEPAR then wrap_int (cnt1 + 1) else cnt1 in
  (cnt2 =? 0, cnt2).

(** [forward_parenthesis_match( i, end, OPENPAR, CLOSEPAR ) == end], for
    the characters from [i] on; the counter of [match_opening] starts at
    zero. *)
Definition no_forward_match (from_i : list ascii) : bool :=
  (find_if match_opening_call 0%Z from_i 0 =? length from_i)%nat.

(** [backward_parenthesis_match( reverse_iterator( i ), rend, OPENPAR,
    CLOSEPAR ) == rend], for the characters before [i], the nearest first;
    the counter of [match_closing] starts at one. *)
Definition no_backward_match (before_i : list ascii) : bool :=
  (find_if match_closing_call 1%Z before_i 0 =? length before_i)%nat.

(** How the first loop of [math_parser::validate] ends: it runs through,
    or it throws with the text up to the offending parenthesis. *)
Inductive parentheses_check : Type :=
| parentheses_matched
| unmatched_opening_par (data : string)
| unmatched_closing_par (data : string).

(** The first loop of [math_parser::validate], "check for unmatched
    parentheses", at the iterator [i]: [before] holds the characters
    before [i], the nearest first, and [l] those from [i] on. *)
Fixpoint validate_loop (before l : list ascii) : parentheses_check :=
  match l with
  | [] => parentheses_matched
  | c :: l' =>
      if Ascii.eqb c OPENPAR then
        if no_forward_match l
        then unmatched_opening_par (string_of_list_ascii (rev (c :: before)))
        else validate_loop (c :: before) l'
      else if Ascii.eqb c CLOSEPAR then
        if no_backward_match before
        then unmatched_closing_par (string_of_list_ascii (rev (c :: before)))
        else validate_loop (c :: before) l'
      else validate_loop (c :: before) l'
  end.

Definition validate_parentheses (expr_ : string) : parentheses_check :=
  validate_loop [] (list_ascii_of_string expr_).

(** A text whose parentheses are balanced: read from the left with [d]
    of them open, no closing parenthesis comes with none open and none
    is open at the end. *)
Fixpoint balanced_from (d : nat) (l : list ascii) : bool :=
  match l with
  | [] => (d =? 0)%nat
  | c :: l' =>
      if Ascii.eqb c OPENPAR then balanced_from (S d) l'
      else if Ascii.eqb c CLOSEPAR then
        match d with
        | O => false
        | S d' => balanced_from d' l'
        end
      else balanced_from d l'
  end.

Definition balanced (s : string) : bool :=
  balanced_from 0 (list_ascii_of_string s).

(** The number of parentheses open after a text, read backwards from its
    end, when none was closed without being open. *)
Fixpoint depth_of (before : list ascii) : option nat :=
  match before with
  | [] => Some O
  | c :: b =>
      match depth_of b with
      | None => None
      | Some d =>
          if Ascii.eqb c OPENPAR then Some (S d)
          else if Ascii.eqb c CLOSEPAR then
            match d with
            | O => None
            | S d' => Some d'
            end
          else Some d
      end
  end.

(** The [k] parentheses that are open are all closed within [l]. *)
Fixpoint closes (k : nat) (l : list ascii) : bool :=
  match l with
  | [] => (k =? 0)%nat
  | c :: l' =>
      (k =? 0)%nat
      || (if Ascii.eqb c OPENPAR then closes (S k) l'
          else if Ascii.eqb c CLOSEPAR then closes (pred k) l'
          else closes k l')
  end.

(** ** Vocabulary of the statements about the tokeniser *)

(** A word as [is >> s] reads one: not empty, without white space and
    without the NUL that ends a C string. *)
Definition is_word (w : string) : bool :=
  negb (is_nil (list_ascii_of_string w))
  && forallb (fun ch => negb (is_space ch) && negb (Ascii.eqb ch Ascii.zero))
       (list_ascii_of_string w).

(** A word that the loop of [create_tokens] takes alone: with
    [count_args], one that opens an annotation also closes it. *)
Definition taken_alone (count_args : bool) (w : string) : bool :=
  is_word w
  && (negb count_args
      || negb (contains "["%char (list_ascii_of_string w))
      || last_is "]"%char (list_ascii_of_string w)).

(** The words, each followed by a blank. *)
Definition blank_ended (ws : list string) : string :=
  fold_right (fun w acc => (w ++ " " ++ acc)%string) EmptyString ws.

Section Words.

Variable operators_ : list operator_type.
Variables count_args_ debug_ : bool.

(** The end of the body of the loop of [create_tokens] for each word in
    turn, up to the first that fails. *)
Fixpoint push_tokens (ws : list string) (tokens_ : list token)
  : result (list token) :=
  match ws with
  | [] => Ok tokens_
  | w :: ws' =>
      match push_token operators_ count_args_ debug_ w tokens_ with
      | Ok tokens' => push_tokens ws' tokens'
      | r => r
      end
  end.

End Words.

(** A letter or an underscore, as [match_name] tests them. *)
Definition is_alpha (ch : ascii) : bool :=
  in_range 97 122 ch || in_range 65 90 ch || Ascii.eqb ch "_"%char.

(** An annotation as [to_rpn] writes it between the brackets: each number
    after a blank, and a blank at the end. *)
Definition annotation_body (dss : list (list ascii)) : list ascii :=
  flat_map (fun ds => " "%char :: ds) dss ++ [" "%char].

(** Decimal digits that denote an [int]. *)
Definition is_int_literal (ds : list ascii) : bool :=
  negb (is_nil ds) && forallb is_digit ds && (digits_value ds 0 <=? int_max).

(** The words of a text in RPN as [to_rpn] leaves it with [count_args]:
    plain words, and names with an annotation. *)
Inductive rpn_item : Type :=
| plain_word (w : string)
| annotated_word (name : string) (dss : list (list ascii)).

(** The text that [create_token] receives for an item. *)
Definition item_word (it : rpn_item) : string :=
  match it with
  | plain_word w => w
  | annotated_word name dss =>
      (name ++ "[" ++ string_of_list_ascii (annotation_body dss) ++ "]")%string
  end.

Definition item_ok (it : rpn_item) : bool :=
  match it with
  | plain_word w => taken_alone true w
  | annotated_word name dss =>
      forallb (fun ch => negb (is_space ch) && negb (Ascii.eqb ch Ascii.zero)
                         && negb (Ascii.eqb ch "["%char))
        (list_ascii_of_string name)
      && forallb is_int_literal dss
  end.

(** ** shared_ptr.h : the reference-counted pointer *)

(** The free store as the class uses it: the counters that
    [new int( 1 )] allocates, [None] once deleted, and the objects pointed
    to, [false] once deleted.  A pointer is a place in one of the two
    lists. *)
Record free_store : Type := Store {
  counters : list (option Z);
  objects : list bool
}.

(** The data members of [shared_ptr< T >]; a null pointer is [None]. *)
Record shared_ptr : Type := SharedPtr {
  countPtr_ : option nat;
  ptr_ : option nat
}.

(** What goes wrong on the free store: a failed [assert], the use of a
    counter that has been deleted, a second [delete]; and, in a client,
    the use of a variable that does not exist. *)
Inductive fault : Type :=
| assert_failed
| freed_counter
| deleted_twice
| no_such_variable.

Inductive outcome (A : Type) : Type :=
| Done (a : A)
| Fault (f : fault).

Arguments Done {A} a.
Arguments Fault {A} f.

(** [increment( pi )] : [assert( pi ); return ++*pi;] *)
Definition increment (pi : option nat) (st : free_store)
  : outcome (Z * free_store) :=
  match pi with
  | None => Fault assert_failed
  | Some c =>
      match counters st !! c with
      | Some (Some n) =>
          Done (wrap_int (n + 1),
                Store (<[c := Some (wrap_int (n + 1))]> (counters st))
                  (objects st))
      | _ => Fault freed_counter
      end
  end.

(** [decrement( pi )] : [assert( pi ); return --*pi;] *)
Definition decrement (pi : option nat) (st : free_store)
  : outcome (Z * free_store) :=
  match pi with
  | None => Fault assert_failed
  | Some c =>
      match counters st !! c with
      | Some (Some n) =>
          Done (wrap_int (n - 1),
                Store (<[c := Some (wrap_int (n - 1))]> (counters st))
                  (objects st))
      | _ => Fault freed_counter
      end
  end.

(** [delete ptr_] : nothing for a null pointer. *)
Definition delete_ptr (p : option nat) (st : free_store) : outcome free_store :=
  match p with
  | None => Done st
  | Some o =>
      match objects st !! o with
      | Some true => Done (Store (counters st) (<[o := false]> (objects st)))
      | _ => Fault deleted_twice
      end
  end.

(** [delete countPtr_] *)
Definition delete_count (c : nat) (st : free_store) : outcome free_store :=
  match counters st !! c with
  | Some (Some _) => Done (Store (<[c := None]> (counters st)) (objects st))
  | _ => Fault deleted_twice
  end.

(** [explicit shared_ptr( T* p = 0 )] : the members, and the free store with
    the counter that a pointer that is not null gets. *)
Definition shared_ptr_new (p : option nat) (st : free_store)
  : shared_ptr * free_store :=
  match p with
  | None => (SharedPtr None None, st)
  | Some _ =>
      (SharedPtr (Some (length (counters st))) p,
       Store (counters st ++ [Some 1]) (objects st))
  end.

(** [acquire( o )] : the members of [*this] afterwards. *)
Definition acquire (o : shared_ptr) (st : free_store)
  : outcome (shared_ptr * free_store) :=
  match countPtr_ o with
  | None => Done (SharedPtr None (ptr_ o), st)
  | Some _ =>
      match increment (countPtr_ o) st with
      | Done (_, st') => Done (SharedPtr (countPtr_ o) (ptr_ o), st')
      | Fault f => Fault f
      end
  end.

(** [release()] : the members of [*this] afterwards. *)
Definition release (this : shared_ptr) (st : free_store)
  : outcome (shared_ptr * free_store) :=
  match countPtr_ this with
  | None => Done (this, st)
  | Some c =>
      match decrement (Some c) st with
      | Fault f => Fault f
      | Done (n, st1) =>
          if n =? 0 then
            match delete_ptr (ptr_ this) st1 with
            | Fault f => Fault f
            | Done st2 =>
                match delete_count c st2 with
                | Fault f => Fault f
                | Done st3 => Done (SharedPtr None None, st3)
                end
            end
          else Done (SharedPtr None None, st1)
      end
  end.

(** A client of the class: the free store and its variables of type
    [shared_ptr< T >], and what it does with them.  A variable that has
    been destroyed stays in the list, with the null pointers that
    [release] leaves in it. *)
Record world : Type := World { heap : free_store; vars : list shared_ptr }.

Inductive action : Type :=
| make_shared               (* shared_ptr< T > v( new T ) *)
| make_null                 (* shared_ptr< T > v *)
| copy (r : nat)            (* shared_ptr< T > v( vars[ r ] ) *)
| assign (i r : nat)        (* vars[ i ] = vars[ r ] *)
| destroy (i : nat).        (* vars[ i ].~shared_ptr() *)

Definition perform (a : action) (w : world) : outcome world :=
  match a with
  | make_shared =>
      let o := length (objects (heap w)) in
      let st := Store (counters (heap w)) (objects (heap w) ++ [true]) in
      let (sp, st') := shared_ptr_new (Some o) st in
      Done (World st' (vars w ++ [sp]))
  | make_null =>
      let (sp, st') := shared_ptr_new None (heap w) in
      Done (World st' (vars w ++ [sp]))
  | copy r =>
      match vars w !! r with
      | None => Fault no_such_variable
      | Some o =>
          match acquire o (heap w) with
          | Done (sp, st') => Done (World st' (vars w ++ [sp]))
          | Fault f => Fault f
          end
      end
  | assign i r =>
      match vars w !! i, vars w !! r with
      | Some this, Some _ =>
          if (i =? r)%nat then Done w
          else
            match release this (heap w) with
            | Fault f => Fault f
            | Done (this', st1) =>
                match <[i := this']> (vars w) !! r with
                | None => Fault no_such_variable
                | Some o =>
                    match acquire o st1 with
                    | Done (sp, st2) =>
                        Done (World st2 (<[i := sp]> (vars w)))
                    | Fault f => Fault f
                    end
                end
            end
      | _, _ => Fault no_such_variable
      end
  | destroy i =>
      match vars w !! i with
      | None => Fault no_such_variable
      | Some this =>
          match release this (heap w) with
          | Done (sp, st') => Done (World st' (<[i := sp]> (vars w)))
          | Fault f => Fault f
          end
      end
  end.

Fixpoint perform_all (l : list action) (w : world) : outcome world :=
  match l with
  | [] => Done w
  | a :: l' =>
      match perform a w with
      | Done w' => perform_all l' w'
      | Fault f => Fault f
      end
  end.

Definition empty_world : world := World (Store [] []) [].

(** The variables whose counter is at [c]. *)
Definition owns (c : nat) (v : shared_ptr) : bool :=
  match countPtr_ v with
  | Some c' => (c' =? c)%nat
  | None => false
  end.

Fixpoint owners (c : nat) (l : list shared_ptr) : nat :=
  match l with
  | [] => O
  | v :: l' => ((if owns c v then 1 else 0) + owners c l')%nat
  end.

(** Reference counting as it is meant: a counter holds the number of the
    variables that share it, which is not zero, and its object is there;
    a counter that has been deleted is shared by no variable and its
    object has been deleted with it.  Counters and objects are allocated
    together, so a counter and its object are at the same place. *)
Definition counted (w : world) : Prop :=
  length (objects (heap w)) = length (counters (heap w)) /\
  (forall v, In v (vars w) -> ptr_ v = countPtr_ v) /\
  forall c,
    match counters (heap w) !! c with
    | Some (Some n) =>
        objects (heap w) !! c = Some true /\
        n = Z.of_nat (owners c (vars w)) /\ (0 < owners c (vars w))%nat
    | Some None =>
        objects (heap w) !! c = Some false /\ owners c (vars w) = O
    | None => owners c (vars w) = O
    end.

(** ** mem_tracer.h and mem_tracer.cpp : the tracer of allocations *)

(** [MemTracer::Entry]; a null [fun_] is [None]. *)
Record Entry : Type := MkEntry {
  file_ : string;
  line_ : Z;
  fun_ : option string;
  size_ : Z
}.

(** The data members of [MemTracer] but the output stream; an address is
    an integer. *)
Record MemTracer : Type := MkMemTracer {
  map_ : gmap Z Entry;
  lockCount_ : Z;
  amem_ : Z;
  dmem_ : Z
}.

(** [MemTracer( os )] *)
Definition MemTracer_new : MemTracer := MkMemTracer ∅ 0 0 0.

(** [lock()] and [unlock()], which the constructor and the destructor of
    [MemTracer::Lock] call. *)
Definition lock (t : MemTracer) : MemTracer :=
  MkMemTracer (map_ t) (wrap_int (lockCount_ t + 1)) (amem_ t) (dmem_ t).

Definition unlock (t : MemTracer) : MemTracer :=
  MkMemTracer (map_ t) (wrap_int (lockCount_ t - 1)) (amem_ t) (dmem_ t).

(** [MemTracer::Add( p, file, line, fun, s )].  The allocation that the
    map itself may make comes back here with the lock taken, and returns
    at once. *)
Definition Add (p : Z) (file : string) (line : Z) (fn : option string)
  (s : Z) (t : MemTracer) : MemTracer :=
  if 0 <? lockCount_ t then t
  else
    let t1 := lock t in
    let t2 := MkMemTracer (<[p := MkEntry file line fn s]> (map_ t1))
                (lockCount_ t1) (wrap_size (amem_ t1 + s)) (dmem_ t1) in
    unlock t2.

(** [MemTracer::Remove( p )] *)
Definition Remove (p : Z) (t : MemTracer) : MemTracer :=
  if 0 <? lockCount_ t then t
  else
    let t1 := lock t in
    let t2 :=
      match map_ t1 !! p with
      | Some e =>
          MkMemTracer (delete p (map_ t1)) (lockCount_ t1) (amem_ t1)
            (wrap_size (dmem_ t1 + size_ e))
      | None => t1
      end in
    unlock t2.

(** The calls that the operators [new] and [delete] of dbgnew.h make. *)
Inductive tracer_call : Type :=
| call_Add (p : Z) (file : string) (line : Z) (fn : option string) (s : Z)
| call_Remove (p : Z).

Definition tracer_step (t : MemTracer) (c : tracer_call) : MemTracer :=
  match c with
  | call_Add p file line fn s => Add p file line fn s t
  | call_Remove p => Remove p t
  end.

Definition trace (calls : list tracer_call) (t : MemTracer) : MemTracer :=
  fold_left tracer_step calls t.

(** The calls of a program that allocates with [malloc]: a block that is
    added is not one of the blocks that are there, and its size is a
    [size_t]. *)
Fixpoint allocates (calls : list tracer_call) (m : gmap Z Entry) : Prop :=
  match calls with
  | [] => True
  | call_Add p file line fn s :: calls' =>
      m !! p = None /\ 0 <= s <= size_max /\
      allocates calls' (<[p := MkEntry file line fn s]> m)
  | call_Remove p :: calls' => allocates calls' (delete p m)
  end.

(** The bytes of the blocks that the map holds. *)
Definition held (m : gmap Z Entry) : Z :=
  map_fold (fun _ e acc => acc + size_ e) 0 m.

(** What the members hold between two calls. *)
Definition accounted (t : MemTracer) : Prop :=
  lockCount_ t = 0 /\
  in_size (amem_ t) /\ in_size (dmem_ t) /\
  wrap_size (amem_ t - dmem_ t) = wrap_size (held (map_ t)).


(** ** Scalar expressions *)

(** An expression over the literals, the names of variables and constants,
    and the functions of one and of two arguments of the tables of
    def_rte.h. *)
Inductive expr : Type :=
| e_value (s : string)
| e_name (n : string)
| e_unary (u : unary_function_t) (a : expr)
| e_binary (b : binary_function_t) (a1 a2 : expr).

(** The token of a function of two arguments as [to_rpn] annotates it: an
    operator [op[ 1 1 1 ]] when it takes a parameter on its left, a
    function [f[2]] otherwise. *)
Definition binary_token (b : binary_function_t) : token :=
  if b_left_params b =? 0 then function_token (b_name b) 2 (-1)
  else operator_token (b_name b) 1 1 1.

(** The tokens of an expression in reverse Polish notation. *)
Fixpoint rpn (e : expr) : list TokenPtr :=
  match e with
  | e_value s => [Some (value_token s)]
  | e_name n => [Some (name_token n)]
  | e_unary u a => rpn a ++ [Some (function_token (u_name u) 1 (-1))]
  | e_binary b a1 a2 => rpn a1 ++ rpn a2 ++ [Some (binary_token b)]
  end.

(** The value of a name in a machine: the cell of the first variable of
    that name, or else of the first constant. *)
Definition name_value (m : @machine float) (n : string) : option float :=
  match variable_p (env m) (cells m) n with
  | Found h => val <$> cells m !! h
  | _ =>
      match constant_p (env m) (cells m) n with
      | Found h => val <$> cells m !! h
      | _ => None
      end
  end.

Section Expressions.

Variable libm : cmath.
Variable atof : string -> float.

(** The value that an expression denotes. *)
Fixpoint eval (m : @machine float) (e : expr) : float :=
  match e with
  | e_value s => atof s
  | e_name n => default 0%float (name_value m n)
  | e_unary u a => u_f u (eval m a)
  | e_binary b a1 a2 => b_f b (eval m a1) (eval m a2)
  end.

(** The expressions over the default tables: the functions of one argument
    are those that take it on their right. *)
Fixpoint well_formed (e : expr) : Prop :=
  match e with
  | e_value _ => True
  | e_name n => In n (map v_name (variables ++ constants))
  | e_unary u a =>
      In u (unary_functions libm) /\ u_left_params u = 0 /\ well_formed a
  | e_binary b a1 a2 =>
      In b (binary_functions libm) /\ well_formed a1 /\ well_formed a2
  end.

End Expressions.

(** The words of an expression in reverse Polish notation, with the
    annotations that [to_rpn] writes: [f[n]] after the arguments of a
    function, [op[ 1 1 1 ]] after the operands of an operator. *)
Definition binary_item (b : binary_function_t) : rpn_item :=
  if b_left_params b =? 0 then plain_word (b_name b ++ "[2]")
  else annotated_word (b_name b) [["1"%char]; ["1"%char]; ["1"%char]].

Fixpoint rpn_items (e : expr) : list rpn_item :=
  match e with
  | e_value s => [plain_word s]
  | e_name n => [plain_word n]
  | e_unary u a => rpn_items a ++ [plain_word (u_name u ++ "[1]")]
  | e_binary b a1 a2 => rpn_items a1 ++ rpn_items a2 ++ [binary_item b]
  end.

Definition rpn_text (e : expr) : string :=
  blank_ended (map item_word (rpn_items e)).

(** The literals of the expression are written with decimal digits. *)
Fixpoint decimal (e : expr) : bool :=
  match e with
  | e_value s =>
      negb (is_nil (list_ascii_of_string s))
      && forallb is_digit (list_ascii_of_string s)
  | e_name _ => true
  | e_unary _ a => decimal a
  | e_binary _ a1 a2 => decimal a1 && decimal a2
  end.

(** A sample expression: [1 + x * 3]. *)
Definition sample_expr : expr :=
  e_binary (BinaryT "+" add 1) (e_value "1")
    (e_binary (BinaryT "*" mul 1) (e_name "x") (e_value "3")).
(** * Properties *)

(** ** Machine integers *)

Lemma wrap_int_id (z : Z) : in_int z -> wrap_int z = z.
Proof.
  unfold in_int, int_min, int_max, wrap_int. intros H.
  rewrite Z.mod_small; lia.
Qed.

Lemma wrap_int_range (z : Z) : in_int (wrap_int z).
Proof.
  unfold in_int, int_min, int_max, wrap_int.
  pose proof (Z.mod_pos_bound (z + 2 ^ 31) (2 ^ 32) ltac:(lia)). lia.
Qed.

Lemma wrap_int_add_r (a b : Z) : wrap_int (a + wrap_int b) = wrap_int (a + b).
Proof.
  unfold wrap_int. f_equal.
  replace (a + ((b + 2 ^ 31) mod 2 ^ 32 - 2 ^ 31) + 2 ^ 31)
    with (a + (b + 2 ^ 31) mod 2 ^ 32) by lia.
  rewrite Zplus_mod_idemp_r. f_equal. lia.
Qed.

Lemma wrap_size_id (z : Z) : in_size z -> wrap_size z = z.
Proof.
  unfold in_size, size_max, wrap_size. intros H. rewrite Z.mod_small; lia.
Qed.

Section Properties.

Context {T : Type} {num : Numeric T}.

#[local] Abbreviation function_obj := (@function_obj T).
#[local] Abbreviation machine := (@machine T).
#[local] Abbreviation M := (@M T).
#[local] Abbreviation instruction := (@instruction T).
#[local] Abbreviation prog_type := (@prog_type T).
#[local] Abbreviation rte := (@rte T).
#[local] Abbreviation value := (@value T).
#[local] Abbreviation array := (@array T).
#[local] Abbreviation framed c := (@framed T _ c).

(** ** The function interface *)

Lemma function_i_new_arity (n : string) (vin vout lin : Z) :
  in_int vin ->
  let f := function_i_new n vin vout lin in
  wrap_int (lvalues_in f + rvalues_in f) = values_in f /\
  rvalues_in f = wrap_int (values_in f - lvalues_in f).
Proof.
  intros Hin. simpl. split; [|reflexivity].
  rewrite wrap_int_add_r. replace (lin + (vin - lin)) with vin by lia.
  now apply wrap_int_id.
Qed.

Lemma values_in_int (f : function_obj) :
  ints_ok f -> in_int (values_in (base f)).
Proof.
  destruct f; simpl; intros H; try tauto;
    try apply wrap_int_range; unfold in_int, int_min, int_max; lia.
Qed.

Lemma base_is_function_i_new (f : function_obj) :
  base f =
  function_i_new (name (base f)) (values_in (base f)) (values_out (base f))
    (lvalues_in (base f)).
Proof. destruct f; reflexivity. Qed.

(** ** What running code leaves alone *)

Lemma frame_refl (m : machine) : frame m m.
Proof. repeat split. Qed.

Lemma frame_trans (m1 m2 m3 : machine) :
  frame m1 m2 -> frame m2 m3 -> frame m1 m3.
Proof.
  unfold frame. intros (?&?&?&?&?&?&?) (?&?&?&?&?&?&?).
  repeat split; congruence.
Qed.

Ltac framed_prim := repeat split; discriminate.

Lemma framed_ret {A} (a : A) : framed (ret a).
Proof. intros m. framed_prim. Qed.

Lemma framed_throw {A} (e : exn) : framed (@throw T A e).
Proof. intros m. framed_prim. Qed.

Lemma framed_undef {A} (u : undefined) : framed (@undef T A u).
Proof. intros m. framed_prim. Qed.

Lemma framed_bind {A B} (c : M A) (k : A -> M B) :
  framed c -> (forall a, framed (k a)) -> framed (bind c k).
Proof.
  intros Hc Hk m. unfold bind. destruct (Hc m) as [Hf Ht].
  destruct (c m) as [[a| | |] m']; simpl in *;
    try (split; [assumption | discriminate]); [|contradiction].
  destruct (Hk a m') as [Hf' Ht']. split; [|assumption].
  eapply frame_trans; eassumption.
Qed.

Lemma framed_push (v : T) : framed (push v).
Proof. intros m. framed_prim. Qed.

Lemma framed_pop : framed (@pop T).
Proof. intros m. unfold pop. destruct (stack (env m)); framed_prim. Qed.

Lemma framed_top : framed (@top T).
Proof. intros m. unfold top. destruct (stack (env m)); framed_prim. Qed.

Lemma framed_set_top (v : T) : framed (set_top v).
Proof. intros m. unfold set_top. destruct (stack (env m)); framed_prim. Qed.

Lemma framed_empty : framed (@empty T).
Proof. intros m. framed_prim. Qed.

Lemma framed_not_empty : framed (@not_empty T).
Proof. apply framed_bind; [apply framed_empty | intros; apply framed_ret]. Qed.

Lemma framed_deref_prog : framed (@deref_prog T).
Proof. intros m. unfold deref_prog. destruct (prog_p (env m)); framed_prim. Qed.

Lemma framed_prog_at (p : prog_type) (i : Z) : framed (@prog_at T p i).
Proof.
  intros m. unfold prog_at. destruct (i <? 0); [framed_prim|].
  destruct (p !! Z.to_nat i); framed_prim.
Qed.

Lemma framed_get_ip : framed (@get_ip T).
Proof. intros m. framed_prim. Qed.

Lemma framed_read_cell (h : handle) : framed (@read_cell T h).
Proof. intros m. unfold read_cell. destruct (cells m !! h); framed_prim. Qed.

Lemma map_vname_insert (cs : list value) (h : nat) (c : value) (v : T) :
  cs !! h = Some c ->
  map vname (<[h := Value (vname c) v]> cs) = map vname cs.
Proof.
  revert h. induction cs as [|c0 cs IH]; intros [|h] Hc; simpl in *;
    try discriminate.
  - injection Hc as ->. reflexivity.
  - f_equal. now apply IH.
Qed.

Lemma framed_write_cell (h : handle) (v : T) : framed (write_cell h v).
Proof.
  intros m. unfold write_cell. destruct (cells m !! h) eqn:E; [|framed_prim].
  repeat split; try discriminate. simpl. now apply map_vname_insert.
Qed.

Lemma framed_array_get (v : array) (i : nat) : framed (@array_get T v i).
Proof.
  unfold array_get. destruct (v !! i) as [[x|]|];
    [apply framed_ret | apply framed_undef | apply framed_undef].
Qed.

Lemma framed_for_up {A} (k : nat) (cond : M bool) (body : nat -> A -> M A) :
  framed cond -> (forall i a, framed (body i a)) ->
  forall i a, framed (for_up k i cond body a).
Proof.
  intros Hc Hb. induction k as [|k IH]; intros i a; simpl.
  - apply framed_ret.
  - apply framed_bind; [exact Hc|]. intros [|]; [|apply framed_ret].
    apply framed_bind; [apply Hb | intros; apply IH].
Qed.

Lemma framed_for_down (k : nat) (body : nat -> M unit) :
  (forall i, framed (body i)) -> framed (for_down k body).
Proof.
  intros Hb. induction k as [|k IH]; simpl.
  - apply framed_ret.
  - apply framed_bind; [apply Hb | intros; exact IH].
Qed.

Create HintDb framed.

#[local] Hint Resolve framed_ret framed_throw framed_undef framed_push
  framed_pop framed_top framed_set_top framed_empty framed_not_empty
  framed_deref_prog framed_prog_at framed_get_ip framed_read_cell
  framed_write_cell framed_array_get : framed.

Ltac framed_step :=
  first
    [ apply framed_bind; [|intros]
    | apply framed_for_up; [|intros]
    | apply framed_for_down; intros
    | solve [auto with framed]
    | match goal with
      | |- framed (match ?x with _ => _ end) => destruct x
      | |- framed (if ?b then _ else _) => destruct b
      end ].

Lemma framed_call (f : function_obj) : framed (call f).
Proof.
  induction f; simpl;
    unfold take_top, assign_component, push_component, apply_component;
    repeat framed_step.
Qed.

Lemma framed_exec (ins : instruction) : framed (exec ins).
Proof.
  destruct ins; simpl; repeat framed_step. apply framed_call.
Qed.

(** ** Lookup of functions *)

Lemma function_p_name_first (tab : list function_obj) (s : string) :
  match function_p_name tab s with
  | Some f =>
      exists pre post, tab = pre ++ f :: post /\ name (base f) = s /\
        forall g, In g pre -> name (base g) <> s
  | None => forall g, In g tab -> name (base g) <> s
  end.
Proof.
  induction tab as [|f tab IH]; simpl.
  - intros g [].
  - destruct (String.eqb_spec (name (base f)) s) as [E|E].
    + exists [], tab. repeat split; [exact E | intros g []].
    + destruct (function_p_name tab s) as [f'|].
      * destruct IH as (pre & post & -> & Hf & Hpre).
        exists (f :: pre), post. repeat split; [exact Hf|].
        intros g [<-|Hg]; [exact E | now apply Hpre].
      * intros g [<-|Hg]; [exact E | now apply IH].
Qed.

Lemma function_p_arity_first (tab : list function_obj) (s : string)
  (rargs largs : Z) :
  let P g := name (base g) = s /\ rvalues_in (base g) = rargs /\
             lvalues_in (base g) = largs in
  match function_p_arity tab s rargs largs with
  | Some f =>
      exists pre post, tab = pre ++ f :: post /\ P f /\
        forall g, In g pre -> ~ P g
  | None => forall g, In g tab -> ~ P g
  end.
Proof.
  intros P.
  assert (HP : forall g,
    (String.eqb (name (base g)) s && (rvalues_in (base g) =? rargs)
       && (lvalues_in (base g) =? largs))%bool = true <-> P g).
  { intros g. unfold P. rewrite !andb_true_iff, String.eqb_eq, !Z.eqb_eq.
    tauto. }
  induction tab as [|f tab IH]; simpl.
  - intros g [].
  - destruct (String.eqb (name (base f)) s && (rvalues_in (base f) =? rargs)
              && (lvalues_in (base f) =? largs))%bool eqn:E.
    + exists [], tab. repeat split; try (apply HP in E; apply E).
      intros g [].
    + assert (Hf : ~ P f) by (rewrite <- HP, E; discriminate).
      destruct (function_p_arity tab s rargs largs) as [f'|].
      * destruct IH as (pre & post & -> & Hf' & Hpre).
        exists (f :: pre), post. repeat split; try apply Hf'.
        intros g [<-|Hg]; [exact Hf | now apply Hpre].
      * intros g [<-|Hg]; [exact Hf | now apply IH].
Qed.

(** C7.  [function_p( s, rargs, largs )] returns the first function of the
    table, in table order, that has the name [s] and, when [rargs] is not
    negative, [rvalues_in = rargs] and [lvalues_in = largs]; it returns a
    null handle exactly when the table holds no such function. *)
Theorem function_p_first (rt : rte) (s : string) (rargs largs : Z) :
  match function_p rt s rargs largs with
  | Some f =>
      exists pre post,
        fun_tab rt = pre ++ f :: post /\
        selects s rargs largs f /\
        forall g, In g pre -> ~ selects s rargs largs g
  | None => forall g, In g (fun_tab rt) -> ~ selects s rargs largs g
  end.
Proof.
  unfold function_p, selects. destruct (Z.ltb_spec rargs 0) as [Hneg|Hpos].
  - pose proof (function_p_name_first (fun_tab rt) s) as H.
    destruct (function_p_name (fun_tab rt) s) as [f|].
    + destruct H as (pre & post & Htab & Hf & Hpre).
      exists pre, post. repeat split; try assumption; try lia.
      intros g Hg [Hn _]. now apply (Hpre g).
    + intros g Hg [Hn _]. now apply (H g).
  - pose proof (function_p_arity_first (fun_tab rt) s rargs largs) as H.
    simpl in H.
    destruct (function_p_arity (fun_tab rt) s rargs largs) as [f|].
    + destruct H as (pre & post & Htab & Hf & Hpre).
      exists pre, post. repeat split; try apply Hf; try assumption.
      intros g Hg [Hn Ha]. apply (Hpre g Hg). tauto.
    + intros g Hg [Hn Ha]. apply (H g Hg). tauto.
Qed.

(** ** Arity of function objects *)

(** C9.  For every function object, whichever class it belongs to, the
    total input arity is the sum of the left and the right arity: every
    constructor initialises the [function_i] base with [n], [in], [out],
    [lin], and the base sets [rvalues_in] to [in - lin].  The equation holds
    in [int] arithmetic and, when [in - lin] is representable, exactly.  It
    stays true because nothing assigns to the arities: executing an
    instruction leaves the function table as it was. *)
Theorem function_arity :
  (forall (n : string) (vin vout lin : Z),
     in_int vin ->
     let f := function_i_new n vin vout lin in
     wrap_int (lvalues_in f + rvalues_in f) = values_in f /\
     rvalues_in f = wrap_int (values_in f - lvalues_in f) /\
     (in_int (vin - lin) -> values_in f = lvalues_in f + rvalues_in f)) /\
  (forall f : function_obj,
     ints_ok f ->
     wrap_int (lvalues_in (base f) + rvalues_in (base f))
       = values_in (base f) /\
     rvalues_in (base f)
       = wrap_int (values_in (base f) - lvalues_in (base f)) /\
     (in_int (values_in (base f) - lvalues_in (base f)) ->
      values_in (base f) = lvalues_in (base f) + rvalues_in (base f))) /\
  (forall (ins : instruction) (m : machine),
     fun_tab (env (snd (exec ins m))) = fun_tab (env m)).
Proof.
  assert (H : forall (n : string) (vin vout lin : Z),
     in_int vin ->
     let f := function_i_new n vin vout lin in
     wrap_int (lvalues_in f + rvalues_in f) = values_in f /\
     rvalues_in f = wrap_int (values_in f - lvalues_in f) /\
     (in_int (vin - lin) -> values_in f = lvalues_in f + rvalues_in f)).
  { intros n vin vout lin Hin f.
    destruct (function_i_new_arity n vin vout lin Hin) as [H1 H2].
    repeat split; try assumption.
    intros Hr. simpl. rewrite (wrap_int_id _ Hr). lia. }
  split; [exact H|]. split.
  - intros f Hok. rewrite (base_is_function_i_new f).
    apply H. now apply values_in_int.
  - intros ins m. apply (framed_exec ins m).
Qed.

(** ** Scalar assignment *)

Lemma scalar_assign_throws (m : machine) (v : T) (s : list T)
  (prog : prog_type) (ins : instruction) :
  stack (env m) = v :: s ->
  prog_p (env m) = Some prog ->
  prog !! Z.to_nat (wrap_size (ip (env m) - 1)) = Some ins ->
  is_load_var ins = false ->
  call scalar_assign m =
    (Throw invalid_assign, Machine (set_stack s (env m)) (cells m)).
Proof.
  intros Hs Hp Hi Hl. simpl. unfold bind, deref_prog, pop, get_ip, prog_at.
  rewrite Hp, Hs. simpl.
  assert (Hw : (wrap_size (ip (env m) - 1) <? 0) = false).
  { apply Z.ltb_ge. unfold wrap_size. apply Z.mod_pos_bound. lia. }
  rewrite Hw, Hi. destruct ins; simpl in *; try reflexivity. discriminate.
Qed.

(** C10.  Scalar assignment pops the value stack before it looks at the
    preceding instruction: when it is invoked on a non-empty stack and
    fails with [invalid_assign], the machine it leaves behind has the stack
    without its former top element, one element fewer than before. *)
Theorem scalar_assign_not_atomic (m m' : machine) (v : T) (s : list T) :
  stack (env m) = v :: s ->
  call scalar_assign m = (Throw invalid_assign, m') ->
  m' = Machine (set_stack s (env m)) (cells m) /\
  stack (env m') = s /\
  S (length (stack (env m'))) = length (stack (env m)).
Proof.
  intros Hs. simpl. unfold bind, deref_prog, pop, get_ip, prog_at.
  destruct (prog_p (env m)) as [prog|]; [|discriminate].
  rewrite Hs. simpl.
  destruct (wrap_size (ip (env m) - 1) <? 0); [discriminate|].
  destruct (prog !! Z.to_nat (wrap_size (ip (env m) - 1))) as [ins|];
    [|discriminate].
  destruct ins as [x|h|g]; simpl.
  - intros [= <-]. simpl. auto.
  - unfold top, write_cell. simpl. destruct s; [discriminate|].
    simpl. destruct (cells m !! h); discriminate.
  - intros [= <-]. simpl. auto.
Qed.

(** ** Vector assignment *)

Lemma bind_fst_throw {A B} (c : M A) (k : A -> M B) (m : machine) (e : exn) :
  fst (c m) = Throw e -> fst (bind c k m) = Throw e.
Proof.
  unfold bind. destruct (c m) as [[a| | |] m']; simpl; congruence.
Qed.

(** The first loop of [vector_assign] removes up to [k] values. *)
Lemma pop_loop (k i : nat) (m : machine) :
  for_up k i not_empty (fun _ _ => pop) tt m =
    (Ok tt, Machine (set_stack (drop k (stack (env m))) (env m)) (cells m)).
Proof.
  revert i m. induction k as [|k IH];
    intros i [[ft vt ct pp st es ipv] cs]; simpl.
  - reflexivity.
  - unfold bind at 1. unfold not_empty, bind, empty, ret. simpl.
    destruct st as [|v s]; simpl; [reflexivity|].
    unfold pop. simpl. now rewrite IH.
Qed.

Lemma assign_loop_throws (prog : prog_type) (i : nat) (ins : instruction) :
  is_load_var ins = false ->
  forall (k j : nat) (v : array) (m : machine),
    prog !! Z.to_nat (ip (env m) - (1 + Z.of_nat i)) = Some ins ->
    (j <= i < j + k)%nat ->
    reaches prog i j m ->
    fst (for_up k j not_empty (assign_component prog) v m) =
      Throw invalid_assign.
Proof.
  intros Hins. induction k as [|k IH];
    intros j v [[ft vt ct pp st es ipv] cs] Hi Hj [Hlo Hhi Hsz Hst Hcs];
    [lia|].
  simpl in *. destruct st as [|x s]; [simpl in Hst; lia|].
  unfold bind at 1. unfold not_empty, bind, empty, ret. simpl.
  unfold assign_component. unfold bind at 1. unfold get_ip at 1. simpl.
  unfold bind at 1. unfold prog_at.
  assert (Hw : wrap_size (ipv - (1 + Z.of_nat j)) = ipv - (1 + Z.of_nat j)).
  { apply wrap_size_id. unfold in_size. lia. }
  rewrite Hw.
  destruct (Z.ltb_spec (ipv - (1 + Z.of_nat j)) 0) as [?|_]; [lia|].
  destruct (prog !! Z.to_nat (ipv - (1 + Z.of_nat j)))
    as [insj|] eqn:Hj'; [|apply lookup_ge_None_1 in Hj'; lia].
  destruct (Nat.eq_dec j i) as [->|Hne].
  - rewrite Hi in Hj'. injection Hj' as <-.
    destruct ins; simpl in *; try reflexivity. discriminate.
  - destruct insj as [c|h|g]; simpl; try reflexivity.
    unfold bind at 1. unfold top at 1. simpl.
    unfold bind at 1. unfold pop at 1. simpl.
    unfold bind at 1. unfold write_cell at 1. simpl.
    destruct (cs !! h) as [c|] eqn:Hc;
      [|apply lookup_ge_None_1 in Hc; apply Hcs in Hj'; lia].
    unfold ret at 1. apply IH; simpl.
    + exact Hi.
    + lia.
    + split; simpl; try assumption.
      * simpl in Hst. lia.
      * intros n h' Hn. rewrite length_insert. eapply Hcs. exact Hn.
Qed.

Lemma vector_assign_throws (N i : nat) (m : machine) (prog : prog_type)
  (ins : instruction) :
  prog_p (env m) = Some prog ->
  (i < N)%nat ->
  (N + i < length (stack (env m)))%nat ->
  1 + Z.of_nat i <= ip (env m) <= Z.of_nat (length prog) ->
  ip (env m) <= size_max ->
  (forall n h, prog !! n = Some (load_var h) -> (h < length (cells m))%nat) ->
  prog !! Z.to_nat (ip (env m) - (1 + Z.of_nat i)) = Some ins ->
  is_load_var ins = false ->
  fst (call (vector_assign N) m) = Throw invalid_assign.
Proof.
  intros Hp HiN Hlen [Hlo Hhi] Hsz Hcs Hi Hins. simpl.
  unfold bind at 1. unfold deref_prog. rewrite Hp.
  unfold bind at 1. unfold empty at 1.
  destruct (stack (env m)) as [|x s] eqn:Hs; [simpl in Hlen; lia|].
  unfold bind at 1. rewrite pop_loop. rewrite Hs.
  apply bind_fst_throw.
  apply (assign_loop_throws prog i ins Hins); simpl.
  - exact Hi.
  - lia.
  - split; simpl; try assumption; try lia.
    rewrite length_drop. simpl in Hlen |- *. lia.
Qed.

(** C3.  An assignment fails with [invalid_assign] when the instruction it
    inspects is not a [load_var], provided that it gets as far as
    inspecting it.  The scalar assignment, on a non-empty stack, inspects
    the instruction at [ip - 1].  The vector assignment of arity [N]
    inspects the instruction at [ip - 1 - i] only while the stack, after
    the [N] values of the variables have been removed, still holds a value
    for component [i]: the stack must hold more than [N + i] values. *)
Theorem assign_invalid (m : machine) (prog : prog_type) (ins : instruction) :
  prog_p (env m) = Some prog ->
  is_load_var ins = false ->
  (prog !! Z.to_nat (wrap_size (ip (env m) - 1)) = Some ins ->
   stack (env m) <> [] ->
   fst (call scalar_assign m) = Throw invalid_assign) /\
  (forall N i : nat,
     (i < N)%nat ->
     1 + Z.of_nat i <= ip (env m) <= Z.of_nat (length prog) ->
     ip (env m) <= size_max ->
     prog !! Z.to_nat (ip (env m) - (1 + Z.of_nat i)) = Some ins ->
     (N + i < length (stack (env m)))%nat ->
     (forall n h,
        prog !! n = Some (load_var h) -> (h < length (cells m))%nat) ->
     fst (call (vector_assign N) m) = Throw invalid_assign).
Proof.
  intros Hp Hins. split.
  - intros Hi Hne. destruct (stack (env m)) as [|v s] eqn:Hs; [congruence|].
    now rewrite (scalar_assign_throws m v s prog ins Hs Hp Hi Hins).
  - intros N i HiN Hip Hsz Hi Hlen Hcs.
    now apply (vector_assign_throws N i m prog ins).
Qed.

(** ** The virtual machine *)

Lemma exec_keeps_ip (ins : instruction) (m : machine) :
  ip (env (snd (exec ins m))) = ip (env m).
Proof. apply (framed_exec ins m). Qed.

Lemma exec_needs_no_fuel (ins : instruction) (m : machine) :
  fst (exec ins m) <> OutOfFuel.
Proof. apply (framed_exec ins m). Qed.

Lemma run_loop_turn (fuel : nat) (prog : prog_type) (end_ : Z) (m : machine) :
  ip (env m) <> end_ ->
  run_loop (S fuel) prog end_ m = turn prog (run_loop fuel prog end_) m.
Proof.
  intros H. simpl. unfold turn, bind at 1 3, get_ip at 1 3.
  apply Z.eqb_neq in H. now rewrite H.
Qed.

Lemma documented_loop_turn (fuel : nat) (prog : prog_type) (end_ : Z)
  (m : machine) :
  ip (env m) < end_ ->
  documented_loop (S fuel) prog end_ m =
    turn prog (documented_loop fuel prog end_) m.
Proof.
  intros H. simpl. unfold turn, bind at 1 3, get_ip at 1 3.
  apply Z.ltb_lt in H. now rewrite H.
Qed.

(** A turn either stops with the result of its instruction or continues
    on a machine whose instruction pointer is one further. *)
Lemma turn_cases (prog : prog_type) (rest : M unit) (m : machine) :
  0 <= ip (env m) < Z.of_nat (length prog) ->
  Z.of_nat (length prog) <= size_max ->
  exists ins, prog !! Z.to_nat (ip (env m)) = Some ins /\
  ((exists m1, exec ins m = (Ok tt, m1) /\
      turn prog rest m =
        rest (Machine (set_ip (ip (env m) + 1) (env m1)) (cells m1))) \/
   (fst (exec ins m) <> Ok tt /\
      turn prog rest m = exec ins m)).
Proof.
  intros Hip Hsz.
  destruct (prog !! Z.to_nat (ip (env m))) as [ins|] eqn:Hins;
    [|apply lookup_ge_None_1 in Hins; lia].
  exists ins. split; [reflexivity|].
  unfold turn, bind, get_ip, prog_at, put_ip.
  destruct (Z.ltb_spec (ip (env m)) 0) as [?|_]; [lia|]. rewrite Hins.
  pose proof (exec_keeps_ip ins m) as Hk.
  pose proof (exec_needs_no_fuel ins m) as Hf.
  destruct (exec ins m) as [[[]| | |] m1]; simpl in *.
  - left. exists m1. split; [reflexivity|]. rewrite Hk.
    rewrite wrap_size_id; [reflexivity|]. unfold in_size. lia.
  - right. split; [discriminate | reflexivity].
  - right. split; [discriminate | reflexivity].
  - contradiction.
Qed.

Lemma run_loop_documented (fuel : nat) (prog : prog_type) (m : machine) :
  Z.of_nat (length prog) <= size_max ->
  0 <= ip (env m) <= Z.of_nat (length prog) ->
  run_loop fuel prog (Z.of_nat (length prog)) m =
    documented_loop fuel prog (Z.of_nat (length prog)) m.
Proof.
  intros Hsz. revert m. induction fuel as [|fuel IH]; intros m Hip;
    [reflexivity|].
  destruct (Z.eq_dec (ip (env m)) (Z.of_nat (length prog))) as [E|E].
  - simpl. unfold bind, get_ip. rewrite E, Z.eqb_refl, Z.ltb_irrefl.
    reflexivity.
  - rewrite run_loop_turn by assumption.
    rewrite documented_loop_turn by lia.
    destruct (turn_cases prog (run_loop fuel prog (Z.of_nat (length prog))) m)
      as (ins & Hins & [(m1 & He & Ht)|(Hn & Ht)]); try lia;
    destruct (turn_cases prog
                (documented_loop fuel prog (Z.of_nat (length prog))) m)
      as (ins' & Hins' & [(m1' & He' & Ht')|(Hn' & Ht')]); try lia;
    rewrite Hins in Hins'; injection Hins' as <-; rewrite Ht, Ht'.
    + rewrite He in He'. injection He' as <-. apply IH. simpl. lia.
    + rewrite He in Hn'. now elim Hn'.
    + rewrite He' in Hn. now elim Hn.
    + reflexivity.
Qed.

Lemma run_loop_exec_all (fuel : nat) (prog : prog_type) (m : machine) :
  Z.of_nat (length prog) <= size_max ->
  0 <= ip (env m) <= Z.of_nat (length prog) ->
  Z.of_nat (length prog) - ip (env m) < Z.of_nat fuel ->
  run_loop fuel prog (Z.of_nat (length prog)) m =
    exec_all (drop (Z.to_nat (ip (env m))) prog) m.
Proof.
  intros Hsz. revert m. induction fuel as [|fuel IH]; intros m Hip Hfuel;
    [lia|].
  destruct (Z.eq_dec (ip (env m)) (Z.of_nat (length prog))) as [E|E].
  - simpl. unfold bind, get_ip. rewrite E, Z.eqb_refl, Nat2Z.id.
    now rewrite drop_all.
  - rewrite run_loop_turn by assumption.
    destruct (turn_cases prog (run_loop fuel prog (Z.of_nat (length prog))) m)
      as (ins & Hins & Hcases); try lia.
    rewrite (drop_S _ _ _ Hins). simpl. unfold bind at 1.
    destruct Hcases as [(m1 & He & Ht)|(Hn & Ht)]; rewrite Ht.
    + rewrite He. unfold bind, get_ip, put_ip.
      pose proof (exec_keeps_ip ins m) as Hk. rewrite He in Hk. simpl in Hk.
      rewrite Hk. rewrite wrap_size_id by (unfold in_size; lia).
      rewrite IH; simpl; try lia.
      replace (Z.to_nat (ip (env m) + 1)) with (S (Z.to_nat (ip (env m))))
        by lia.
      reflexivity.
    + destruct (exec ins m) as [[[]| | |] m1]; simpl in *;
        try reflexivity. now elim Hn.
Qed.

Lemma exec_all_result (l : list instruction) (m : machine) :
  Z.of_nat (length l) + ip (env m) <= size_max ->
  0 <= ip (env m) ->
  fst (exec_all l m) <> OutOfFuel /\
  (fst (exec_all l m) = Ok tt ->
   ip (env (snd (exec_all l m))) = ip (env m) + Z.of_nat (length l)).
Proof.
  revert m. induction l as [|ins l IH]; intros m Hsz Hip; simpl.
  - split; [discriminate | intros _; lia].
  - unfold bind, get_ip, put_ip. pose proof (exec_keeps_ip ins m) as Hk.
    pose proof (exec_needs_no_fuel ins m) as Hf.
    destruct (exec ins m) as [[[]| | |] m1]; simpl in *;
      try (split; [discriminate | discriminate]); [|contradiction].
    rewrite Hk.
    rewrite wrap_size_id by (unfold in_size; lia).
    simpl in Hsz.
    destruct (IH (Machine (set_ip (ip (env m) + 1) (env m1)) (cells m1)))
      as [H1 H2]; simpl; try lia.
    split; [exact H1|]. intros Hok. rewrite (H2 Hok). simpl. lia.
Qed.

Lemma run_unfold (fuel : nat) (entry : Z) (m : machine) (prog : prog_type) :
  prog_p (env m) = Some prog ->
  run fuel entry m =
    run_loop fuel prog (Z.of_nat (length prog))
      (Machine (set_ip entry (env m)) (cells m)).
Proof.
  intros Hp. unfold run, bind, deref_prog, put_ip. now rewrite Hp.
Qed.

Lemma documented_run_unfold (fuel : nat) (entry : Z) (m : machine)
  (prog : prog_type) :
  prog_p (env m) = Some prog ->
  documented_run fuel entry m =
    documented_loop fuel prog (Z.of_nat (length prog))
      (Machine (set_ip entry (env m)) (cells m)).
Proof.
  intros Hp. unfold documented_run, bind, deref_prog, put_ip. now rewrite Hp.
Qed.

(** C5.  [run( entry )] sets the instruction pointer to [entry] and then
    repeats: test the instruction pointer against the size of the program,
    execute the instruction it denotes, increment it.  The test of the code
    is [ip != size]; for an entry point that is not beyond the end of the
    program it admits the same turns as the documented [ip < size]: the
    instructions from [entry] on are executed in order, each followed by
    the increment, and on success [run] returns with [ip = size]. *)
Theorem run_dispatch (fuel : nat) (entry : Z) (m : machine) (prog : prog_type) :
  prog_p (env m) = Some prog ->
  Z.of_nat (length prog) <= size_max ->
  0 <= entry <= Z.of_nat (length prog) ->
  run fuel entry m = documented_run fuel entry m /\
  (Z.of_nat (length prog) - entry < Z.of_nat fuel ->
   run fuel entry m =
     bind (put_ip entry) (fun _ => exec_all (drop (Z.to_nat entry) prog)) m /\
   fst (run fuel entry m) <> OutOfFuel /\
   (fst (run fuel entry m) = Ok tt ->
    ip (env (snd (run fuel entry m))) = Z.of_nat (length prog))).
Proof.
  intros Hp Hsz Hentry.
  rewrite (run_unfold fuel entry m prog Hp).
  rewrite (documented_run_unfold fuel entry m prog Hp).
  set (m0 := Machine (set_ip entry (env m)) (cells m)).
  split.
  - apply run_loop_documented; simpl; lia.
  - intros Hfuel.
    rewrite (run_loop_exec_all fuel prog m0) by (simpl; lia). simpl.
    split; [reflexivity|].
    assert (Hlen : Z.of_nat (length (drop (Z.to_nat entry) prog))
                   = Z.of_nat (length prog) - entry)
      by (rewrite length_drop; lia).
    destruct (exec_all_result (drop (Z.to_nat entry) prog) m0) as [H1 H2].
    + rewrite Hlen. simpl. lia.
    + simpl. lia.
    + split; [exact H1|]. intros Hok. rewrite (H2 Hok), Hlen. simpl. lia.
Qed.

(** ** The compiler *)

(** C6.  A name that is no function (looked up by name alone, and only when
    [count_args] is off), no variable and no constant: with
    [create_variables] on, a fresh cell with that name and the value [T()]
    is appended to the cells, the handle to it is appended to the variable
    table, and the instruction is a [load_var] of that handle; with
    [create_variables] off, compilation throws [unknown_token]. *)
Theorem compile_unresolved_name (count_args create_variables : bool)
  (s : string) (m : machine) :
  (count_args = false -> function_p (env m) s (-1) 0 = None) ->
  variable_p (env m) (cells m) s = Null ->
  constant_p (env m) (cells m) s = Null ->
  let h := length (cells m) in
  compile_token count_args create_variables (Some (name_token s)) m =
    (if create_variables
     then (Ok (load_var h),
           Machine (set_var_tab (var_tab (env m) ++ [h]) (env m))
                   (cells m ++ [Value s T_default]))
     else (Throw (unknown_token s), m)) /\
  cells m !! h = None /\
  (cells m ++ [Value s T_default]) !! h = Some (Value s T_default).
Proof.
  intros Hf Hv Hc h. split; [|split].
  - unfold compile_token.
    assert (Hfun : (if negb count_args then find_function s (-1) 0
                    else ret None) m = (Ok None, m)).
    { destruct count_args; simpl; [reflexivity|].
      unfold find_function. now rewrite Hf. }
    unfold bind at 1. rewrite Hfun.
    unfold bind at 1. unfold find_value at 1.
    unfold variable_p in Hv. rewrite Hv.
    unfold bind at 1. unfold find_value at 1.
    unfold constant_p in Hc. rewrite Hc.
    destruct create_variables; reflexivity.
  - apply lookup_ge_None_2. unfold h. lia.
  - unfold h. rewrite lookup_app_r by lia. now rewrite Nat.sub_diag.
Qed.

Lemma compiles_length (ca cv : bool) (m m' : machine) (ts : list TokenPtr)
  (inss : prog_type) :
  compiles ca cv m ts inss m' -> length inss = length ts.
Proof. induction 1; simpl; congruence. Qed.

Lemma compile_from_compiles (ca cv : bool) (ts : list TokenPtr) :
  forall (acc prog : prog_type) (m m' : machine),
    compile_from ca cv ts acc m = (Ok prog, m') ->
    exists inss, prog = acc ++ inss /\ compiles ca cv m ts inss m'.
Proof.
  induction ts as [|t ts IH]; intros acc prog m m' H; simpl in H.
  - injection H as <- <-. exists []. split; [now rewrite app_nil_r|].
    constructor.
  - unfold bind in H.
    destruct (compile_token ca cv t m) as [[ins| | |] m1] eqn:Ht;
      try discriminate.
    destruct (IH _ _ _ _ H) as (inss & -> & Hc).
    exists (ins :: inss). split; [now rewrite <- app_assoc|].
    econstructor; eassumption.
Qed.

(** C8.  When [compile] succeeds, the program has as many instructions as
    there are tokens: it holds one instruction for each token, in the order
    of the tokens. *)
Theorem compile_length (ca cv : bool) (tokens : list TokenPtr)
  (m m' : machine) (program : prog_type) :
  compile ca cv tokens m = (Ok program, m') ->
  length program = length tokens /\ compiles ca cv m tokens program m'.
Proof.
  intros H. destruct (compile_from_compiles ca cv tokens [] program m m' H)
    as (inss & -> & Hc).
  simpl. split; [eapply compiles_length; eassumption | assumption].
Qed.

(** ** Assignment to a variable *)

Lemma value_p_found (cs : list value) (tab : list handle) (s : string)
  (h : handle) :
  value_p cs tab s = Found h ->
  exists c, cs !! h = Some c /\ vname c = s.
Proof.
  induction tab as [|h0 tab IH]; simpl; [discriminate|].
  destruct (cs !! h0) as [c|] eqn:Hc; [|discriminate].
  destruct (String.eqb_spec (vname c) s) as [E|E].
  - intros [= <-]. now exists c.
  - exact IH.
Qed.

Lemma value_p_names (cs cs' : list value) (tab : list handle) (s : string) :
  map vname cs' = map vname cs -> value_p cs' tab s = value_p cs tab s.
Proof.
  intros Hn. induction tab as [|h0 tab IH]; simpl; [reflexivity|].
  assert (H : vname <$> cs' !! h0 = vname <$> cs !! h0).
  { rewrite <- !list_lookup_fmap. unfold fmap, list_fmap.
    change (map vname cs' !! h0 = map vname cs !! h0). now rewrite Hn. }
  destruct (cs' !! h0) as [c'|], (cs !! h0) as [c|]; simpl in H;
    try discriminate; [|reflexivity].
  injection H as ->. now rewrite IH.
Qed.

(** C1.  Let [x] be a variable of the environment, with cell [h], and let
    [=] with one left and one right value resolve to the scalar assignment.
    The tokens of [x = V], value first, compile to [load_val V],
    [load_var x], [call_fun =] without changing the environment; running
    that program from its first instruction, on any stack, succeeds with
    [V] in the cell of [x] and [V] on top of the stack, above the values
    that were there before. *)
Theorem assignment_correct (rt : rte) (cs : list value) (x : string)
  (h : handle) (V : T) :
  variable_p rt cs x = Found h ->
  function_p rt "=" 1 1 = Some scalar_assign ->
  (forall (text : string) (cv : bool),
     T_atof text = V ->
     compile true cv
       [Some (value_token text); Some (name_token x);
        Some (operator_token "=" 1 1 1)]
       (Machine rt cs) = (Ok (assignment V h), Machine rt cs)) /\
  (forall (vm : rte) (fuel : nat),
     (4 <= fuel)%nat ->
     let cs' := <[h := Value x V]> cs in
     bind (vm_prog (Some (assignment V h))) (fun _ => run fuel 0)
       (Machine vm cs) =
       (Ok tt,
        Machine (set_ip 3 (set_stack (V :: stack vm)
                             (set_prog_p (Some (assignment V h)) vm)))
                cs') /\
     cs' !! h = Some (Value x V) /\
     variable_p rt cs' x = Found h).
Proof.
  intros Hv Hf.
  destruct (value_p_found cs (var_tab rt) x h Hv) as (c & Hc & Hn).
  split.
  - intros text cv Ht. unfold compile. simpl.
    unfold bind, ret, find_function, find_value. simpl.
    unfold variable_p in Hv. rewrite Hv. simpl. rewrite Hf. simpl.
    now rewrite Ht.
  - intros vm fuel Hfuel cs'.
    assert (Hh : (h < length cs)%nat) by (eapply lookup_lt_Some; eassumption).
    split; [|split].
    + destruct fuel as [|[|[|[|fuel]]]]; try lia.
      destruct vm as [ft vt ct pp st es ipv].
      unfold bind at 1. unfold vm_prog. simpl.
      rewrite (run_unfold _ _ _ (assignment V h)) by reflexivity.
      rewrite run_loop_exec_all; simpl; try (unfold size_max; lia).
      unfold bind, get_ip, put_ip, push, read_cell, pop, top, write_cell,
        deref_prog, prog_at; simpl.
      rewrite Hc. simpl. rewrite Hc. subst cs'. rewrite Hn. reflexivity.
    + subst cs'. now apply list_lookup_insert_eq.
    + unfold variable_p. rewrite <- Hv. apply value_p_names.
      subst cs'. rewrite <- Hn. now apply map_vname_insert.
Qed.

End Properties.

(** * The tokeniser *)

Section TokeniserProperties.

Variable operators_ : list operator_type.

Lemma annotated_token_null (name : string) (values : list Z) :
  length values <> 1%nat -> length values <> 2%nat ->
  length values <> 3%nat ->
  annotated_token name values = None.
Proof.
  destruct values as [|a [|b [|c [|d values]]]]; simpl; intros H1 H2 H3;
    try reflexivity; congruence.
Qed.

(** C4.  With [count_args] on, a word whose annotation, from its first
    opening bracket to the closing bracket that follows, holds a number of
    integers other than one, two or three has no token: [create_token]
    returns a null pointer and, with [debug] off, [create_tokens] goes on to
    the next word with the token sequence as it was. *)
Theorem annotation_arity (s : string) (i c : nat) :
  let text := list_ascii_of_string s in
  let n := length (annotation_values (between text (S i) c)) in
  find_char "["%char text 0 = Some i ->
  find_char "]"%char text i = Some c ->
  n <> 1%nat -> n <> 2%nat -> n <> 3%nat ->
  create_token operators_ true s = Ok None /\
  forall tokens_ : list token,
    push_token operators_ true false s tokens_ = Ok tokens_.
Proof.
  intros text n Hi Hc H1 H2 H3.
  assert (H : create_token operators_ true s = Ok None).
  { unfold create_token. fold text. rewrite Hi, Hc.
    now rewrite annotated_token_null. }
  split; [exact H|]. intros tokens_. unfold push_token. now rewrite H.
Qed.

End TokeniserProperties.

(** * The properties at [double] *)

Section AtDouble.

Open Scope float_scope.

#[local] Instance double_sample : Numeric float := double atof_decimal.

Lemma float_list_neq_9_5 (l l' : list float) : 9 :: l <> 5 :: l'.
Proof.
  intros H.
  apply (f_equal (fun s => match s with
                           | x :: _ => PrimFloat.eqb x 5
                           | [] => false
                           end)) in H.
  vm_compute in H. discriminate.
Qed.

(** ** The default run-time environment *)

(** The default environment is generated, whatever the C library: its
    function table has 41 entries, the last of them the scalar assignment,
    its variables are [x], [y], [z], [w], and its stack is empty.  In it,
    [x] is the first cell, [=] with one value on each side is the scalar
    assignment and [+] with three values on each side is the lifted
    addition. *)
Lemma default_rte_generated (libm : cmath) :
  exists m0 : machine,
    generate_default_rte libm = Some m0 /\
    length (fun_tab (env m0)) = 41%nat /\
    map vname (cells m0) = ["x"; "y"; "z"; "w"; "e"; "log2e"; "Pi"]%string /\
    stack (env m0) = [] /\
    variable_p (env m0) (cells m0) "x" = Found 0%nat /\
    function_p (env m0) "=" 1 1 = Some scalar_assign /\
    function_p (env m0) "+" 3 3
      = Some (vector_op_apply 3 (function_binary add "+" 2 1 1)).
Proof. eexists. repeat split; reflexivity. Qed.

(** The RPN text of [(1,2,3) + (4,5,6)] and of [x = 2], as [to_rpn] leaves
    them, with the blanks that stand for the parentheses. *)
Lemma vector_sum_tokenised :
  create_tokens ops_array true false " 1 2 3 4 5 6 +[ 3 3 3 ] "
  = Ok [value_token "1"; value_token "2"; value_token "3"; value_token "4";
        value_token "5"; value_token "6"; operator_token "+" 3 3 3].
Proof. reflexivity. Qed.

Lemma assignment_tokenised :
  create_tokens ops_array true false " 2 x =[ 1 1 1 ] "
  = Ok [value_token "2"; name_token "x"; operator_token "=" 1 1 1].
Proof. reflexivity. Qed.

(** ** Vector addition *)

(** C2.  The tokens of [(1,2,3) + (4,5,6)] compile against the default
    run-time environment, with [count_args] on, to six [load_val] and the
    call of [+] lifted to three components; running that program on an
    empty stack leaves the sums in the layout of the operands, the last
    component on top: from top to bottom 9, 7, 5, that is 5, 7, 9 from
    bottom to top. *)
Theorem vector_addition (libm : cmath) (atof : string -> float) (fuel : nat) :
  atof "1"%string = 1 -> atof "2"%string = 2 -> atof "3"%string = 3 ->
  atof "4"%string = 4 -> atof "5"%string = 5 -> atof "6"%string = 6 ->
  (8 <= fuel)%nat ->
  exists (m0 m' : machine) (program : prog_type),
    generate_default_rte libm = Some m0 /\
    compile (num := double atof) true true vector_sum_tokens m0
      = (Ok program, m0) /\
    bind (vm_prog (Some program)) (fun _ => run (num := double atof) fuel 0%Z)
      m0 = (Ok tt, m') /\
    stack (env m') = [9; 7; 5] /\
    rev (stack (env m')) = [5; 7; 9].
Proof.
  intros H1 H2 H3 H4 H5 H6 Hfuel.
  do 8 (destruct fuel as [|fuel]; [lia|]).
  eexists. eexists. eexists.
  split; [reflexivity|].
  split; [vm_compute; reflexivity|].
  rewrite H1, H2, H3, H4, H5, H6.
  split; [vm_compute; reflexivity|].
  split; reflexivity.
Qed.

(** C2, as the design document has it: the stack is not 5, 7, 9 from top
    to bottom. *)
Lemma vector_addition_top_first :
  ~ exists (m0 m' : machine) (program : prog_type),
      generate_default_rte cmath_sample = Some m0 /\
      compile true true vector_sum_tokens m0 = (Ok program, m0) /\
      bind (vm_prog (Some program)) (fun _ => run 8 0%Z) m0 = (Ok tt, m') /\
      stack (env m') = [5; 7; 9].
Proof.
  intros (m0 & m' & program & H0 & Hc & Hr & Hs).
  vm_compute in H0. injection H0 as <-.
  vm_compute in Hc. injection Hc as <-.
  vm_compute in Hr. injection Hr as <-.
  simpl in Hs. exact (float_list_neq_9_5 _ _ Hs).
Qed.

Lemma vector_addition_witness :
  atof_decimal "1" = 1 /\ atof_decimal "6" = 6 /\
  exists (m' : machine) (program : prog_type),
    bind (vm_prog (Some program)) (fun _ => run 8 0%Z) default_machine
      = (Ok tt, m') /\
    stack (env m') = [9; 7; 5].
Proof.
  split; [reflexivity|]. split; [reflexivity|].
  destruct (vector_addition cmath_sample atof_decimal 8)
    as (m0 & m' & program & H0 & _ & Hr & Hs & _);
    [reflexivity | reflexivity | reflexivity | reflexivity | reflexivity
    | reflexivity | lia |].
  exists m', program. split; [|exact Hs].
  unfold default_machine. rewrite H0. exact Hr.
Defined.

(** ** Assignment *)

Lemma assignment_correct_witness :
  variable_p (env default_machine) (cells default_machine) "x" = Found 0%nat /\
  function_p (env default_machine) "=" 1 1 = Some scalar_assign /\
  compile true true
    [Some (value_token "2"); Some (name_token "x");
     Some (operator_token "=" 1 1 1)]
    default_machine
    = (Ok (assignment 2 0%nat), default_machine) /\
  fst (bind (vm_prog (Some (assignment 2 0%nat))) (fun _ => run 4 0%Z)
         default_machine) = Ok tt.
Proof.
  split; [reflexivity|]. split; [reflexivity|].
  destruct (assignment_correct (env default_machine) (cells default_machine)
              "x" 0%nat 2 eq_refl eq_refl) as [Hc Hr].
  split.
  - apply (Hc "2"%string true). reflexivity.
  - destruct (Hr (env default_machine) 4%nat) as (Hrun & _); [lia|].
    change (Machine (env default_machine) (cells default_machine))
      with default_machine in Hrun.
    now rewrite Hrun.
Defined.

(** C3, as the design document has it: a vector assignment of arity two
    on a stack of two values, preceded by a literal, does not fail with
    [invalid_assign]; it removes the two values, inspects no instruction
    and pushes array elements that were never written. *)
Lemma vector_assign_short_stack :
  two_literals !! Z.to_nat (ip (env after_two_literals) - 1)
    = Some (load_val 2) /\
  fst (call (vector_assign 2) after_two_literals) = Undefined uninitialised /\
  fst (call (vector_assign 2) after_two_literals) <> Throw invalid_assign /\
  fst (bind (vm_prog (Some two_literals)) (fun _ => run 4 0%Z)
         (Machine (rte_new [] [] []) []))
    = Undefined uninitialised.
Proof.
  split; [reflexivity|]. split; [reflexivity|]. split; [|reflexivity].
  vm_compute. discriminate.
Qed.

Lemma assign_invalid_witness :
  fst (call scalar_assign after_literals) = Throw invalid_assign /\
  fst (call (vector_assign 2) after_literals) = Throw invalid_assign.
Proof.
  destruct (assign_invalid after_literals
              [load_val 1; load_val 2; load_val 3; load_val 4;
               call_fun (vector_assign 2)]
              (load_val 4) eq_refl eq_refl) as [Hs Hv].
  split.
  - apply Hs; [reflexivity | discriminate].
  - apply (Hv 2%nat 0%nat); simpl; try lia; try reflexivity.
    + unfold size_max. lia.
    + intros [|[|[|[|[|n]]]]] h H; discriminate.
Defined.

Lemma scalar_assign_not_atomic_witness :
  stack (env after_literals) = [4; 3; 2; 1] /\
  exists m' : machine,
    call scalar_assign after_literals = (Throw invalid_assign, m') /\
    stack (env m') = [3; 2; 1].
Proof.
  split; [reflexivity|]. eexists. split; [reflexivity|].
  apply (scalar_assign_not_atomic after_literals _ 4 [3; 2; 1]);
    reflexivity.
Defined.

(** ** The virtual machine *)

(** C5, as the design document has it: on an entry point beyond the end
    of the program the loop of the code does not stop, it fetches an
    instruction that the program does not have, whereas the documented loop
    returns at once. *)
Lemma run_beyond_end :
  fst (run 1 1%Z no_program) = Undefined out_of_range /\
  fst (documented_run 1 1%Z no_program) = Ok tt /\
  run 1 1%Z no_program <> documented_run 1 1%Z no_program.
Proof.
  split; [reflexivity|]. split; [reflexivity|].
  intros H. apply (f_equal fst) in H. vm_compute in H. discriminate.
Qed.

Lemma run_dispatch_witness :
  run 4 0%Z (Machine (set_prog_p (Some (assignment 2 0%nat)) sample_rte)
               sample_cells)
  = documented_run 4 0%Z
      (Machine (set_prog_p (Some (assignment 2 0%nat)) sample_rte)
         sample_cells).
Proof.
  apply (proj1 (run_dispatch 4 0%Z
                  (Machine (set_prog_p (Some (assignment 2 0%nat)) sample_rte)
                     sample_cells)
                  (assignment 2 0%nat) eq_refl
                  ltac:(unfold size_max; simpl; lia) ltac:(simpl; lia))).
Defined.

(** ** The compiler *)

Lemma compile_unresolved_name_witness :
  compile_token true true (Some (name_token "t"))
    (Machine sample_rte sample_cells)
  = (Ok (load_var 1%nat),
     Machine (set_var_tab [0%nat; 1%nat] sample_rte)
       [Value "x" 0; Value "t" 0]).
Proof.
  apply (proj1 (compile_unresolved_name true true "t"
                  (Machine sample_rte sample_cells)
                  ltac:(discriminate) eq_refl eq_refl)).
Defined.

Lemma compile_length_witness :
  compile true true
    [Some (value_token "2"); Some (name_token "x");
     Some (operator_token "=" 1 1 1)]
    (Machine sample_rte sample_cells)
  = (Ok (assignment 2 0%nat), Machine sample_rte sample_cells) /\
  length (assignment 2 0%nat) = 3%nat.
Proof.
  split; [reflexivity|].
  apply (proj1 (compile_length (num := double_sample) true true
                  [Some (value_token "2"); Some (name_token "x");
                   Some (operator_token "=" 1 1 1)]
                  (Machine sample_rte sample_cells)
                  (Machine sample_rte sample_cells)
                  (assignment 2 0%nat) ltac:(vm_compute; reflexivity))).
Defined.

Lemma function_arity_witness :
  values_in (base (function_binary add "+" 2 1 1)) = (1 + 1)%Z /\
  values_in (base (vector_op_apply 3 (function_binary add "+" 2 1 1)))
    = (3 + 3)%Z.
Proof.
  destruct (function_arity (T := float)) as (_ & H & _). split.
  - apply (H (function_binary add "+" 2 1 1)).
    + unfold ints_ok, in_int, int_min, int_max. lia.
    + unfold in_int, int_min, int_max. simpl. lia.
  - apply (H (vector_op_apply 3 (function_binary add "+" 2 1 1))).
    + unfold ints_ok, in_int, int_min, int_max. lia.
    + vm_compute. split; discriminate.
Defined.

(** ** The tokeniser *)

(** C4, as the design document has it: the words [f[]] and [f[1 2 3 4]]
    leave no token behind, unknown or other. *)
Lemma annotation_arity_no_unknown :
  create_tokens ops_array true false "f[] " = Ok [] /\
  create_tokens ops_array true false "1 f[1 2 3 4] 2 "
    = Ok [value_token "1"; value_token "2"] /\
  ~ (exists toks str,
       create_tokens ops_array true false "1 f[1 2 3 4] 2 " = Ok toks /\
       In (unknown_tok str) toks).
Proof.
  split; [reflexivity|]. split; [reflexivity|].
  intros (toks & str & H & Hin). vm_compute in H. injection H as <-.
  destruct Hin as [H|[H|[]]]; discriminate.
Qed.

Lemma annotation_arity_witness :
  create_token ops_array true "f[]" = Ok None.
Proof.
  apply (proj1 (annotation_arity ops_array "f[]" 1%nat 2%nat
                  eq_refl eq_refl ltac:(discriminate) ltac:(discriminate)
                  ltac:(discriminate))).
Defined.

End AtDouble.

(** * Further properties of the code *)

Section MoreProperties.

Context {T : Type} {num : Numeric T}.

#[local] Abbreviation function_obj := (@function_obj T).
#[local] Abbreviation machine := (@machine T).
#[local] Abbreviation M := (@M T).
#[local] Abbreviation instruction := (@instruction T).
#[local] Abbreviation prog_type := (@prog_type T).
#[local] Abbreviation rte := (@rte T).
#[local] Abbreviation value := (@value T).
#[local] Abbreviation array := (@array T).
#[local] Abbreviation framed c := (@framed T _ c).

(** ** The tables of values *)

(** X1.  [variable_p] and [constant_p] return the first handle of the
    table whose cell has the name asked for: every handle before it points
    to a cell with another name.  They return null only when every handle
    of the table points to a cell with another name, and they read through
    a null handle only when one comes before any cell with that name. *)
Theorem value_p_first (cs : list value) (tab : list handle) (s : string) :
  match value_p cs tab s with
  | Found h =>
      exists pre post c,
        tab = pre ++ h :: post /\ cs !! h = Some c /\ vname c = s /\
        forall h', In h' pre -> exists c', cs !! h' = Some c' /\ vname c' <> s
  | Null =>
      forall h, In h tab -> exists c, cs !! h = Some c /\ vname c <> s
  | BadHandle =>
      exists pre h post,
        tab = pre ++ h :: post /\ cs !! h = None /\
        forall h', In h' pre -> exists c', cs !! h' = Some c' /\ vname c' <> s
  end.
Proof.
  induction tab as [|h0 tab IH]; simpl.
  - intros h [].
  - destruct (cs !! h0) as [c0|] eqn:Hc0.
    + destruct (String.eqb_spec (vname c0) s) as [E|E].
      * exists [], tab, c0. repeat split; try assumption. intros h' [].
      * destruct (value_p cs tab s) as [h| |].
        -- destruct IH as (pre & post & c & -> & Hc & Hn & Hpre).
           exists (h0 :: pre), post, c. repeat split; try assumption.
           intros h' [<-|Hin]; [now exists c0 | now apply Hpre].
        -- intros h [<-|Hin]; [now exists c0 | now apply IH].
        -- destruct IH as (pre & h & post & -> & Hc & Hpre).
           exists (h0 :: pre), h, post. repeat split; try assumption.
           intros h' [<-|Hin]; [now exists c0 | now apply Hpre].
    + exists [], h0, tab. repeat split; try assumption. intros h' [].
Qed.

(** ** What a run leaves alone *)

Lemma tables_kept_refl (m : machine) : tables_kept m m.
Proof. repeat split. Qed.

Lemma tables_kept_trans (m1 m2 m3 : machine) :
  tables_kept m1 m2 -> tables_kept m2 m3 -> tables_kept m1 m3.
Proof.
  unfold tables_kept. intros (?&?&?&?&?&?) (?&?&?&?&?&?).
  repeat split; congruence.
Qed.

Lemma frame_tables_kept (m m' : machine) : frame m m' -> tables_kept m m'.
Proof. unfold frame, tables_kept. tauto. Qed.

Lemma run_loop_tables_kept (fuel : nat) (prog : prog_type) (end_ : Z)
  (m : machine) :
  tables_kept m (snd (run_loop fuel prog end_ m)).
Proof.
  revert m. induction fuel as [|fuel IH]; intros m; simpl.
  - apply tables_kept_refl.
  - unfold bind at 1. unfold get_ip at 1.
    destruct (negb (ip (env m) =? end_)); [|apply tables_kept_refl].
    unfold bind at 1. unfold prog_at.
    destruct (ip (env m) <? 0); [apply tables_kept_refl|].
    destruct (prog !! Z.to_nat (ip (env m))) as [ins|];
      [|apply tables_kept_refl].
    unfold bind at 1.
    pose proof (proj1 (framed_exec ins m)) as Hf.
    destruct (exec ins m) as [[[]| | |] m1]; simpl in *;
      try (now apply frame_tables_kept).
    unfold bind, get_ip, put_ip.
    eapply tables_kept_trans; [|apply IH].
    apply frame_tables_kept in Hf. unfold tables_kept in *. simpl. tauto.
Qed.

(** X2.  Whatever the program, the entry point and the outcome, [run]
    leaves the three tables, the program, the stack of procedure calls and
    the names of the cells as they were: the function objects of the
    default environment change nothing but the value stack, the instruction
    pointer and the values of the cells. *)
Theorem run_keeps_tables (fuel : nat) (entry : Z) (m : machine) :
  tables_kept m (snd (run fuel entry m)).
Proof.
  unfold run. unfold bind at 1. unfold deref_prog.
  destruct (prog_p (env m)) as [prog|]; [|apply tables_kept_refl].
  unfold bind, put_ip.
  eapply tables_kept_trans; [|apply run_loop_tables_kept].
  repeat split.
Qed.

(** ** The virtual machine *)

Lemma exec_all_cons_ok (ins : instruction) (l : list instruction)
  (m mk : machine) :
  exec_all (ins :: l) m = (Ok tt, mk) ->
  exists m1,
    exec ins m = (Ok tt, m1) /\
    exec_all l (Machine (set_ip (wrap_size (ip (env m1) + 1)) (env m1))
                  (cells m1)) = (Ok tt, mk).
Proof.
  simpl. unfold bind at 1.
  destruct (exec ins m) as [[[]| | |] m1]; try discriminate.
  unfold bind, get_ip, put_ip. intros H. now exists m1.
Qed.

Lemma run_loop_failure (prog : prog_type) (k : nat) :
  Z.of_nat (length prog) <= size_max ->
  forall (fuel : nat) (m mk : machine) (ins : instruction),
    0 <= ip (env m) ->
    exec_all (take k (drop (Z.to_nat (ip (env m))) prog)) m = (Ok tt, mk) ->
    prog !! (Z.to_nat (ip (env m)) + k)%nat = Some ins ->
    fst (exec ins mk) <> Ok tt ->
    (k < fuel)%nat ->
    run_loop fuel prog (Z.of_nat (length prog)) m = exec ins mk /\
    ip (env mk) = ip (env m) + Z.of_nat k.
Proof.
  intros Hsz. induction k as [|k IH];
    intros fuel m mk ins Hip Hall Hins Hf Hfuel;
    (destruct fuel as [|fuel]; [lia|]).
  - rewrite take_0 in Hall. injection Hall as <-.
    rewrite Nat.add_0_r in Hins.
    assert (Hlt : ip (env m) < Z.of_nat (length prog)).
    { apply lookup_lt_Some in Hins. lia. }
    rewrite run_loop_turn by lia.
    destruct (turn_cases prog (run_loop fuel prog (Z.of_nat (length prog))) m)
      as (ins' & Hins' & [(m1 & He & _)|(_ & Ht)]); try lia;
      rewrite Hins in Hins'; injection Hins' as <-.
    + rewrite He in Hf. now elim Hf.
    + split; [exact Ht | lia].
  - assert (Hlt : ip (env m) + Z.of_nat (S k) < Z.of_nat (length prog)).
    { apply lookup_lt_Some in Hins. lia. }
    destruct (prog !! Z.to_nat (ip (env m))) as [ins0|] eqn:Hins0;
      [|apply lookup_ge_None_1 in Hins0; lia].
    rewrite (drop_S _ _ _ Hins0) in Hall. rewrite firstn_cons in Hall.
    destruct (exec_all_cons_ok _ _ _ _ Hall) as (m1 & He & Hall').
    pose proof (exec_keeps_ip ins0 m) as Hk. rewrite He in Hk. simpl in Hk.
    rewrite Hk in Hall'.
    rewrite wrap_size_id in Hall' by (unfold in_size; lia).
    rewrite run_loop_turn by lia.
    destruct (turn_cases prog (run_loop fuel prog (Z.of_nat (length prog))) m)
      as (ins' & Hins' & [(m1' & He' & Ht)|(Hn & _)]); try lia;
      rewrite Hins0 in Hins'; injection Hins' as <-.
    + rewrite He in He'. injection He' as <-. rewrite Ht.
      destruct (IH fuel (Machine (set_ip (ip (env m) + 1) (env m1)) (cells m1))
                  mk ins) as [H1 H2]; simpl; try lia; try assumption.
      * replace (Z.to_nat (ip (env m) + 1)) with (S (Z.to_nat (ip (env m))))
          by lia. exact Hall'.
      * replace (Z.to_nat (ip (env m) + 1) + k)%nat
          with (Z.to_nat (ip (env m)) + S k)%nat by lia. exact Hins.
      * split; [exact H1 | simpl in H2; lia].
    + rewrite He in Hn. now elim Hn.
Qed.



(** ** The function objects on vectors *)

Lemma array_set_next (done : list T) (x : T) (r : array) :
  array_set (map Some done ++ None :: r) (length done) x
  = map Some (done ++ [x]) ++ r.
Proof.
  unfold array_set. induction done as [|d done IH]; simpl.
  - reflexivity.
  - f_equal. exact IH.
Qed.

Lemma array_get_next (pre : list T) (x : T) (post : list T) (m : machine) :
  array_get (map Some (pre ++ x :: post)) (length pre) m = (Ok x, m).
Proof.
  unfold array_get.
  replace (map Some (pre ++ x :: post) !! length pre) with (Some (Some x)).
  - reflexivity.
  - symmetry. rewrite map_app. simpl.
    induction pre as [|p pre IH]; simpl; [reflexivity | exact IH].
Qed.

Lemma lookup_map_Some (l : list T) (k : nat) (x : T) :
  l !! k = Some x -> map Some l !! k = Some (Some x).
Proof.
  revert k. induction l as [|y l IH]; intros [|k] H; simpl in *;
    try discriminate.
  - now injection H as ->.
  - now apply IH.
Qed.

Lemma take_loop (k : nat) :
  forall (done xs rest : list T) (m : machine),
    length xs = k ->
    stack (env m) = xs ++ rest ->
    for_up k (length done) (ret true) take_top
      (map Some done ++ replicate k None) m
    = (Ok (map Some (done ++ xs)),
       Machine (set_stack rest (env m)) (cells m)).
Proof.
  induction k as [|k IH];
    intros done [|x xs] rest [[ft vt ct pp st es ipv] cs] Hlen Hst;
    simpl in *; try discriminate; subst st.
  - now rewrite !app_nil_r.
  - unfold bind, ret, take_top, top, pop. simpl.
    rewrite array_set_next.
    replace (S (length done)) with (length (done ++ [x]))
      by (rewrite length_app; simpl; lia).
    rewrite (IH (done ++ [x]) xs rest); simpl; try reflexivity; try lia.
    now rewrite <- app_assoc.
Qed.

Lemma bind_ok {A B} (c : M A) (k : A -> M B) (m m' : machine) (a : A) :
  c m = (Ok a, m') -> bind c k m = k a m'.
Proof. intros H. unfold bind. now rewrite H. Qed.

Lemma push_component_ok (l : list T) (k : nat) (x : T) (m : machine) :
  l !! k = Some x ->
  push_component (map Some l) k m
  = (Ok tt, Machine (set_stack (x :: stack (env m)) (env m)) (cells m)).
Proof.
  intros Hx. apply list_elem_of_split_length in Hx as (pre & post & -> & ->).
  unfold push_component.
  now rewrite (bind_ok _ _ _ _ _ (array_get_next _ _ _ _)).
Qed.

Lemma push_loop (l : list T) (k : nat) :
  forall m : machine,
    (k <= length l)%nat ->
    for_down k (push_component (map Some l)) m
    = (Ok tt,
       Machine (set_stack (take k l ++ stack (env m)) (env m)) (cells m)).
Proof.
  induction k as [|k IH]; intros [[ft vt ct pp st es ipv] cs] Hk; simpl.
  - reflexivity.
  - destruct (l !! k) as [x|] eqn:Hx; [|apply lookup_ge_None_1 in Hx; lia].
    erewrite bind_ok by (apply push_component_ok; exact Hx).
    rewrite IH by lia. simpl.
    rewrite (take_S_r l k x Hx). now rewrite <- app_assoc.
Qed.

Lemma apply_component_ok (f : T -> T -> T) n vi vo li
  (pa : list T) (x : T) (qa : list T) (pb : list T) (y : T) (qb : list T)
  (out : array) (m : machine) :
  length pa = length pb ->
  apply_component (call (function_binary f n vi vo li))
    (map Some (pa ++ x :: qa)) (map Some (pb ++ y :: qb)) (length pa) out m
  = (Ok (array_set out (length pa) (f x y)), m).
Proof.
  intros Hl. unfold apply_component.
  rewrite (bind_ok _ _ _ _ _ (array_get_next pa x qa _)).
  rewrite (bind_ok (push x) _ m _ tt eq_refl).
  rewrite Hl.
  rewrite (bind_ok _ _ _ _ _ (array_get_next pb y qb _)).
  destruct m as [[ft vt ct pp st es ipv] cs]. reflexivity.
Qed.

Lemma apply_loop (f : T -> T -> T) n vi vo li (k : nat) :
  forall (done pa qa pb qb : list T) (m : machine),
    length pa = length done -> length pb = length done ->
    length qa = k -> length qb = k ->
    for_up k (length done) (ret true)
      (apply_component (call (function_binary f n vi vo li))
         (map Some (pa ++ qa)) (map Some (pb ++ qb)))
      (map Some done ++ replicate k None) m
    = (Ok (map Some (done ++ zip_with f qa qb)), m).
Proof.
  induction k as [|k IH]; intros done pa qa pb qb m Ha Hb Hqa Hqb.
  - destruct qa; [|discriminate]. destruct qb; [|discriminate].
    simpl. now rewrite !app_nil_r.
  - destruct qa as [|x qa]; [discriminate|].
    destruct qb as [|y qb]; [discriminate|].
    simpl for_up.
    rewrite (bind_ok (ret true) _ m m true eq_refl). cbv beta iota.
    rewrite <- Ha.
    rewrite (bind_ok _ _ _ _ _
               (apply_component_ok f n vi vo li pa x qa pb y qb _ m
                  ltac:(lia))).
    rewrite Ha. simpl replicate. rewrite array_set_next.
    replace (S (length done)) with (length (done ++ [f x y]))
      by (rewrite length_app; simpl; lia).
    replace (pa ++ x :: qa) with ((pa ++ [x]) ++ qa)
      by now rewrite <- app_assoc.
    replace (pb ++ y :: qb) with ((pb ++ [y]) ++ qb)
      by now rewrite <- app_assoc.
    simpl in Hqa, Hqb.
    rewrite IH; try (rewrite ?length_app; simpl; lia).
    simpl. now rewrite <- app_assoc.
Qed.

(** X4.  [vector_op_apply< T, N >] of a binary function [f], for every
    [N]: with the [N] components of the right operand on top of the [N]
    components of the left one, each block with its first element on top,
    the call replaces the two blocks by the one block of the values
    [f a_i b_i], in the same layout, and touches nothing else. *)
Theorem vector_op_apply_lifts (f : T -> T -> T) n vi vo li (N : nat)
  (a b s : list T) (m : machine) :
  length a = N -> length b = N ->
  stack (env m) = b ++ a ++ s ->
  call (vector_op_apply N (function_binary f n vi vo li)) m
  = (Ok tt, Machine (set_stack (zip_with f a b ++ s) (env m)) (cells m)).
Proof.
  intros Ha Hb Hst. simpl call. unfold array_new.
  rewrite (bind_ok _ _ _ _ _ (take_loop N [] b (a ++ s) m Hb Hst)).
  rewrite (bind_ok _ _ _ _ _
             (take_loop N [] a s
                (Machine (set_stack (a ++ s) (env m)) (cells m))
                Ha eq_refl)).
  simpl app.
  rewrite (bind_ok _ _ _ _ _
             (apply_loop f n vi vo li N [] [] a [] b _
                eq_refl eq_refl Ha Hb)).
  simpl app. rewrite push_loop.
  - simpl. rewrite firstn_all2; [reflexivity|].
    rewrite length_zip_with. lia.
  - rewrite length_zip_with. lia.
Qed.

Lemma store_length (h : handle) (x : T) (cs : list value) :
  length (store h x cs) = length cs.
Proof.
  unfold store. destruct (cs !! h); [apply length_insert | reflexivity].
Qed.

Lemma store_all_length (l : list (handle * T)) :
  forall cs : list value, length (store_all l cs) = length cs.
Proof.
  unfold store_all. induction l as [|hx l IH]; intros cs; simpl.
  - reflexivity.
  - now rewrite IH, store_length.
Qed.

Lemma write_cell_store (h : handle) (x : T) (m : machine) :
  (h < length (cells m))%nat ->
  write_cell h x m = (Ok tt, Machine (env m) (store h x (cells m))).
Proof.
  intros Hh. unfold write_cell, store.
  destruct (cells m !! h) eqn:E; [reflexivity|].
  apply lookup_ge_None_1 in E. lia.
Qed.

Lemma pops_loop (k : nat) :
  forall (xs rest : list T) (m : machine),
    length xs = k ->
    stack (env m) = xs ++ rest ->
    for_up k 0 not_empty (fun _ _ => pop) tt m
    = (Ok tt, Machine (set_stack rest (env m)) (cells m)).
Proof.
  generalize 0%nat as i.
  induction k as [|k IH];
    intros i [|x xs] rest [[ft vt ct pp st es ipv] cs] Hlen Hst;
    simpl in *; try discriminate; subst st.
  - reflexivity.
  - unfold bind, not_empty, empty, ret, pop, bind. simpl.
    rewrite (IH _ xs rest); simpl; try reflexivity; lia.
Qed.

Lemma assign_component_ok (prog : prog_type) (i : nat) (h : handle)
  (x : T) (st : list T) (v : array) (m : machine) :
  prog !! Z.to_nat (ip (env m) - (1 + Z.of_nat i)) = Some (load_var h) ->
  in_size (ip (env m) - (1 + Z.of_nat i)) ->
  (h < length (cells m))%nat ->
  stack (env m) = x :: st ->
  assign_component prog i v m
  = (Ok (array_set v i x),
     Machine (set_stack st (env m)) (store h x (cells m))).
Proof.
  intros Hp Hin Hh Hst. unfold assign_component.
  rewrite (bind_ok get_ip _ m m _ eq_refl).
  rewrite (bind_ok (prog_at prog _) _ m m (load_var h)).
  2:{ unfold prog_at. rewrite (wrap_size_id _ Hin).
      destruct Hin as [H0 _]. apply Z.ltb_ge in H0. rewrite H0.
      destruct (prog !! _); [now injection Hp as -> | discriminate]. }
  destruct m as [[ft vt ct pp st0 es ipv] cs]. simpl in *. subst st0.
  unfold bind, top, pop. simpl.
  rewrite write_cell_store by exact Hh. reflexivity.
Qed.

Lemma assign_loop (prog : prog_type) (k : nat) :
  forall (done : list T) (hd hs : list handle) (xs rest : list T)
         (m : machine),
    length hd = length done -> length hs = k -> length xs = k ->
    stack (env m) = xs ++ rest ->
    (forall i h, (hd ++ hs) !! i = Some h ->
       prog !! Z.to_nat (ip (env m) - (1 + Z.of_nat i)) = Some (load_var h)
       /\ in_size (ip (env m) - (1 + Z.of_nat i))
       /\ (h < length (cells m))%nat) ->
    for_up k (length done) not_empty (assign_component prog)
      (map Some done ++ replicate k None) m
    = (Ok (map Some (done ++ xs)),
       Machine (set_stack rest (env m)) (store_all (zip hs xs) (cells m))).
Proof.
  induction k as [|k IH];
    intros done hd [|h hs] [|x xs] rest m Hd Hhs Hxs Hst Hp;
    simpl in Hhs, Hxs; try discriminate.
  - simpl. rewrite !app_nil_r. simpl in Hst.
    destruct m as [[ft vt ct pp st es ipv] cs]. simpl in *. now subst st.
  - simpl for_up.
    rewrite (bind_ok not_empty _ m m true).
    2:{ unfold not_empty, bind, empty, ret. now rewrite Hst. }
    cbv beta iota.
    destruct (Hp (length done) h) as (Hpi & Hin & Hh).
    { rewrite <- Hd. now rewrite list_lookup_middle. }
    rewrite (bind_ok _ _ _ _ _
               (assign_component_ok prog _ h x (xs ++ rest) _ m
                  Hpi Hin Hh Hst)).
    simpl replicate. rewrite array_set_next.
    replace (S (length done)) with (length (done ++ [x]))
      by (rewrite length_app; simpl; lia).
    rewrite (IH (done ++ [x]) (hd ++ [h]) hs xs rest);
      try (rewrite ?length_app; simpl; lia); try reflexivity.
    + simpl. now rewrite <- app_assoc.
    + simpl. intros i h' Hi. rewrite <- app_assoc in Hi. simpl in Hi.
      rewrite store_length. exact (Hp i h' Hi).
Qed.

Lemma store_lookup_ne (h h' : handle) (x : T) (cs : list value) :
  h <> h' -> store h x cs !! h' = cs !! h'.
Proof.
  intros Hne. unfold store. destruct (cs !! h); [|reflexivity].
  now apply list_lookup_insert_ne.
Qed.

Lemma store_lookup_eq (h : handle) (x : T) (cs : list value) (c : value) :
  cs !! h = Some c -> store h x cs !! h = Some (Value (vname c) x).
Proof.
  intros Hc. unfold store. rewrite Hc.
  apply list_lookup_insert_eq. now apply lookup_lt_Some in Hc.
Qed.

Lemma store_all_lookup_other (hs : list handle) (h : handle) :
  forall (xs : list T) (cs : list value),
    ~ In h hs -> store_all (zip hs xs) cs !! h = cs !! h.
Proof.
  unfold store_all.
  induction hs as [|h0 hs IH]; intros [|x xs] cs Hn; simpl; try reflexivity.
  rewrite IH by (intros Hi; apply Hn; now right).
  apply store_lookup_ne. intros ->. apply Hn. now left.
Qed.

Lemma store_all_lookup (hs : list handle) :
  forall (xs : list T) (cs : list value) (i : nat) (h : handle) (x : T),
    NoDup hs ->
    (forall h, In h hs -> (h < length cs)%nat) ->
    hs !! i = Some h -> xs !! i = Some x ->
    exists c, cs !! h = Some c
      /\ store_all (zip hs xs) cs !! h = Some (Value (vname c) x).
Proof.
  induction hs as [|h0 hs IH]; intros [|x0 xs] cs [|i] h x Hnd Hlt Hh Hx;
    simpl in Hh, Hx; try discriminate.
  - injection Hh as ->. injection Hx as ->.
    apply NoDup_cons in Hnd as [Hn _].
    destruct (cs !! h) as [c|] eqn:Hc.
    2:{ apply lookup_ge_None_1 in Hc.
        specialize (Hlt h (or_introl eq_refl)). lia. }
    exists c. split; [reflexivity|].
    change (store_all (zip (h :: hs) (x :: xs)) cs)
      with (store_all (zip hs xs) (store h x cs)).
    rewrite store_all_lookup_other.
    + now apply store_lookup_eq.
    + intros Hi. apply Hn. now apply list_elem_of_In.
  - apply NoDup_cons in Hnd as [Hn Hnd].
    change (store_all (zip (h0 :: hs) (x0 :: xs)) cs)
      with (store_all (zip hs xs) (store h0 x0 cs)).
    destruct (IH xs (store h0 x0 cs) i h x Hnd) as (c & Hc & Hs); auto.
    + intros h' Hi. rewrite store_length. apply Hlt. now right.
    + rewrite store_lookup_ne in Hc.
      * exists c. now split.
      * intros ->. apply Hn.
        apply (list_elem_of_lookup_2 _ i). exact Hh.
Qed.

(** X5.  [vector_assign< T, N >] when the stack is deep enough: with the
    [N] values loaded from the variables on top of the [N] values to
    assign, and with a [load_var] at each of the [N] places before the
    current instruction, the call removes the upper block, stores the
    [i]-th value from the top into the variable loaded [1 + i] places
    back, and leaves the values on the stack.  When the variables are
    distinct, each holds its value afterwards and keeps its name. *)
Theorem vector_assign_assigns (N : nat) (hs : list handle)
  (vars vals s : list T) (prog : prog_type) (m : machine) :
  prog_p (env m) = Some prog ->
  length vars = N -> length vals = N -> length hs = N ->
  stack (env m) = vars ++ vals ++ s ->
  (forall i h, hs !! i = Some h ->
     prog !! Z.to_nat (ip (env m) - (1 + Z.of_nat i)) = Some (load_var h)
     /\ in_size (ip (env m) - (1 + Z.of_nat i))
     /\ (h < length (cells m))%nat) ->
  call (vector_assign N) m
  = (Ok tt, Machine (set_stack (vals ++ s) (env m))
              (store_all (zip hs vals) (cells m)))
  /\ (NoDup hs ->
      forall i h x, hs !! i = Some h -> vals !! i = Some x ->
        exists c, cells m !! h = Some c
          /\ store_all (zip hs vals) (cells m) !! h
             = Some (Value (vname c) x)).
Proof.
  intros Hprog Hvars Hvals Hhs Hst Hp. split.
  - simpl call. unfold array_new.
    rewrite (bind_ok deref_prog _ m m prog)
      by (unfold deref_prog; now rewrite Hprog).
    rewrite (bind_ok empty _ m m _ eq_refl).
    assert (Hpop :
      (if match stack (env m) with [] => true | _ => false end
       then ret tt
       else for_up N 0 not_empty (fun _ _ => pop) tt) m
      = (Ok tt, Machine (set_stack (vals ++ s) (env m)) (cells m))).
    { destruct (stack (env m)) as [|y st] eqn:E.
      - destruct vars; [|discriminate]. destruct vals; [|discriminate].
        simpl in Hst. subst s. destruct m as [[ft vt ct pp st es ipv] cs].
        simpl in *. now subst st.
      - rewrite <- E in Hst. rewrite (pops_loop N vars (vals ++ s) m Hvars Hst).
        reflexivity. }
    rewrite (bind_ok _ _ _ _ _ Hpop).
    rewrite (bind_ok _ _ _ _ _
               (assign_loop prog N [] [] hs vals s
                  (Machine (set_stack (vals ++ s) (env m)) (cells m))
                  eq_refl Hhs Hvals eq_refl Hp)).
    simpl app. rewrite push_loop by lia.
    simpl. rewrite firstn_all2 by lia. reflexivity.
  - intros Hnd i h x Hh Hx.
    apply (store_all_lookup hs vals (cells m) i h x Hnd); auto.
    intros h' Hi. apply list_elem_of_In, list_elem_of_lookup_1 in Hi as [j Hj].
    now destruct (Hp j h' Hj) as (_ & _ & Hlt).
Qed.


(** ** Declared arity and effect on the stack *)

Lemma bind_inv {A B} (c : M A) (k : A -> M B) (m m' : machine) (b : B) :
  bind c k m = (Ok b, m') ->
  exists a m1, c m = (Ok a, m1) /\ k a m1 = (Ok b, m').
Proof.
  unfold bind. destruct (c m) as [[a| | |] m1]; try discriminate.
  intros H. now exists a, m1.
Qed.

Lemma top_inv (m m' : machine) (x : T) :
  top m = (Ok x, m') -> m' = m /\ exists s, stack (env m) = x :: s.
Proof.
  unfold top. destruct (stack (env m)) as [|y s]; [discriminate|].
  intros [= -> <-]. split; [reflexivity | now exists s].
Qed.

Lemma pop_inv (m m' : machine) :
  pop m = (Ok tt, m') ->
  length (stack (env m)) = S (length (stack (env m'))) /\
  cells m' = cells m /\ ip (env m') = ip (env m).
Proof.
  unfold pop. destruct (stack (env m)) as [|y s]; [discriminate|].
  intros [= <-]. now simpl.
Qed.

Lemma write_cell_stack (h : handle) (x : T) (m m' : machine) (r : result unit) :
  write_cell h x m = (r, m') -> stack (env m') = stack (env m).
Proof.
  unfold write_cell. destruct (cells m !! h); now intros [= _ <-].
Qed.

Lemma assign_component_length (prog : prog_type) (i : nat) (v v' : array)
  (m m' : machine) :
  assign_component prog i v m = (Ok v', m') ->
  length (stack (env m)) = S (length (stack (env m'))).
Proof.
  unfold assign_component. intros H.
  apply bind_inv in H as (ipv & m1 & H1 & H). injection H1 as _ <-.
  apply bind_inv in H as (ins & m2 & H2 & H).
  assert (m2 = m) as ->.
  { unfold prog_at in H2. destruct (_ <? 0); [discriminate|].
    destruct (prog !! _); [now injection H2 | discriminate]. }
  destruct ins as [x|h|f]; try discriminate.
  apply bind_inv in H as (x & m3 & H3 & H).
  apply top_inv in H3 as [-> _].
  apply bind_inv in H as ([] & m4 & H4 & H).
  apply pop_inv in H4 as (H4 & _).
  apply bind_inv in H as ([] & m5 & H5 & H).
  apply write_cell_stack in H5. injection H as _ <-. congruence.
Qed.

Lemma not_empty_cons (m : machine) :
  stack (env m) <> [] -> not_empty m = (Ok true, m).
Proof.
  unfold not_empty, bind, empty, ret.
  now destruct (stack (env m)).
Qed.

Lemma assign_loop_length (prog : prog_type) (k : nat) :
  forall (i : nat) (v v' : array) (m m' : machine),
    (k <= length (stack (env m)))%nat ->
    for_up k i not_empty (assign_component prog) v m = (Ok v', m') ->
    length (stack (env m)) = (k + length (stack (env m')))%nat.
Proof.
  induction k as [|k IH]; intros i v v' m m' Hk H; simpl in H.
  - now injection H as _ <-.
  - rewrite (bind_ok _ _ _ _ _ (not_empty_cons m ltac:(
      destruct (stack (env m)); [simpl in Hk; lia | discriminate]))) in H.
    cbv beta iota in H.
    apply bind_inv in H as (v1 & m1 & H1 & H).
    apply assign_component_length in H1.
    apply IH in H; lia.
Qed.

Lemma push_loop_length (v : array) (k : nat) :
  forall m m' : machine,
    for_down k (push_component v) m = (Ok tt, m') ->
    length (stack (env m')) = (k + length (stack (env m)))%nat.
Proof.
  induction k as [|k IH]; intros m m' H; simpl in H.
  - now injection H as <-.
  - apply bind_inv in H as ([] & m1 & H1 & H).
    unfold push_component in H1.
    apply bind_inv in H1 as (x & m2 & H2 & H1).
    assert (m2 = m) as ->.
    { unfold array_get in H2.
      destruct (v !! k) as [[y|]|]; try discriminate. now injection H2. }
    injection H1 as <-. apply IH in H. simpl in H. lia.
Qed.

Lemma split_stack (st : list T) (N : nat) :
  (N <= length st)%nat ->
  st = take N st ++ drop N st /\ length (take N st) = N.
Proof.
  intros H. split; [now rewrite take_drop | rewrite length_take; lia].
Qed.

Lemma dotprod3_effect (m : machine) (z2 y2 x2 z1 y1 x1 : T) (s : list T) :
  stack (env m) = z2 :: y2 :: x2 :: z1 :: y1 :: x1 :: s ->
  call dotprod3 m
  = (Ok tt,
     Machine
       (set_stack
          (T_add (T_add (T_mul x1 x2) (T_mul y1 y2)) (T_mul z1 z2) :: s)
          (env m))
       (cells m)).
Proof.
  destruct m as [[ft vt ct pp st es ipv] cs]. simpl. now intros ->.
Qed.

Lemma crossprod3_effect (m : machine) (z2 y2 x2 z1 y1 x1 : T) (s : list T) :
  stack (env m) = z2 :: y2 :: x2 :: z1 :: y1 :: x1 :: s ->
  call crossprod3 m
  = (Ok tt,
     Machine
       (set_stack
          (T_sub (T_mul x1 y2) (T_mul x2 y1)
           :: T_sub (T_mul x2 z1) (T_mul x1 z2)
           :: T_sub (T_mul y1 z2) (T_mul y2 z1) :: s)
          (env m))
       (cells m)).
Proof.
  destruct m as [[ft vt ct pp st es ipv] cs]. simpl. now intros ->.
Qed.

(** The general statement, for every function object so declared. *)
Lemma call_depth (f : function_obj) (m m' : machine) :
  declared_as_generated f ->
  values_in (base f) <= Z.of_nat (length (stack (env m))) ->
  call f m = (Ok tt, m') ->
  Z.of_nat (length (stack (env m')))
  = Z.of_nat (length (stack (env m))) - values_in (base f)
    + values_out (base f).
Proof.
  destruct f as [f n vi vo li|f n vi vo li| |N| | |N fp]; simpl base;
    cbn [function_i_new values_in values_out]; intros Hd Hin Hc.
  - destruct Hd as [-> ->]. simpl in Hc.
    apply bind_inv in Hc as (x & m1 & H1 & H).
    apply top_inv in H1 as (-> & s & Hs). unfold set_top in H.
    rewrite Hs in *. injection H as <-. simpl. lia.
  - destruct Hd as [-> ->]. simpl in Hc.
    apply bind_inv in Hc as (y & m1 & H1 & H).
    apply top_inv in H1 as (-> & s & Hs).
    apply bind_inv in H as ([] & m2 & H2 & H).
    apply pop_inv in H2 as (H2 & _).
    apply bind_inv in H as (x & m3 & H3 & H).
    apply top_inv in H3 as (-> & s' & Hs'). unfold set_top in H.
    rewrite Hs' in *. injection H as <-. simpl in *. lia.
  - simpl in Hc.
    apply bind_inv in Hc as (prog & m1 & H1 & H).
    assert (m1 = m) as ->.
    { unfold deref_prog in H1. destruct (prog_p (env m)); [|discriminate].
      now injection H1. }
    apply bind_inv in H as ([] & m2 & H2 & H).
    apply pop_inv in H2 as (H2 & _).
    apply bind_inv in H as (i & m3 & H3 & H). injection H3 as _ <-.
    apply bind_inv in H as (ins & m4 & H4 & H).
    assert (m4 = m2) as ->.
    { unfold prog_at in H4. destruct (_ <? 0); [discriminate|].
      destruct (prog !! _); [now injection H4 | discriminate]. }
    destruct ins as [x|h|g]; try discriminate.
    apply bind_inv in H as (x & m5 & H5 & H).
    apply top_inv in H5 as (-> & _).
    apply write_cell_stack in H. rewrite H. lia.
  - simpl in Hd.
    rewrite wrap_int_id in * by (unfold in_int, int_min, int_max in *; lia).
    simpl in Hc.
    apply bind_inv in Hc as (prog & m1 & H1 & H).
    assert (m1 = m) as ->.
    { unfold deref_prog in H1. destruct (prog_p (env m)); [|discriminate].
      now injection H1. }
    apply bind_inv in H as (e & m2 & H2 & H). injection H2 as <- <-.
    destruct (split_stack (stack (env m)) N ltac:(lia)) as [Hs Hl].
    apply bind_inv in H as ([] & m3 & H3 & H).
    assert (Hm3 : length (stack (env m)) = (N + length (stack (env m3)))%nat).
    { destruct (stack (env m)) as [|y st] eqn:E.
      - injection H3 as <-. rewrite E. simpl in *. lia.
      - rewrite <- E in *.
        rewrite (pops_loop N _ _ m Hl Hs) in H3. injection H3 as <-.
        simpl. rewrite length_drop. lia. }
    apply bind_inv in H as (v & m4 & H4 & H).
    apply assign_loop_length in H4; [|lia].
    apply push_loop_length in H. lia.
  - destruct (stack (env m)) as [|z2 [|y2 [|x2 [|z1 [|y1 [|x1 s]]]]]] eqn:E;
      simpl in Hin; try lia.
    rewrite (dotprod3_effect m _ _ _ _ _ _ s E) in Hc.
    apply pair_equal_spec in Hc as [_ <-]. simpl. lia.
  - destruct (stack (env m)) as [|z2 [|y2 [|x2 [|z1 [|y1 [|x1 s]]]]]] eqn:E;
      simpl in Hin; try lia.
    rewrite (crossprod3_effect m _ _ _ _ _ _ s E) in Hc.
    apply pair_equal_spec in Hc as [_ <-]. simpl. lia.
  - destruct fp as [|f n vi vo li| | | | |]; simpl in Hd; try contradiction.
    destruct Hd as (-> & -> & HN).
    rewrite wrap_int_id in * by (unfold in_int, int_min, int_max in *; lia).
    destruct (split_stack (stack (env m)) N ltac:(lia)) as [Hb Hlb].
    destruct (split_stack (drop N (stack (env m))) N
                ltac:(rewrite length_drop; lia)) as [Ha Hla].
    rewrite Ha in Hb.
    set (b := take N (stack (env m))) in *.
    set (a := take N (drop N (stack (env m)))) in *.
    set (s := drop N (drop N (stack (env m)))) in *.
    simpl call in Hc. unfold array_new in Hc.
    rewrite (bind_ok _ _ _ _ _ (take_loop N [] b (a ++ s) m Hlb Hb)) in Hc.
    rewrite (bind_ok _ _ _ _ _
               (take_loop N [] a s
                  (Machine (set_stack (a ++ s) (env m)) (cells m))
                  Hla eq_refl)) in Hc.
    simpl app in Hc.
    rewrite (bind_ok _ _ _ _ _
               (apply_loop f n 2 1 li N [] [] a [] b _
                  eq_refl eq_refl Hla Hlb)) in Hc.
    simpl app in Hc. apply push_loop_length in Hc. simpl in Hc.
    rewrite Hb, !length_app, Hla, Hlb. lia.
Qed.


(** ** What the compiler does to the environment *)

Lemma with_variables_nil (m : machine) : with_variables [] m = m.
Proof.
  destruct m as [[ft vt ct pp st es ipv] cs]. unfold with_variables.
  simpl. unfold set_var_tab. simpl. now rewrite !app_nil_r.
Qed.

Lemma with_variables_app (n1 n2 : list string) (m : machine) :
  with_variables n2 (with_variables n1 m) = with_variables (n1 ++ n2) m.
Proof.
  destruct m as [[ft vt ct pp st es ipv] cs]. unfold with_variables.
  simpl. unfold set_var_tab. simpl.
  rewrite !length_app, !length_map, seq_app, map_app, <- !app_assoc.
  reflexivity.
Qed.

Lemma compile_token_adds (ca cv : bool) (t : TokenPtr) (m : machine) :
  exists names : list string,
    snd (compile_token ca cv t m) = with_variables names m /\
    (cv = false -> names = []) /\
    (forall n, In n names -> t = Some (name_token n)).
Proof.
  assert (Hsame : exists names : list string,
            m = with_variables names m /\
            (cv = false -> names = []) /\
            (forall n, In n names -> t = Some (name_token n))).
  { exists []. rewrite with_variables_nil. now repeat split. }
  destruct t as [[s|s|s|s a o|s l r o]|]; simpl.
  - apply Hsame.
  - apply Hsame.
  - unfold bind at 1.
    destruct ((if negb ca then find_function s (-1) 0 else ret None) m)
      as [rf m1] eqn:Hf.
    assert (m1 = m) as ->.
    { destruct ca; simpl in Hf; [now injection Hf|].
      unfold find_function in Hf. now injection Hf. }
    assert (exists f, rf = Ok f) as [f ->].
    { destruct ca; simpl in Hf; [injection Hf as <- | ]; eauto.
      unfold find_function in Hf. injection Hf as <-. eauto. }
    destruct f as [f|]; [apply Hsame|].
    unfold bind at 1. unfold find_value at 1.
    destruct (value_p (cells m) (var_tab (env m)) s) as [h| |];
      [apply Hsame| |apply Hsame].
    unfold bind at 1. unfold find_value at 1.
    destruct (value_p (cells m) (const_tab (env m)) s) as [h| |];
      [|  |apply Hsame].
    + unfold bind, read_cell. destruct (cells m !! h); apply Hsame.
    + destruct cv; [|apply Hsame].
      exists [s]. split; [|split].
      * reflexivity.
      * discriminate.
      * intros n [<-|[]]. reflexivity.
  - unfold bind, find_function.
    destruct (function_p (env m) s (if ca then a else -1) 0); apply Hsame.
  - unfold bind, find_function.
    destruct (function_p (env m) s r l); apply Hsame.
  - apply Hsame.
Qed.

Lemma compile_from_adds (ca cv : bool) (tokens : list TokenPtr) :
  forall (acc : prog_type) (m : machine),
    exists names : list string,
      snd (compile_from ca cv tokens acc m) = with_variables names m /\
      (cv = false -> names = []) /\
      (forall n, In n names -> In (Some (name_token n)) tokens).
Proof.
  induction tokens as [|t tokens IH]; intros acc m; simpl.
  - exists []. rewrite with_variables_nil. now repeat split.
  - destruct (compile_token_adds ca cv t m) as (n1 & H1 & Hcv1 & Hin1).
    unfold bind.
    destruct (compile_token ca cv t m) as [[ins| | |] m1]; simpl in H1;
      try (exists n1; repeat split; try assumption;
           intros n Hn; left; now apply Hin1).
    destruct (IH (acc ++ [ins]) m1) as (n2 & H2 & Hcv2 & Hin2).
    exists (n1 ++ n2). rewrite H2, H1, with_variables_app.
    split; [reflexivity|]. split.
    + intros Hcv. now rewrite Hcv1, Hcv2.
    + intros n Hn. apply in_app_or in Hn as [Hn|Hn].
      * left. now apply Hin1.
      * right. now apply Hin2.
Qed.

(** X7.  Whatever the tokens and whether it succeeds or throws, [compile]
    does nothing to the environment but create variables: the machine it
    leaves is the one it was given with fresh cells appended, each with the
    value [T()] and the name of a name token of the input, and with the
    handles to them appended to the table of variables, in the same order.
    The functions, the constants, the program, the stack and the existing
    cells are as they were, and without [create_variables] nothing at all
    is changed. *)
Theorem compile_only_adds_variables (ca cv : bool) (tokens : list TokenPtr)
  (m : machine) :
  exists names : list string,
    snd (compile ca cv tokens m) = with_variables names m /\
    (cv = false -> snd (compile ca cv tokens m) = m) /\
    (forall n, In n names -> In (Some (name_token n)) tokens).
Proof.
  destruct (compile_from_adds ca cv tokens [] m) as (names & H & Hcv & Hin).
  exists names. unfold compile. split; [exact H|]. split; [|exact Hin].
  intros E. rewrite H, (Hcv E). apply with_variables_nil.
Qed.


(** ** Handles are never null in what the compiler produces *)

Lemma value_p_in (cs : list value) (tab : list handle) (s : string) :
  match value_p cs tab s with
  | Found h => In h tab
  | Null => True
  | BadHandle => exists h, In h tab /\ cs !! h = None
  end.
Proof.
  induction tab as [|h0 tab IH]; simpl; [exact I|].
  destruct (cs !! h0) as [c|] eqn:Hc.
  - destruct (String.eqb (vname c) s); [now left|].
    destruct (value_p cs tab s) as [h| |]; [now right | exact I |].
    destruct IH as (h & Hin & Hh). exists h. split; [now right | exact Hh].
  - exists h0. split; [now left | exact Hc].
Qed.

Lemma tables_valid_with_variables (names : list string) (m : machine) :
  tables_valid m -> tables_valid (with_variables names m).
Proof.
  unfold tables_valid, with_variables. simpl. intros H h [Hin|Hin];
    rewrite length_app, length_map.
  - apply in_app_or in Hin as [Hin|Hin].
    + specialize (H h (or_introl Hin)). lia.
    + apply in_seq in Hin. lia.
  - specialize (H h (or_intror Hin)). lia.
Qed.

Lemma compile_token_safe (ca cv : bool) (t : TokenPtr) (m : machine) :
  tables_valid m ->
  match compile_token ca cv t m with
  | (Ok (load_var h), m') => (h < length (cells m'))%nat
  | (Ok _, _) => True
  | (Throw _, _) => True
  | _ => False
  end.
Proof.
  intros Hv.
  destruct t as [[s|s|s|s a o|s l r o]|]; simpl; try exact I.
  - unfold bind at 1.
    destruct ((if negb ca then find_function s (-1) 0 else ret None) m)
      as [rf m1] eqn:Hf.
    assert (m1 = m) as ->.
    { destruct ca; simpl in Hf; [now injection Hf|].
      unfold find_function in Hf. now injection Hf. }
    assert (exists f, rf = Ok f) as [f ->].
    { destruct ca; simpl in Hf; [injection Hf as <- | ]; eauto.
      unfold find_function in Hf. injection Hf as <-. eauto. }
    destruct f as [f|]; [exact I|].
    unfold bind at 1. unfold find_value at 1.
    pose proof (value_p_in (cells m) (var_tab (env m)) s) as Hvar.
    destruct (value_p (cells m) (var_tab (env m)) s) as [h| |].
    + simpl. apply Hv. now left.
    + unfold bind at 1. unfold find_value at 1.
      pose proof (value_p_in (cells m) (const_tab (env m)) s) as Hconst.
      destruct (value_p (cells m) (const_tab (env m)) s) as [h| |].
      * unfold bind, read_cell.
        destruct (cells m !! h) eqn:Hc; [exact I|].
        apply lookup_ge_None_1 in Hc.
        specialize (Hv h (or_intror Hconst)). lia.
      * destruct cv; [|exact I]. simpl. rewrite length_app. simpl. lia.
      * destruct Hconst as (h & Hin & Hh). apply lookup_ge_None_1 in Hh.
        specialize (Hv h (or_intror Hin)). lia.
    + destruct Hvar as (h & Hin & Hh). apply lookup_ge_None_1 in Hh.
      specialize (Hv h (or_introl Hin)). lia.
  - unfold bind, find_function.
    now destruct (function_p (env m) s (if ca then a else -1) 0).
  - unfold bind, find_function.
    now destruct (function_p (env m) s r l).
Qed.

Lemma compile_from_safe (ca cv : bool) (tokens : list TokenPtr) :
  forall (acc : prog_type) (m : machine),
    tables_valid m -> handles_valid acc (cells m) ->
    match compile_from ca cv tokens acc m with
    | (Ok program, m') => handles_valid program (cells m')
    | (Throw _, _) => True
    | _ => False
    end.
Proof.
  induction tokens as [|t tokens IH]; intros acc m Hv Hacc; simpl.
  - exact Hacc.
  - destruct (compile_token_adds ca cv t m) as (names & Hm & _).
    pose proof (compile_token_safe ca cv t m Hv) as Hs.
    unfold bind.
    destruct (compile_token ca cv t m) as [[ins| | |] m1]; simpl in Hm;
      try exact I; try contradiction.
    apply IH.
    + rewrite Hm. now apply tables_valid_with_variables.
    + intros h Hin. apply in_app_or in Hin as [Hin|[E|[]]].
      * specialize (Hacc h Hin). rewrite Hm. unfold with_variables. simpl.
        rewrite length_app. lia.
      * now rewrite E in Hs.
Qed.

(** X8.  On a machine whose tables of variables and of constants hold no
    null handle, [compile] does not run into undefined behaviour: it
    returns a program or throws.  The program it returns loads variables
    only through handles that point to cells, and the tables it leaves
    hold no null handle either. *)
Theorem compile_safe (ca cv : bool) (tokens : list TokenPtr) (m : machine) :
  tables_valid m ->
  tables_valid (snd (compile ca cv tokens m)) /\
  match fst (compile ca cv tokens m) with
  | Ok program => handles_valid program (cells (snd (compile ca cv tokens m)))
  | Throw _ => True
  | _ => False
  end.
Proof.
  intros Hv. split.
  - destruct (compile_from_adds ca cv tokens [] m) as (names & Hm & _).
    unfold compile. rewrite Hm. now apply tables_valid_with_variables.
  - pose proof (compile_from_safe ca cv tokens [] m Hv) as H.
    unfold compile.
    destruct (compile_from ca cv tokens [] m) as [[p| | |] m']; simpl;
      try exact I; apply H; intros h [].
Qed.


(** ** A compiled program reads through no null pointer *)

Section NullFree.

Variable prog : prog_type.

#[local] Abbreviation null_free c := (@null_free T _ prog c).

Lemma sound_frame (m m' : machine) :
  frame m m' -> sound prog m -> sound prog m'.
Proof.
  intros (_ & _ & _ & Hp & _ & _ & Hn) [Hs Hv]. split; [congruence|].
  intros h Hin. specialize (Hv h Hin).
  apply (f_equal (@length _)) in Hn. rewrite !length_map in Hn. lia.
Qed.

Lemma null_free_bind {A B} (c : M A) (k : A -> M B) :
  framed c -> null_free c -> (forall a, null_free (k a)) ->
  null_free (bind c k).
Proof.
  intros Hf Hc Hk m Hs. unfold bind.
  specialize (Hc m Hs). destruct (Hf m) as [Hfr _].
  destruct (c m) as [[a| | |] m'] eqn:E; simpl in *;
    try discriminate.
  - apply Hk. eapply sound_frame; eassumption.
  - intros [= ->]. now apply Hc.
Qed.

Lemma null_free_for_up {A} (k : nat) (cond : M bool)
  (body : nat -> A -> M A) :
  framed cond -> null_free cond ->
  (forall i a, framed (body i a)) -> (forall i a, null_free (body i a)) ->
  forall i a, null_free (for_up k i cond body a).
Proof.
  intros Hfc Hc Hfb Hb. induction k as [|k IH]; intros i a; simpl.
  - intros m _. discriminate.
  - apply null_free_bind; [exact Hfc | exact Hc |].
    intros [|]; [|intros m _; discriminate].
    apply null_free_bind; [apply Hfb | apply Hb | intros; apply IH].
Qed.

Lemma null_free_for_down (k : nat) (body : nat -> M unit) :
  (forall i, framed (body i)) -> (forall i, null_free (body i)) ->
  null_free (for_down k body).
Proof.
  intros Hfb Hb. induction k as [|k IH]; simpl.
  - intros m _. discriminate.
  - apply null_free_bind; [apply Hfb | apply Hb | intros; apply IH].
Qed.

Lemma null_free_deref_prog {A} (k : prog_type -> M A) :
  null_free (k prog) -> null_free (bind deref_prog k).
Proof.
  intros Hk m Hs. unfold bind, deref_prog.
  destruct Hs as [Hp Hv]. rewrite Hp. apply Hk. now split.
Qed.

Lemma null_free_top : null_free top.
Proof. intros m _. unfold top. now destruct (stack (env m)). Qed.

Lemma null_free_pop : null_free pop.
Proof. intros m _. unfold pop. now destruct (stack (env m)). Qed.

Lemma null_free_set_top (v : T) : null_free (set_top v).
Proof. intros m _. unfold set_top. now destruct (stack (env m)). Qed.

Lemma null_free_push (v : T) : null_free (push v).
Proof. intros m _. discriminate. Qed.

Lemma null_free_ret {A} (a : A) : null_free (ret a).
Proof. intros m _. discriminate. Qed.

Lemma null_free_not_empty : null_free not_empty.
Proof. intros m _. discriminate. Qed.

Lemma null_free_array_get (v : array) (i : nat) : null_free (array_get v i).
Proof.
  intros m _. unfold array_get. now destruct (v !! i) as [[x|]|].
Qed.

(** The instruction that [prog[ i ]] returns, when it returns one, is an
    instruction of the program. *)
Lemma null_free_prog_at {A} (i : Z) (k : instruction -> M A) :
  (forall ins, In ins prog -> null_free (k ins)) ->
  null_free (bind (prog_at prog i) k).
Proof.
  intros Hk m Hs. unfold bind, prog_at.
  destruct (i <? 0); [discriminate|].
  destruct (prog !! Z.to_nat i) as [ins|] eqn:E; [|discriminate].
  apply Hk; [|exact Hs].
  apply list_elem_of_In. eapply list_elem_of_lookup_2. exact E.
Qed.

Lemma null_free_write_cell (h : handle) (v : T) :
  In (load_var h) prog -> null_free (write_cell h v).
Proof.
  intros Hin m [_ Hv]. unfold write_cell.
  destruct (cells m !! h) eqn:E; [discriminate|].
  apply lookup_ge_None_1 in E. specialize (Hv h Hin). lia.
Qed.

Lemma null_free_read_cell (h : handle) :
  In (load_var h) prog -> null_free (read_cell h).
Proof.
  intros Hin m [_ Hv]. unfold read_cell.
  destruct (cells m !! h) eqn:E; [discriminate|].
  apply lookup_ge_None_1 in E. specialize (Hv h Hin). lia.
Qed.

Ltac framed_tac :=
  repeat first
    [ apply framed_bind; [|intros]
    | apply framed_for_up; [|intros]
    | apply framed_for_down; intros
    | apply framed_ret | apply framed_throw | apply framed_undef
    | apply framed_push | apply framed_pop | apply framed_top
    | apply framed_set_top | apply framed_empty | apply framed_not_empty
    | apply framed_deref_prog | apply framed_prog_at | apply framed_get_ip
    | apply framed_read_cell | apply framed_write_cell
    | apply framed_array_get | apply framed_call
    | match goal with
      | |- framed (match ?x with _ => _ end) => destruct x
      | |- framed (if ?b then _ else _) => destruct b
      end ].

Ltac null_tac :=
  repeat first
    [ apply null_free_deref_prog
    | apply null_free_prog_at; intros
    | apply null_free_bind; [framed_tac| |intros]
    | apply null_free_for_up; [framed_tac| |intros; framed_tac|intros]
    | apply null_free_for_down; [intros; framed_tac|intros]
    | apply null_free_top | apply null_free_pop | apply null_free_set_top
    | apply null_free_push | apply null_free_ret
    | apply null_free_not_empty | apply null_free_array_get
    | apply null_free_write_cell; assumption
    | apply null_free_read_cell; assumption
    | assumption
    | match goal with
      | |- null_free (match ?x with _ => _ end) => destruct x
      | |- null_free (if ?b then _ else _) => destruct b
      | |- null_free _ => intros ? _; discriminate
      end ].

Lemma null_free_call (f : function_obj) : null_free (call f).
Proof.
  induction f; simpl;
    unfold take_top, assign_component, push_component, apply_component;
    null_tac.
Qed.

Lemma null_free_exec (ins : instruction) :
  In ins prog -> null_free (exec ins).
Proof.
  intros Hin. destruct ins as [v|h|f]; simpl.
  - apply null_free_push.
  - apply null_free_bind;
      [apply framed_read_cell | now apply null_free_read_cell |].
    intros v. apply null_free_push.
  - apply null_free_call.
Qed.

Lemma null_free_run_loop (fuel : nat) (end_ : Z) :
  null_free (run_loop fuel prog end_).
Proof.
  induction fuel as [|fuel IH]; simpl.
  - intros m _. discriminate.
  - apply null_free_bind; [apply framed_get_ip | intros m _; discriminate|].
    intros i. destruct (negb (i =? end_)); [|apply null_free_ret].
    apply null_free_prog_at. intros ins Hin.
    apply null_free_bind;
      [apply framed_exec | now apply null_free_exec |].
    intros _ m Hs. unfold bind, get_ip, put_ip. apply IH.
    destruct Hs as [Hp Hv]. now split.
Qed.

End NullFree.




(** ** A variable that the compiler creates *)

Lemma value_p_null_app (cs extra : list value) (tab tab' : list handle)
  (s : string) :
  value_p cs tab s = Null ->
  value_p (cs ++ extra) (tab ++ tab') s = value_p (cs ++ extra) tab' s.
Proof.
  induction tab as [|h tab IH]; simpl; [reflexivity|].
  destruct (cs !! h) as [c|] eqn:Hc; [|discriminate].
  rewrite (lookup_app_l_Some _ _ _ _ Hc).
  destruct (String.eqb (vname c) s); [discriminate | exact IH].
Qed.

Lemma value_p_fresh (cs : list value) (s : string) (x : T) :
  value_p (cs ++ [Value s x]) [length cs] s = Found (length cs).
Proof.
  simpl. rewrite lookup_app_r by lia. rewrite Nat.sub_diag. simpl.
  now rewrite String.eqb_refl.
Qed.

Lemma name_is_no_function (ca : bool) (s : string) (m : machine) :
  (ca = false -> function_p (env m) s (-1) 0 = None) ->
  (if negb ca then find_function s (-1) 0 else ret None) m = (Ok None, m).
Proof.
  intros Hf. destruct ca; simpl; [reflexivity|].
  unfold find_function. now rewrite Hf.
Qed.



End MoreProperties.

(** ** The default run-time environment *)

Section MoreDefaultRte.

Variable libm : cmath.
Variable atof : string -> float.

#[local] Instance double_host : Numeric float := double atof.

Lemma default_functions_declared (fs : list (@function_obj float)) :
  generate_def_functions libm = Some fs ->
  Forall declared_as_generated fs.
Proof.
  unfold generate_def_functions. simpl. intros [= <-].
  repeat (apply List.Forall_cons;
          [first [exact I | simpl; unfold int_max; repeat split; lia]|]).
  apply List.Forall_nil.
Qed.

(** X6.  Every function object of the default run-time environment, called
    on a stack that holds at least the [values_in] values it declares,
    changes the depth of the stack by [values_out - values_in] when it
    succeeds: what the functions, the operators on scalars and on vectors
    and the assignments declare is what they consume and produce. *)
Theorem default_functions_arity (fs : list (@function_obj float))
  (f : @function_obj float) (m m' : @machine float) :
  generate_def_functions libm = Some fs ->
  In f fs ->
  values_in (base f) <= Z.of_nat (length (stack (env m))) ->
  call f m = (Ok tt, m') ->
  Z.of_nat (length (stack (env m')))
  = Z.of_nat (length (stack (env m))) - values_in (base f)
    + values_out (base f).
Proof.
  intros Hg Hin Hdepth Hcall.
  apply default_functions_declared in Hg.
  rewrite Forall_forall in Hg.
  apply call_depth; [|assumption..].
  apply Hg. now apply list_elem_of_In.
Qed.

(** X17.  The scalar operators of the default environment, from the
    tokens to the stack: for each of [^ * / + - %] and for all operands,
    the tokens [x y op[1 1 1]] compile, with [count_args] on, to two
    [load_val] and the call of the binary function of that name, not of
    the unary minus or of the dot product that share a name with one, and
    running the program on the default environment leaves the one value
    [f( x, y )], the left operand first. *)
Theorem binary_operator_applies (m0 : @machine float)
  (b : binary_function_t) (x y : string) (cv : bool) (fuel : nat) :
  generate_default_rte libm = Some m0 ->
  In b (binary_functions libm) ->
  b_left_params b = 1 ->
  (3 < fuel)%nat ->
  let program :=
    [load_val (atof x); load_val (atof y);
     call_fun (function_binary (b_f b) (b_name b) 2 1 1)] in
  compile true cv
    [Some (value_token x); Some (value_token y);
     Some (operator_token (b_name b) 1 1 1)] m0
  = (Ok program, m0) /\
  run fuel 0 (Machine (set_prog_p (Some program) (env m0)) (cells m0))
  = (Ok tt,
     Machine
       (set_ip 3
          (set_stack [b_f b (atof x) (atof y)]
             (set_prog_p (Some program) (env m0))))
       (cells m0)).
Proof.
  intros Hg Hin Hl Hf program.
  unfold generate_default_rte in Hg. simpl in Hg. injection Hg as <-.
  destruct fuel as [|[|[|[|fuel]]]]; try lia.
  simpl in Hin.
  repeat (destruct Hin as [<-|Hin]; [try discriminate Hl|]);
    try contradiction; (split; reflexivity).
Qed.

(** X18.  The named functions of the default environment, from the tokens
    to the stack: for each function of one argument that is no operator,
    and for every operand, the tokens [x f[1]] compile, with [count_args]
    on, to a [load_val] and the call of that function, and running the
    program leaves the one value [f( x )]. *)
Theorem unary_function_applies (m0 : @machine float)
  (u : unary_function_t) (x : string) (o : Z) (cv : bool) (fuel : nat) :
  generate_default_rte libm = Some m0 ->
  In u (unary_functions libm) ->
  u_left_params u = 0 ->
  (2 < fuel)%nat ->
  let program :=
    [load_val (atof x);
     call_fun (function_unary (u_f u) (u_name u) 1 1 0)] in
  compile true cv
    [Some (value_token x); Some (function_token (u_name u) 1 o)] m0
  = (Ok program, m0) /\
  run fuel 0 (Machine (set_prog_p (Some program) (env m0)) (cells m0))
  = (Ok tt,
     Machine
       (set_ip 2
          (set_stack [u_f u (atof x)]
             (set_prog_p (Some program) (env m0))))
       (cells m0)).
Proof.
  intros Hg Hin Hl Hf program.
  unfold generate_default_rte in Hg. simpl in Hg. injection Hg as <-.
  destruct fuel as [|[|[|fuel]]]; try lia.
  simpl in Hin.
  repeat (destruct Hin as [<-|Hin]; [try discriminate Hl|]);
    try contradiction; (split; reflexivity).
Qed.

End MoreDefaultRte.


(** ** Expressions on the default environment *)

Section MoreExpressions.

Variable libm : cmath.
Variable atof : string -> float.

#[local] Instance double_host_expr : Numeric float := double atof.

Variable create_variables_ : bool.

Lemma compile_from_app (count_args_ : bool) (l1 l2 : list TokenPtr)
  (acc p : @prog_type float) (m m' : @machine float) :
  compile_from count_args_ create_variables_ l1 acc m = (Ok p, m') ->
  compile_from count_args_ create_variables_ (l1 ++ l2) acc m
  = compile_from count_args_ create_variables_ l2 p m'.
Proof.
  revert acc m. induction l1 as [|t l1 IH]; intros acc m H.
  - simpl in H. unfold ret in H. now injection H as <- <-.
  - simpl in *. apply bind_inv in H as (ins & m1 & Ht & H).
    rewrite (bind_ok _ _ _ _ _ Ht). now apply IH.
Qed.

Lemma exec_all_app (l1 l2 : list (@instruction float))
  (m m' : @machine float) :
  exec_all l1 m = (Ok tt, m') -> exec_all (l1 ++ l2) m = exec_all l2 m'.
Proof.
  revert m. induction l1 as [|ins l1 IH]; intros m H.
  - simpl in H. unfold ret in H. now injection H as <-.
  - simpl in *. apply bind_inv in H as ([] & m1 & He & H).
    rewrite (bind_ok _ _ _ _ _ He).
    apply bind_inv in H as (i & m2 & Hi & H).
    rewrite (bind_ok _ _ _ _ _ Hi).
    apply bind_inv in H as ([] & m3 & Hp & H).
    rewrite (bind_ok _ _ _ _ _ Hp). now apply IH.
Qed.

Lemma set_ip_set_stack (rt : @rte float) (i j : Z) (s s' : list float) :
  set_ip i (set_stack s (set_ip j (set_stack s' rt)))
  = set_ip i (set_stack s rt).
Proof. reflexivity. Qed.

Lemma exec_all_one (ins : @instruction float) (rt : @rte float)
  (cs : list (@value float)) (s : list float) :
  exec ins (Machine rt cs) = (Ok tt, Machine (set_stack s rt) cs) ->
  0 <= ip rt -> ip rt + 1 <= size_max ->
  exec_all [ins] (Machine rt cs)
  = (Ok tt, Machine (set_ip (ip rt + 1) (set_stack s rt)) cs).
Proof.
  intros H H0 H1. simpl. rewrite (bind_ok _ _ _ _ _ H).
  unfold bind, get_ip, put_ip, ret. simpl.
  rewrite wrap_size_id by (unfold in_size; lia). reflexivity.
Qed.

Section OnMachine.

Variables m0 m : @machine float.
Hypothesis default_m0 : generate_default_rte libm = Some m0.
Hypothesis same_env : env m = env m0.
Hypothesis same_names : map vname (cells m) = map vname (cells m0).

Lemma unary_token_compiles (u : unary_function_t) :
  In u (unary_functions libm) -> u_left_params u = 0 ->
  function_p (env m) (u_name u) 1 0
  = Some (function_unary (u_f u) (u_name u) 1 1 0).
Proof.
  intros Hin Hl. rewrite same_env.
  unfold generate_default_rte in default_m0. simpl in default_m0.
  injection default_m0 as <-. simpl in Hin.
  repeat (destruct Hin as [<-|Hin]; [try discriminate Hl; reflexivity|]).
  contradiction.
Qed.

Lemma binary_token_compiles (b : binary_function_t) (acc : @prog_type float) :
  In b (binary_functions libm) ->
  compile_from true create_variables_ [Some (binary_token b)] acc m
  = (Ok (acc ++ [call_fun (function_binary (b_f b) (b_name b) 2 1
                            (b_left_params b))]), m).
Proof.
  intros Hin. destruct m as [rt0 cs]. simpl in same_env. subst rt0.
  unfold generate_default_rte in default_m0. simpl in default_m0.
  injection default_m0 as <-. simpl in Hin.
  repeat (destruct Hin as [<-|Hin]; [reflexivity|]).
  contradiction.
Qed.

Lemma name_token_compiles (n : string) :
  In n (map v_name (variables ++ constants)) ->
  exists ins,
    (forall acc,
       compile_from true create_variables_ [Some (name_token n)] acc m
       = (Ok (acc ++ [ins]), m)) /\
    forall rt,
      exec ins (Machine rt (cells m))
      = (Ok tt,
         Machine (set_stack (default 0%float (name_value m n) :: stack rt) rt)
           (cells m)).
Proof.
  intros Hin. destruct m as [rt0 cs]. simpl in same_env, same_names.
  subst rt0.
  unfold generate_default_rte in default_m0. simpl in default_m0.
  injection default_m0 as <-. simpl in same_names.
  do 8 (destruct cs as [|[? ?] cs]; try discriminate same_names).
  injection same_names as -> -> -> -> -> -> ->.
  simpl in Hin.
  repeat (destruct Hin as [<-|Hin];
          [eexists; split; [intros acc|intros rt]; reflexivity|]).
  contradiction.
Qed.

Lemma expression_code (e : expr) :
  well_formed libm e ->
  exists code : @prog_type float,
    length code = length (rpn e) /\
    (forall acc,
       compile_from true create_variables_ (rpn e) acc m
       = (Ok (acc ++ code), m)) /\
    (forall rt,
       0 <= ip rt -> ip rt + Z.of_nat (length code) <= size_max ->
       exec_all code (Machine rt (cells m))
       = (Ok tt,
          Machine
            (set_ip (ip rt + Z.of_nat (length code))
               (set_stack (eval atof m e :: stack rt) rt))
            (cells m))).
Proof.
  induction e as [s|n|u a IH|b a1 IH1 a2 IH2]; intros Hwf;
    cbn [well_formed] in Hwf; cbn [rpn eval].
  - exists [load_val (atof s)]. split; [reflexivity|]. split.
    + intros acc. reflexivity.
    + intros rt H0 H1. apply exec_all_one; [reflexivity|lia|simpl in H1; lia].
  - destruct (name_token_compiles n Hwf) as (ins & Hc & He).
    exists [ins]. split; [reflexivity|]. split; [exact Hc|].
    intros rt H0 H1. apply exec_all_one; [apply He|lia|simpl in H1; lia].
  - destruct Hwf as (Hin & Hl & Hwf).
    destruct (IH Hwf) as (code & Hlen & Hc & He).
    exists (code ++ [call_fun (function_unary (u_f u) (u_name u) 1 1 0)]).
    split; [now rewrite !length_app, Hlen|]. split.
    + intros acc. rewrite (compile_from_app _ _ _ _ _ _ _ (Hc acc)).
      simpl. unfold bind, find_function.
      rewrite (unary_token_compiles u Hin Hl). unfold ret.
      now rewrite app_assoc.
    + intros rt H0 H1. rewrite !length_app in H1 |- *.
      cbn [length] in H1 |- *.
      rewrite (exec_all_app _ _ _ _ (He rt H0 ltac:(lia))).
      rewrite (exec_all_one _ _ _ (u_f u (eval atof m a) :: stack rt));
        [|reflexivity|simpl; lia..].
      rewrite set_ip_set_stack. simpl. do 3 f_equal. lia.
  - destruct Hwf as (Hin & Hwf1 & Hwf2).
    destruct (IH1 Hwf1) as (code1 & Hlen1 & Hc1 & He1).
    destruct (IH2 Hwf2) as (code2 & Hlen2 & Hc2 & He2).
    exists (code1 ++ code2
            ++ [call_fun (function_binary (b_f b) (b_name b) 2 1
                            (b_left_params b))]).
    split; [now rewrite !length_app, Hlen1, Hlen2|]. split.
    + intros acc. rewrite (compile_from_app _ _ _ _ _ _ _ (Hc1 acc)).
      rewrite (compile_from_app _ _ _ _ _ _ _ (Hc2 (acc ++ code1))).
      rewrite (binary_token_compiles b _ Hin).
      now rewrite <- !app_assoc.
    + intros rt H0 H1. rewrite !length_app in H1 |- *.
      cbn [length] in H1 |- *.
      rewrite (exec_all_app _ _ _ _ (He1 rt H0 ltac:(lia))).
      rewrite (exec_all_app _ _ _ _
                 (He2 (set_ip (ip rt + Z.of_nat (length code1))
                         (set_stack (eval atof m a1 :: stack rt) rt))
                    ltac:(simpl; lia) ltac:(simpl; lia))).
      rewrite (exec_all_one _ _ _
                 (b_f b (eval atof m a1) (eval atof m a2) :: stack rt));
        [|reflexivity|simpl; lia..].
      rewrite !set_ip_set_stack. simpl. do 3 f_equal. lia.
Qed.

(** X23.  Expressions on the default environment, from the tokens to the
    stack.  For every expression built from literals, from the names of
    the default variables and constants, and from the functions of one and
    of two arguments of the default tables, the tokens of its reverse
    Polish notation, annotated as [to_rpn] annotates them, compile with
    [count_args] on to a program of one instruction for each token,
    without a change of the environment, and running that program from
    its first instruction leaves exactly the value of the expression on
    the stack: the operands of an operator are applied left to right, and
    the cells keep their values.  The environment is the default one,
    whatever values its variables and constants hold. *)
Theorem expression_evaluates (e : expr) (fuel : nat) :
  well_formed libm e ->
  Z.of_nat (length (rpn e)) <= size_max ->
  (length (rpn e) < fuel)%nat ->
  exists (program : @prog_type float) (m' : @machine float),
    compile true create_variables_ (rpn e) m = (Ok program, m) /\
    length program = length (rpn e) /\
    run fuel 0 (Machine (set_prog_p (Some program) (env m)) (cells m))
    = (Ok tt, m') /\
    stack (env m') = [eval atof m e] /\
    cells m' = cells m.
Proof.
  intros Hwf Hsize Hfuel.
  destruct (expression_code e Hwf) as (code & Hlen & Hc & He).
  assert (Hs : stack (env m) = []).
  { rewrite same_env. unfold generate_default_rte in default_m0.
    simpl in default_m0. now injection default_m0 as <-. }
  exists code. eexists. split; [exact (Hc [])|]. split; [exact Hlen|].
  rewrite <- Hlen in Hsize, Hfuel.
  rewrite (run_unfold fuel 0 _ code) by reflexivity.
  rewrite run_loop_exec_all; cbn [env cells ip set_ip];
    [|lia|lia|lia].
  change (Z.to_nat 0) with 0%nat. rewrite drop_0.
  rewrite He by (simpl; lia).
  split; [reflexivity|]. simpl. now rewrite Hs.
Qed.

End OnMachine.

End MoreExpressions.

(** ** The check of the parentheses in [validate] *)

Section Parentheses.

Lemma open_is_not_close : Ascii.eqb OPENPAR CLOSEPAR = false.
Proof. reflexivity. Qed.

Lemma match_opening_step (k : Z) (c : ascii) :
  1 <= k < int_max ->
  match_opening_call k c
  = if Ascii.eqb c OPENPAR then (false, k + 1)
    else if Ascii.eqb c CLOSEPAR then (k - 1 =? 0, k - 1)
    else (false, k).
Proof.
  intros Hk. unfold match_opening_call.
  destruct (Ascii.eqb_spec c OPENPAR) as [->|Ho].
  - rewrite open_is_not_close.
    rewrite wrap_int_id by (unfold in_int, int_min, int_max in *; lia).
    destruct (Z.eqb_spec (k + 1) 0); [lia | reflexivity].
  - destruct (Ascii.eqb c CLOSEPAR).
    + now rewrite wrap_int_id
        by (unfold in_int, int_min, int_max in *; lia).
    + destruct (Z.eqb_spec k 0); [lia | reflexivity].
Qed.

Lemma match_closing_step (k : Z) (c : ascii) :
  1 <= k < int_max ->
  match_closing_call k c
  = if Ascii.eqb c OPENPAR then (k - 1 =? 0, k - 1)
    else if Ascii.eqb c CLOSEPAR then (false, k + 1)
    else (false, k).
Proof.
  intros Hk. unfold match_closing_call.
  destruct (Ascii.eqb_spec c OPENPAR) as [->|Ho].
  - rewrite open_is_not_close.
    now rewrite wrap_int_id by (unfold in_int, int_min, int_max in *; lia).
  - destruct (Ascii.eqb c CLOSEPAR).
    + rewrite wrap_int_id by (unfold in_int, int_min, int_max in *; lia).
      destruct (Z.eqb_spec (k + 1) 0); [lia | reflexivity].
    + destruct (Z.eqb_spec k 0); [lia | reflexivity].
Qed.

Lemma find_if_bounds {St} (p : St -> ascii -> bool * St) (l : list ascii) :
  forall (st : St) (first : nat),
    (first <= find_if p st l first <= first + length l)%nat.
Proof.
  induction l as [|c l IH]; intros st first; simpl; [lia|].
  destruct (p st c) as [[|] st']; [lia|].
  specialize (IH st' (S first)). lia.
Qed.

(** An opening parenthesis finds a match exactly when it is closed. *)
Lemma forward_match (l : list ascii) :
  forall (k : Z) (first : nat),
    1 <= k -> k + Z.of_nat (length l) < int_max ->
    (find_if match_opening_call k l first = (first + length l)%nat
     <-> closes (Z.to_nat k) l = false).
Proof.
  induction l as [|c l IH]; intros k first Hk Hb;
    cbn [find_if closes length] in *.
  - split; [intros _|lia]. apply Nat.eqb_neq. lia.
  - rewrite match_opening_step by lia.
    replace (Z.to_nat k =? 0)%nat with false
      by (symmetry; apply Nat.eqb_neq; lia).
    simpl orb.
    destruct (Ascii.eqb c OPENPAR).
    + replace (S (Z.to_nat k)) with (Z.to_nat (k + 1)) by lia.
      rewrite <- (IH (k + 1) (S first)) by lia. lia.
    + destruct (Ascii.eqb c CLOSEPAR).
      * replace (pred (Z.to_nat k)) with (Z.to_nat (k - 1)) by lia.
        destruct (Z.eqb_spec (k - 1) 0) as [E|E].
        -- rewrite E. simpl. destruct l; simpl; split; (lia || discriminate).
        -- rewrite <- (IH (k - 1) (S first)) by lia. lia.
      * rewrite <- (IH k (S first)) by lia. lia.
Qed.

(** A closing parenthesis finds a match exactly when one is open. *)
Lemma backward_match (before : list ascii) :
  forall (k : Z) (d first : nat),
    depth_of before = Some d ->
    1 <= k -> k + Z.of_nat (length before) < int_max ->
    (find_if match_closing_call k before first = (first + length before)%nat
     <-> Z.of_nat d < k).
Proof.
  induction before as [|c b IH]; intros k d first Hd Hk Hb;
    cbn [find_if depth_of length] in *.
  - injection Hd as <-. split; lia.
  - rewrite match_closing_step by lia.
    replace (first + S (length b))%nat with (S first + length b)%nat by lia.
    destruct (depth_of b) as [db|]; [|discriminate].
    destruct (Ascii.eqb c OPENPAR).
    + injection Hd as <-.
      destruct (Z.eqb_spec (k - 1) 0) as [E|E]; [split; lia|].
      rewrite (IH (k - 1) db (S first)) by (auto; lia). lia.
    + destruct (Ascii.eqb c CLOSEPAR).
      * destruct db as [|db']; [discriminate|]. injection Hd as <-.
        rewrite (IH (k + 1) (S db') (S first)) by (auto; lia). lia.
      * injection Hd as <-.
        rewrite (IH k db (S first)) by (auto; lia). lia.
Qed.

Lemma closes_0 (l : list ascii) : closes 0 l = true.
Proof. now destruct l. Qed.

Lemma balanced_closes (l : list ascii) :
  forall d k : nat, balanced_from (d + k) l = true -> closes k l = true.
Proof.
  induction l as [|c l IH]; intros d k H; simpl in *.
  - apply Nat.eqb_eq in H. apply Nat.eqb_eq. lia.
  - destruct k as [|k]; [reflexivity|]. simpl.
    destruct (Ascii.eqb c OPENPAR).
    + apply (IH d (S (S k))). rewrite <- H. f_equal. lia.
    + destruct (Ascii.eqb c CLOSEPAR).
      * rewrite Nat.add_succ_r in H. now apply (IH d k).
      * now apply (IH d (S k)).
Qed.

Lemma no_forward_match_open (l : list ascii) :
  Z.of_nat (length l) + 1 < int_max ->
  no_forward_match (OPENPAR :: l) = negb (closes 1 l).
Proof.
  intros Hb. unfold no_forward_match. simpl.
  pose proof (forward_match l 1 1 ltac:(lia) ltac:(lia)) as H.
  change (Z.to_nat 1) with 1%nat in H.
  destruct (closes 1 l).
  - apply Nat.eqb_neq. intros E. apply H in E. discriminate.
  - apply Nat.eqb_eq. now apply H.
Qed.

Lemma no_backward_match_depth (before : list ascii) (d : nat) :
  depth_of before = Some d ->
  Z.of_nat (length before) + 1 < int_max ->
  no_backward_match before = (d =? 0)%nat.
Proof.
  intros Hd Hb. unfold no_backward_match.
  pose proof (backward_match before 1 d 0 Hd ltac:(lia) ltac:(lia)) as H.
  simpl in H.
  destruct (Nat.eqb_spec d 0) as [E|E].
  - apply Nat.eqb_eq. apply H. lia.
  - apply Nat.eqb_neq. intros E'. apply H in E'. lia.
Qed.

Lemma depth_of_cons (c : ascii) (before : list ascii) (d : nat) :
  depth_of before = Some d ->
  depth_of (c :: before)
  = if Ascii.eqb c OPENPAR then Some (S d)
    else if Ascii.eqb c CLOSEPAR then
      match d with O => None | S d' => Some d' end
    else Some d.
Proof. intros H. simpl. now rewrite H. Qed.

Lemma validate_loop_sound (l : list ascii) :
  forall (before : list ascii) (d : nat),
    depth_of before = Some d ->
    Z.of_nat (length before + length l) + 1 < int_max ->
    closes d l = true ->
    validate_loop before l = parentheses_matched ->
    balanced_from d l = true.
Proof.
  induction l as [|c l IH]; intros before d Hd Hb Hc H;
    cbn [validate_loop balanced_from closes length] in *.
  - exact Hc.
  - pose proof (depth_of_cons c before d Hd) as Hd'.
    destruct (Ascii.eqb_spec c OPENPAR) as [->|Ho].
    + rewrite no_forward_match_open in H by lia.
      destruct (closes 1 l) eqn:E; [|discriminate]. simpl in H.
      apply (IH (OPENPAR :: before) (S d)); try assumption.
      * simpl. lia.
      * destruct d; [exact E|]. exact Hc.
    + destruct (Ascii.eqb c CLOSEPAR).
      * rewrite (no_backward_match_depth before d Hd) in H by lia.
        destruct d as [|d']; [discriminate|]. simpl in H.
        apply (IH (c :: before) d'); try assumption. simpl. lia.
      * apply (IH (c :: before) d); try assumption; [simpl; lia|].
        destruct d; [apply closes_0 | exact Hc].
Qed.

Lemma validate_loop_complete (l : list ascii) :
  forall (before : list ascii) (d : nat),
    depth_of before = Some d ->
    Z.of_nat (length before + length l) + 1 < int_max ->
    balanced_from d l = true ->
    validate_loop before l = parentheses_matched.
Proof.
  induction l as [|c l IH]; intros before d Hd Hb H;
    cbn [validate_loop balanced_from length] in *.
  - reflexivity.
  - pose proof (depth_of_cons c before d Hd) as Hd'.
    destruct (Ascii.eqb_spec c OPENPAR) as [->|Ho].
    + rewrite no_forward_match_open by lia.
      rewrite (balanced_closes l d 1)
        by (now replace (d + 1)%nat with (S d) by lia).
      simpl. apply (IH (OPENPAR :: before) (S d)); try assumption.
      simpl. lia.
    + destruct (Ascii.eqb c CLOSEPAR).
      * rewrite (no_backward_match_depth before d Hd) by lia.
        destruct d as [|d']; [discriminate|]. simpl.
        apply (IH (c :: before) d'); try assumption. simpl. lia.
      * apply (IH (c :: before) d); try assumption. simpl. lia.
Qed.

End Parentheses.

(** X11.  The first stage of [validate] accepts a text exactly when its
    parentheses are balanced: no closing parenthesis comes before its
    opening one and none is left open at the end.  Otherwise it throws
    [unmatched_opening_par] or [unmatched_closing_par].  The counters of
    the matchers are [int]s: the text is shorter than the largest of
    them. *)
Theorem validate_accepts_balanced (expr_ : string) :
  Z.of_nat (String.length expr_) + 1 < int_max ->
  (validate_parentheses expr_ = parentheses_matched <->
   balanced expr_ = true).
Proof.
  intros Hb. unfold validate_parentheses, balanced.
  assert (Hl : length (list_ascii_of_string expr_) = String.length expr_).
  { induction expr_ as [|c s IH]; simpl; [reflexivity|].
    rewrite IH; [reflexivity|]. simpl in Hb. lia. }
  split; intros H.
  - apply (validate_loop_sound _ [] 0%nat); try reflexivity; try assumption.
    + simpl. lia.
    + apply closes_0.
  - apply (validate_loop_complete _ [] 0%nat); try reflexivity;
      try assumption.
    simpl. lia.
Qed.


(** ** The tokeniser always returns *)

Section TokeniserTermination.

(** The first character that a scan accepts, with the state in which it
    is accepted: every state of the scan satisfies an invariant that the
    rejections keep. *)
Lemma find_if_accepts {St} (p : St -> ascii -> bool * St)
  (Inv : St -> Prop) :
  (forall st ch, Inv st -> fst (p st ch) = false -> Inv (snd (p st ch))) ->
  forall (l : list ascii) (st : St) (first : nat),
    Inv st ->
    (find_if p st l first < first + length l)%nat ->
    exists ch st',
      l !! (find_if p st l first - first)%nat = Some ch /\
      Inv st' /\ fst (p st' ch) = true.
Proof.
  intros Hinv. induction l as [|c l IH]; intros st first Hst Hlt;
    cbn [find_if length] in *; [lia|].
  destruct (p st c) as [r st'] eqn:E. destruct r.
  - exists c, st. rewrite Nat.sub_diag. rewrite E. now repeat split.
  - pose proof (find_if_bounds p l st' (S first)) as Hb.
    destruct (IH st' (S first)) as (ch & st'' & Hl & Hi & Ha).
    + specialize (Hinv st c Hst). rewrite E in Hinv. now apply Hinv.
    + lia.
    + exists ch, st''. split; [|now split].
      replace (find_if p st' l (S first) - first)%nat
        with (S (find_if p st' l (S first) - S first)) by lia.
      exact Hl.
Qed.

Lemma between_length (text : list ascii) (b e : nat) :
  (b <= e <= length text)%nat -> length (between text b e) = (e - b)%nat.
Proof.
  intros H. unfold between. rewrite length_take, length_drop. lia.
Qed.

Lemma between_lookup (text : list ascii) (b e j : nat) :
  (b + j < e)%nat -> between text b e !! j = text !! (b + j)%nat.
Proof.
  intros H. unfold between. rewrite lookup_take_lt by lia.
  now rewrite lookup_drop.
Qed.

(** The range that [search_range] returns lies between [b] and [e], and
    it is not empty unless it is [( e, e )], for a predicate that accepts
    in its initial state what it accepts after rejections. *)
Lemma search_range_progress {St} (p : St -> ascii -> bool * St) (p0 : St)
  (Inv : St -> Prop) (text : list ascii) (b e : nat) :
  (forall st ch, Inv st -> fst (p st ch) = false -> Inv (snd (p st ch))) ->
  (forall st ch, Inv st -> fst (p st ch) = true -> fst (p p0 ch) = true) ->
  Inv p0 ->
  (b <= e <= length text)%nat ->
  let r := search_range text b e p p0 in
  (b <= fst r <= e)%nat /\ (fst r <= snd r <= e)%nat /\
  (fst r <> e -> (fst r < snd r)%nat).
Proof.
  intros Hinv Hacc H0 Hbe. unfold search_range.
  pose proof (find_if_bounds p (between text b e) p0 b) as Hb.
  rewrite between_length in Hb by lia.
  set (b' := find_if p p0 (between text b e) b) in *.
  destruct (Nat.eqb_spec b' e) as [E|E]; simpl; [lia|].
  pose proof (find_if_bounds (not1 p) (between text b' e) p0 b') as Hb'.
  rewrite between_length in Hb' by lia.
  split; [lia|]. split; [lia|]. intros _.
  destruct (find_if_accepts p Inv Hinv (between text b e) p0 b H0)
    as (ch & st' & Hl & Hi & Ha).
  { rewrite between_length by lia. fold b'. lia. }
  fold b' in Hl. rewrite between_lookup in Hl by lia.
  replace (b + (b' - b))%nat with b' in Hl by lia.
  assert (Hhd : between text b' e !! 0%nat = Some ch).
  { rewrite between_lookup by lia. now rewrite Nat.add_0_r. }
  destruct (between text b' e) as [|c rest]; [discriminate|].
  injection Hhd as ->. cbn [find_if]. unfold not1 at 1.
  specialize (Hacc st' ch Hi Ha).
  destruct (p p0 ch) as [r st'']. simpl in Hacc. subst r. simpl.
  pose proof (find_if_bounds (not1 p) rest st'' (S b')). lia.
Qed.

Lemma match_number_rejects (st : match_number) (ch : ascii) :
  fst (match_number_call st ch) = false ->
  snd (match_number_call st ch) = match_number_new.
Proof.
  unfold match_number_call.
  repeat match goal with
         | |- context [if ?b then _ else _] => destruct b
         end; simpl; intros H; (reflexivity || discriminate).
Qed.

Lemma match_name_rejects (st : match_name) (ch : ascii) :
  fst (match_name_call st ch) = false ->
  name_cnt_ (snd (match_name_call st ch)) = -1.
Proof.
  unfold match_name_call.
  destruct (if (name_cnt_ st + 1 =? 0) && is_E ch then _ else _)
    as [nb mn].
  repeat match goal with
         | |- context [if ?b then _ else _] => destruct b
         end; simpl; intros H; (reflexivity || discriminate).
Qed.

Lemma match_name_starts (st : match_name) (ch : ascii) :
  name_cnt_ st = -1 ->
  fst (match_name_call st ch) = true ->
  fst (match_name_call match_name_new ch) = true.
Proof.
  intros Hc H.
  assert (L : in_range 97 122 ch || in_range 65 90 ch
              || Ascii.eqb ch "_"%char = true).
  { unfold match_name_call in H. rewrite Hc in H.
    destruct (if (-1 + 1 =? 0) && is_E ch then _ else _) as [nb mn].
    destruct nb; [discriminate|].
    destruct (in_range 97 122 ch); [reflexivity|].
    destruct (in_range 65 90 ch); [reflexivity|].
    destruct (Ascii.eqb ch "_"%char); [reflexivity|].
    rewrite andb_false_r in H. discriminate. }
  clear H Hc st.
  destruct ch as [[|] [|] [|] [|] [|] [|] [|] [|]];
    first [discriminate L | reflexivity].
Qed.

Lemma search_range_name (text : list ascii) (b e : nat) :
  (b <= e <= length text)%nat ->
  let r := search_range text b e match_name_call match_name_new in
  (b <= fst r <= e)%nat /\ (fst r <= snd r <= e)%nat /\
  (fst r <> e -> (fst r < snd r)%nat).
Proof.
  apply (search_range_progress match_name_call match_name_new
           (fun st => name_cnt_ st = -1)).
  - intros st ch _. apply match_name_rejects.
  - intros st ch. apply match_name_starts.
  - reflexivity.
Qed.

Lemma search_range_number (text : list ascii) (b e : nat) :
  (b <= e <= length text)%nat ->
  let r := search_range text b e match_number_call match_number_new in
  (b <= fst r <= e)%nat /\ (fst r <= snd r <= e)%nat /\
  (fst r <> e -> (fst r < snd r)%nat).
Proof.
  apply (search_range_progress match_number_call match_number_new
           (fun st => st = match_number_new)).
  - intros st ch _. apply match_number_rejects.
  - now intros st ch ->.
  - reflexivity.
Qed.

Variable operators_ : list operator_type.
Variables count_args_ debug_ : bool.

(** [search_name] returns: each call it makes to itself starts further to
    the right. *)
Lemma search_name_returns (text : list ascii) (e : nat) (fuel : nat) :
  forall b : nat,
    (b <= e <= length text)%nat -> (e - b < fuel)%nat ->
    exists r, search_name operators_ fuel text b e = Ok r.
Proof.
  induction fuel as [|fuel IH]; intros b Hbe Hf; [lia|].
  cbn [search_name].
  destruct (search_range_name text b e Hbe) as (H1 & H2 & H3).
  set (r := search_range text b e match_name_call match_name_new) in *.
  destruct (Nat.eqb_spec (fst r) e) as [E|E]; [now exists r|].
  specialize (H3 E).
  assert (Hrec : exists r', search_name operators_ fuel text (snd r) e
                            = Ok r') by (apply IH; lia).
  destruct ((snd r =? e)%nat || _); [|exact Hrec].
  destruct (is_operator _ _); [exact Hrec|]. eauto.
Qed.

(** [search_number] returns or throws, for the same reason. *)
Lemma search_number_returns (text : list ascii) (e start : nat)
  (fuel : nat) :
  forall b : nat,
    (b <= e <= length text)%nat -> (e - b < fuel)%nat ->
    search_number operators_ fuel text b e start <> OutOfFuel /\
    forall u, search_number operators_ fuel text b e start <> Undefined u.
Proof.
  induction fuel as [|fuel IH]; intros b Hbe Hf; [lia|].
  cbn [search_number].
  destruct (Nat.eqb_spec b e) as [Eb|Eb]; [split; [|intros u]; discriminate|].
  destruct (search_range_number text b e Hbe) as (H1 & H2 & H3).
  set (r := search_range text b e match_number_call match_number_new) in *.
  destruct (Nat.eqb_spec (fst r) e) as [E|E];
    [split; [|intros u]; discriminate|].
  specialize (H3 E).
  assert (Hrec : search_number operators_ fuel text (snd r) e start
                 <> OutOfFuel /\
                 forall u, search_number operators_ fuel text (snd r) e start
                           <> Undefined u) by (apply IH; lia).
  destruct (search_name_returns text e (S (length text)) (snd r))
    as [rn ->]; [lia | lia |].
  destruct (search_name_returns text e (S (length text)) (pred (fst r)))
    as [v ->]; [lia | lia |].
  repeat match goal with
         | |- context [if ?c then _ else _] => destruct c
         end;
    first [exact Hrec | split; [|intros u]; discriminate].
Qed.

Lemma plain_token_returns (s : string) :
  plain_token operators_ count_args_ s <> OutOfFuel /\
  forall u, plain_token operators_ count_args_ s <> Undefined u.
Proof.
  unfold plain_token.
  set (text := list_ascii_of_string s).
  destruct (search_number_returns text (length text) 0 (S (length text)) 0)
    as [Hn Hu]; [lia | lia |].
  destruct (search_name_returns text (length text) (S (length text)) 0)
    as [r ->]; [lia | lia |].
  destruct (search_number operators_ (S (length text)) text 0 (length text) 0)
    as [rn|x|u|]; try (split; [|intros u']; discriminate).
  - repeat match goal with
           | |- context [if ?c then _ else _] => destruct c
           end; (split; [|intros ?]; discriminate).
  - now elim (Hu u).
  - now elim Hn.
Qed.

Lemma create_token_returns (s : string) :
  create_token operators_ count_args_ s <> OutOfFuel /\
  forall u, create_token operators_ count_args_ s <> Undefined u.
Proof.
  unfold create_token. pose proof (plain_token_returns s) as Hp.
  destruct count_args_.
  - destruct (find_char "["%char (list_ascii_of_string s) 0) as [i|];
      [|exact Hp].
    destruct (find_char "]"%char (list_ascii_of_string s) i);
      (split; [|intros ?]; discriminate).
  - destruct (is_operator operators_ s); [|exact Hp].
    split; [|intros u]; discriminate.
Qed.

Lemma push_token_returns (s : string) (tokens_ : list token) :
  push_token operators_ count_args_ debug_ s tokens_ <> OutOfFuel.
Proof.
  unfold push_token. destruct (create_token_returns s) as [H _].
  destruct (create_token operators_ count_args_ s) as [[t|]| | |];
    try discriminate; [| |now elim H]; destruct debug_; discriminate.
Qed.

(** Reading a word: the stream does not grow, and it shrinks when a word
    is read. *)
Lemma span_length (p : ascii -> bool) (l : list ascii) :
  (length (fst (span p l)) + length (snd (span p l)))%nat = length l.
Proof.
  induction l as [|c l IH]; simpl; [reflexivity|].
  destruct (p c); [|reflexivity].
  destruct (span p l) as [w r]. simpl in *. lia.
Qed.

Lemma skip_space_length (l : list ascii) :
  (length (skip_space l) <= length l)%nat.
Proof.
  induction l as [|c l IH]; simpl; [lia|].
  destruct (is_space c); simpl; lia.
Qed.

Lemma skip_space_head (l : list ascii) (c : ascii) (rest : list ascii) :
  skip_space l = c :: rest -> is_space c = false.
Proof.
  induction l as [|c0 l IH]; simpl; [discriminate|].
  destruct (is_space c0) eqn:E; [exact IH|]. now intros [= <- _].
Qed.

Lemma extract_string_shrinks (ist : istringstream) (s : list ascii) :
  let r := extract_string ist s in
  (length (buf (snd r)) <= length (buf ist))%nat /\
  (fst r = s \/ (length (buf (snd r)) < length (buf ist))%nat).
Proof.
  unfold extract_string.
  destruct (negb (good ist)); [simpl; split; [lia | now left]|].
  pose proof (skip_space_length (buf ist)) as Hs.
  destruct (skip_space (buf ist)) as [|c rest] eqn:E;
    [simpl; split; [lia | now left]|].
  pose proof (span_length (fun ch => negb (is_space ch)) (c :: rest)) as Hl.
  pose proof (skip_space_head _ _ _ E) as Hc.
  cbn [span] in *. rewrite Hc in *. cbn [negb] in *.
  destruct (span (fun ch => negb (is_space ch)) rest) as [w r].
  simpl in *. split; [lia|]. right. lia.
Qed.

Lemma gather_shrinks (fuel : nat) :
  forall (ist : istringstream) (s2 : list ascii) (sv : list (list ascii)),
    (length (buf (snd (gather fuel ist s2 sv))) <= length (buf ist))%nat.
Proof.
  induction fuel as [|fuel IH]; intros ist s2 sv; simpl; [lia|].
  destruct (negb (failbit ist) && negb (last_is "]"%char s2)); simpl; [|lia].
  pose proof (extract_string_shrinks ist s2) as [H _].
  destruct (extract_string ist s2) as [s2' ist']. simpl in H.
  specialize (IH ist' s2' (if good ist' then sv ++ [s2'] else sv)). lia.
Qed.

(** The inner loops are run to their end: once a stream has failed they
    stop, and until then each turn shortens what is left to read. *)
Lemma extract_string_fails (ist : istringstream) (s : list ascii) :
  let r := extract_string ist s in
  failbit (snd r) = true \/ (length (buf (snd r)) < length (buf ist))%nat.
Proof.
  unfold extract_string.
  destruct (negb (good ist)); [now left|].
  pose proof (skip_space_length (buf ist)) as Hs.
  destruct (skip_space (buf ist)) as [|c rest] eqn:E; [now left|].
  pose proof (span_length (fun ch => negb (is_space ch)) (c :: rest)) as Hl.
  pose proof (skip_space_head _ _ _ E) as Hc.
  cbn [span] in *. rewrite Hc in *. cbn [negb] in *.
  destruct (span (fun ch => negb (is_space ch)) rest) as [w r].
  simpl in *. right. lia.
Qed.

Lemma gather_fuel (fuel : nat) :
  forall (fuel' : nat) (ist : istringstream) (s2 : list ascii)
         (sv : list (list ascii)),
    (failbit ist = true \/ length (buf ist) < fuel)%nat ->
    (failbit ist = true \/ length (buf ist) < fuel')%nat ->
    gather fuel ist s2 sv = gather fuel' ist s2 sv.
Proof.
  induction fuel as [|fuel IH]; intros [|fuel'] ist s2 sv H H';
    cbn [gather].
  - reflexivity.
  - destruct H as [->|H]; [reflexivity | lia].
  - destruct H' as [->|H']; [reflexivity | lia].
  - destruct (negb (failbit ist) && negb (last_is "]"%char s2)) eqn:E;
      [|reflexivity].
    apply andb_prop in E as [E _]. apply negb_true_iff in E.
    destruct H as [H|H]; [congruence|].
    destruct H' as [H'|H']; [congruence|].
    pose proof (extract_string_fails ist s2) as Hx.
    destruct (extract_string ist s2) as [s2' ist']. simpl in Hx.
    apply IH; destruct Hx as [Hx|Hx]; (now left) || (right; lia).
Qed.

Lemma create_tokens_loop_returns (fuel : nat) :
  forall (ist : istringstream) (tokens_ : list token),
    (length (buf ist) < fuel)%nat ->
    create_tokens_loop operators_ count_args_ debug_ fuel ist tokens_
    <> OutOfFuel.
Proof.
  induction fuel as [|fuel IH]; intros ist tokens_ Hf; [lia|].
  cbn [create_tokens_loop].
  destruct (failbit ist); [discriminate|].
  pose proof (extract_string_shrinks ist []) as [H1 H2].
  destruct (extract_string ist []) as [s ist1]. simpl in H1, H2.
  destruct s as [|c s]; [discriminate|].
  destruct H2 as [H2|H2]; [discriminate|]. cbn [is_nil].
  pose proof (gather_shrinks (S (length (buf ist1))) ist1 [" "%char] [])
    as Hg.
  destruct (count_args_ && contains "["%char (c :: s)
            && negb (last_is "]"%char (c :: s))).
  - destruct (gather (S (length (buf ist1))) ist1 [" "%char] [])
      as [sv ist2]. simpl in Hg.
    pose proof (push_token_returns
                  (string_of_list_ascii (join (c :: s) sv)) tokens_) as Hp.
    destruct (push_token _ _ _ _ tokens_) as [tokens'| | |];
      try discriminate; [|now elim Hp].
    apply IH. lia.
  - pose proof (push_token_returns
                  (string_of_list_ascii (c :: s)) tokens_) as Hp.
    destruct (push_token _ _ _ _ tokens_) as [tokens'| | |];
      try discriminate; [|now elim Hp].
    apply IH. lia.
Qed.

Lemma create_tokens_loop_fuel (fuel : nat) :
  forall (fuel' : nat) (ist : istringstream) (tokens_ : list token),
    (length (buf ist) < fuel)%nat -> (length (buf ist) < fuel')%nat ->
    create_tokens_loop operators_ count_args_ debug_ fuel ist tokens_
    = create_tokens_loop operators_ count_args_ debug_ fuel' ist tokens_.
Proof.
  induction fuel as [|fuel IH]; intros [|fuel'] ist tokens_ Hf Hf';
    try lia.
  cbn [create_tokens_loop].
  destruct (failbit ist); [reflexivity|].
  pose proof (extract_string_shrinks ist []) as [H1 H2].
  destruct (extract_string ist []) as [s ist1]. simpl in H1, H2.
  destruct s as [|c s]; [reflexivity|].
  destruct H2 as [H2|H2]; [discriminate|]. cbn [is_nil].
  pose proof (gather_shrinks (S (length (buf ist1))) ist1 [" "%char] [])
    as Hg.
  destruct (count_args_ && contains "["%char (c :: s)
            && negb (last_is "]"%char (c :: s))).
  - destruct (gather (S (length (buf ist1))) ist1 [" "%char] [])
      as [sv ist2]. simpl in Hg.
    destruct (push_token _ _ _ _ tokens_) as [tokens'| | |];
      try reflexivity.
    apply IH; lia.
  - destruct (push_token _ _ _ _ tokens_) as [tokens'| | |];
      try reflexivity.
    apply IH; lia.
Qed.

End TokeniserTermination.

(** X12.  The tokeniser returns on every text, for every table of
    operators and whatever the options: it yields the tokens or fails
    with an exception or on the null token of the debug output, and it
    does not loop.  Each call that [search_name] and [search_number] make
    to themselves starts further to the right, because a matcher that has
    rejected characters accepts no more than a new one does, and each turn
    of the loop of [create_tokens] consumes a word.  More turns than the
    text has characters change nothing. *)
Theorem create_tokens_returns (operators_ : list operator_type)
  (count_args_ debug_ : bool) (expr_ : string) :
  create_tokens operators_ count_args_ debug_ expr_ <> OutOfFuel /\
  forall fuel : nat,
    (length (c_str (list_ascii_of_string expr_)) < fuel)%nat ->
    create_tokens_loop operators_ count_args_ debug_ fuel
      (istringstream_new (c_str (list_ascii_of_string expr_))) []
    = create_tokens operators_ count_args_ debug_ expr_.
Proof.
  unfold create_tokens. split.
  - apply create_tokens_loop_returns. simpl. lia.
  - intros fuel Hf. apply create_tokens_loop_fuel; simpl; lia.
Qed.



(** ** The tokeniser splits the text at the blanks *)

Section TokeniserWords.

Variable operators_ : list operator_type.
Variables count_args_ debug_ : bool.

Lemma list_ascii_of_string_app (s1 s2 : string) :
  list_ascii_of_string (s1 ++ s2)
  = list_ascii_of_string s1 ++ list_ascii_of_string s2.
Proof.
  induction s1 as [|c s1 IH]; simpl; [reflexivity | now rewrite IH].
Qed.

Lemma c_str_no_nul (l : list ascii) :
  forallb (fun ch => negb (Ascii.eqb ch Ascii.zero)) l = true ->
  c_str l = l.
Proof.
  induction l as [|c l IH]; simpl; [reflexivity|].
  intros H. apply andb_prop in H as [Hc Hl].
  apply negb_true_iff in Hc. rewrite Hc. now rewrite IH.
Qed.

Lemma span_word (w rest : list ascii) :
  forallb (fun ch => negb (is_space ch)) w = true ->
  span (fun ch => negb (is_space ch)) (w ++ " "%char :: rest)
  = (w, " "%char :: rest).
Proof.
  induction w as [|c w IH]; simpl; [reflexivity|].
  intros H. apply andb_prop in H as [Hc Hw].
  rewrite Hc. now rewrite IH.
Qed.

Lemma skip_space_spaces (pre rest : list ascii) :
  forallb is_space pre = true ->
  skip_space (pre ++ rest) = skip_space rest.
Proof.
  induction pre as [|c pre IH]; simpl; [reflexivity|].
  intros H. apply andb_prop in H as [Hc Hp]. rewrite Hc. now apply IH.
Qed.

(** Reading the next word of a stream that has not failed. *)
Lemma extract_string_word (pre w rest s : list ascii) :
  forallb is_space pre = true ->
  w <> [] ->
  forallb (fun ch => negb (is_space ch)) w = true ->
  extract_string (IStringStream (pre ++ w ++ " "%char :: rest) false false) s
  = (w, IStringStream (" "%char :: rest) false false).
Proof.
  intros Hp Hne Hw. unfold extract_string. simpl.
  rewrite skip_space_spaces by exact Hp.
  destruct w as [|c w]; [contradiction|].
  simpl in Hw. apply andb_prop in Hw as [Hc Hw].
  simpl. apply negb_true_iff in Hc. rewrite Hc.
  simpl. rewrite Hc. simpl. now rewrite (span_word w rest Hw).
Qed.

Lemma forallb_both {A} (p q : A -> bool) (l : list A) :
  forallb (fun x => p x && q x) l = true ->
  forallb p l = true /\ forallb q l = true.
Proof.
  induction l as [|c l IH]; simpl; [now split|].
  intros H. apply andb_prop in H as [Hc Hl].
  apply andb_prop in Hc as [-> ->]. now apply IH.
Qed.

Lemma is_word_chars (w : string) :
  is_word w = true ->
  list_ascii_of_string w <> [] /\
  forallb (fun ch => negb (is_space ch)) (list_ascii_of_string w) = true /\
  forallb (fun ch => negb (Ascii.eqb ch Ascii.zero)) (list_ascii_of_string w)
  = true.
Proof.
  unfold is_word. intros H. apply andb_prop in H as [Hn Hf].
  split; [now destruct (list_ascii_of_string w)|].
  now apply forallb_both.
Qed.

Lemma create_tokens_loop_words (ws : list string) :
  forall (pre : list ascii) (tokens_ : list token) (fuel : nat),
    forallb is_space pre = true ->
    forallb (taken_alone count_args_) ws = true ->
    (length (pre ++ list_ascii_of_string (blank_ended ws)) < fuel)%nat ->
    create_tokens_loop operators_ count_args_ debug_ fuel
      (IStringStream (pre ++ list_ascii_of_string (blank_ended ws))
         false false)
      tokens_
    = push_tokens operators_ count_args_ debug_ ws tokens_.
Proof.
  induction ws as [|w ws IH]; intros pre tokens_ fuel Hp Hw Hf;
    (destruct fuel as [|fuel]; [lia|]); cbn [create_tokens_loop failbit].
  - simpl. rewrite app_nil_r. unfold extract_string. simpl.
    rewrite <- (app_nil_r pre), skip_space_spaces by exact Hp.
    reflexivity.
  - cbn [forallb] in Hw. apply andb_prop in Hw as [Hw Hws].
    unfold taken_alone in Hw. apply andb_prop in Hw as [Hw Ha].
    destruct (is_word_chars w Hw) as (Hne & Hsp & _).
    cbn [blank_ended fold_right] in *.
    fold (blank_ended ws) in *.
    rewrite !list_ascii_of_string_app in *. cbn [list_ascii_of_string] in *.
    cbn [app] in *.
    rewrite (extract_string_word pre _ _ [] Hp Hne Hsp).
    destruct (list_ascii_of_string w) as [|c lw] eqn:E; [contradiction|].
    cbn [is_nil].
    replace (count_args_ && contains "["%char (c :: lw)
             && negb (last_is "]"%char (c :: lw))) with false.
    2:{ destruct count_args_; [|reflexivity]. simpl in *.
        destruct (contains "["%char (c :: lw)); [|reflexivity].
        simpl in *. now rewrite Ha. }
    rewrite <- E, string_of_list_ascii_of_string. cbn [push_tokens].
    destruct (push_token operators_ count_args_ debug_ w tokens_)
      as [tokens'| | |]; try reflexivity.
    apply (IH [" "%char] tokens' fuel); [reflexivity | exact Hws |].
    rewrite !length_app in *. simpl in *. lia.
Qed.

Lemma blank_ended_chars (ws : list string) :
  forallb (taken_alone count_args_) ws = true ->
  forallb (fun ch => negb (Ascii.eqb ch Ascii.zero))
    (list_ascii_of_string (blank_ended ws)) = true.
Proof.
  induction ws as [|w ws IH]; simpl; [reflexivity|].
  intros H. apply andb_prop in H as [Hw Hws].
  unfold taken_alone in Hw. apply andb_prop in Hw as [Hw _].
  destruct (is_word_chars w Hw) as (_ & _ & Hz).
  rewrite list_ascii_of_string_app, forallb_app, Hz. simpl.
  now apply IH.
Qed.

End TokeniserWords.

(** X13.  On a text of words, each followed by a blank, [create_tokens]
    is [create_token] on each word in turn: the tokens are those of the
    words, in the order of the words, and the first word that fails ends
    the run with its failure.  A word is any text without white space; with
    [count_args] a word that opens an annotation also closes it. *)
Theorem create_tokens_words (operators_ : list operator_type)
  (count_args_ debug_ : bool) (ws : list string) :
  forallb (taken_alone count_args_) ws = true ->
  create_tokens operators_ count_args_ debug_ (blank_ended ws)
  = push_tokens operators_ count_args_ debug_ ws [].
Proof.
  intros Hw. unfold create_tokens.
  rewrite (c_str_no_nul _ (blank_ended_chars count_args_ ws Hw)).
  apply (create_tokens_loop_words operators_ count_args_ debug_ ws []);
    [reflexivity | exact Hw | simpl; lia].
Qed.



(** ** The kinds of words *)

Section TokeniserClasses.

Variable operators_ : list operator_type.
Variable count_args_ : bool.

Lemma between_all (text : list ascii) :
  between text 0 (length text) = text.
Proof.
  unfold between. rewrite Nat.sub_0_r, drop_0. apply firstn_all.
Qed.

Lemma between_nil (text : list ascii) (e : nat) : between text e e = [].
Proof. unfold between. now rewrite Nat.sub_diag. Qed.

Lemma between_app_r (a d : list ascii) :
  between (a ++ d) (length a) (length (a ++ d)) = d.
Proof.
  unfold between. rewrite drop_app_length, length_app.
  replace (length a + length d - length a)%nat with (length d) by lia.
  apply firstn_all.
Qed.

Lemma text_of_all (s : string) :
  text_of (list_ascii_of_string s) 0 (length (list_ascii_of_string s)) = s.
Proof.
  unfold text_of. rewrite between_all. apply string_of_list_ascii_of_string.
Qed.

(** The number matcher on digits and on letters. *)
Lemma match_number_digit (st : match_number) (ch : ascii) :
  is_digit ch = true -> fst (match_number_call st ch) = true.
Proof. intros H. unfold match_number_call. now rewrite H. Qed.

Lemma match_number_alpha (ch : ascii) :
  is_alpha ch = true ->
  match_number_call match_number_new ch = (false, match_number_new).
Proof.
  intros H.
  destruct ch as [[|] [|] [|] [|] [|] [|] [|] [|]];
    first [discriminate H | reflexivity].
Qed.

Lemma find_if_not1_digits (d : list ascii) :
  forall (st : match_number) (first : nat),
    forallb is_digit d = true ->
    find_if (not1 match_number_call) st d first = (first + length d)%nat.
Proof.
  induction d as [|c d IH]; intros st first H; simpl; [lia|].
  apply andb_prop in H as [Hc Hd].
  pose proof (match_number_digit st c Hc) as Ha. unfold not1 at 1.
  destruct (match_number_call st c) as [r st']. simpl in Ha. subst r.
  simpl. rewrite IH by exact Hd. lia.
Qed.

Lemma find_if_number_alphas (a : list ascii) :
  forall (rest : list ascii) (first : nat),
    forallb is_alpha a = true ->
    find_if match_number_call match_number_new (a ++ rest) first
    = find_if match_number_call match_number_new rest (first + length a).
Proof.
  induction a as [|c a IH]; intros rest first H; simpl.
  - now rewrite Nat.add_0_r.
  - apply andb_prop in H as [Hc Ha].
    rewrite (match_number_alpha c Hc). rewrite IH by exact Ha.
    f_equal. lia.
Qed.

(** The name matcher on letters and digits. *)
Lemma match_name_alpha (ch : ascii) :
  is_alpha ch = true ->
  fst (match_name_call match_name_new ch) = true /\
  name_cnt_ (snd (match_name_call match_name_new ch)) = 0.
Proof.
  intros H.
  destruct ch as [[|] [|] [|] [|] [|] [|] [|] [|]];
    first [discriminate H | split; reflexivity].
Qed.

Lemma match_name_inside (st : match_name) (ch : ascii) :
  0 <= name_cnt_ st ->
  is_alpha ch || is_digit ch = true ->
  fst (match_name_call st ch) = true /\
  0 <= name_cnt_ (snd (match_name_call st ch)).
Proof.
  intros Hc H. unfold match_name_call.
  replace (name_cnt_ st + 1 =? 0) with false by (symmetry; lia).
  replace (0 <? name_cnt_ st + 1) with true by (symmetry; lia).
  cbn [andb]. unfold is_alpha in H.
  destruct (in_range 97 122 ch); [simpl; split; [reflexivity | lia]|].
  destruct (in_range 65 90 ch); [simpl; split; [reflexivity | lia]|].
  destruct (Ascii.eqb ch "_"%char); [simpl; split; [reflexivity | lia]|].
  simpl in H. rewrite H. simpl. split; [reflexivity | lia].
Qed.

Lemma find_if_not1_name (l : list ascii) :
  forall (st : match_name) (first : nat),
    0 <= name_cnt_ st ->
    forallb (fun ch => is_alpha ch || is_digit ch) l = true ->
    find_if (not1 match_name_call) st l first = (first + length l)%nat.
Proof.
  induction l as [|c l IH]; intros st first Hc H; simpl; [lia|].
  apply andb_prop in H as [Hch Hl].
  destruct (match_name_inside st c Hc Hch) as [Ha Hn]. unfold not1 at 1.
  destruct (match_name_call st c) as [r st']. simpl in Ha, Hn. subst r.
  simpl. rewrite IH by assumption. lia.
Qed.

Lemma alnum_not_bracket (ch : ascii) :
  is_alpha ch || is_digit ch = true -> Ascii.eqb ch "["%char = false.
Proof.
  intros H.
  destruct ch as [[|] [|] [|] [|] [|] [|] [|] [|]];
    first [discriminate H | reflexivity].
Qed.

Lemma find_char_none (l : list ascii) :
  forallb (fun ch => is_alpha ch || is_digit ch) l = true ->
  find_char "["%char l 0 = None.
Proof.
  induction l as [|c l IH]; simpl; [reflexivity|].
  intros H. apply andb_prop in H as [Hc Hl].
  rewrite (alnum_not_bracket c Hc). now rewrite IH.
Qed.

Lemma search_range_empty {St} (p : St -> ascii -> bool * St) (p0 : St)
  (text : list ascii) (e : nat) :
  search_range text e e p p0 = (e, e).
Proof.
  unfold search_range. rewrite between_nil. simpl. now rewrite Nat.eqb_refl.
Qed.

Lemma search_name_empty (fuel : nat) (text : list ascii) (e : nat) :
  search_name operators_ (S fuel) text e e = Ok (e, e).
Proof.
  cbn [search_name]. rewrite search_range_empty. simpl.
  now rewrite Nat.eqb_refl.
Qed.

Lemma search_number_empty (fuel : nat) (text : list ascii) (e start : nat) :
  search_number operators_ (S fuel) text e e start = Ok (e, e).
Proof. cbn [search_number]. now rewrite Nat.eqb_refl. Qed.

Lemma search_range_number_digits (text : list ascii) :
  text <> [] -> forallb is_digit text = true ->
  search_range text 0 (length text) match_number_call match_number_new
  = (0%nat, length text).
Proof.
  intros Hne Hd. unfold search_range. rewrite between_all.
  destruct text as [|c l]; [contradiction|].
  assert (E : find_if match_number_call match_number_new (c :: l) 0 = 0%nat).
  { simpl. simpl in Hd. apply andb_prop in Hd as [Hc _].
    pose proof (match_number_digit match_number_new c Hc) as Ha.
    destruct (match_number_call match_number_new c) as [r st'].
    simpl in Ha. now subst r. }
  rewrite E. cbn [Nat.eqb length]. rewrite between_all.
  now rewrite find_if_not1_digits.
Qed.

Lemma plain_token_digits (s : string) :
  list_ascii_of_string s <> [] ->
  forallb is_digit (list_ascii_of_string s) = true ->
  plain_token operators_ count_args_ s = Ok (Some (value_token s)).
Proof.
  intros Hne Hd. unfold plain_token.
  set (text := list_ascii_of_string s) in *.
  assert (He : (0 =? length text)%nat = false)
    by (destruct text; [contradiction | reflexivity]).
  cbn [search_number]. rewrite He.
  rewrite (search_range_number_digits text Hne Hd). cbn [fst snd].
  rewrite He, search_name_empty. cbn [fst snd].
  rewrite !Nat.eqb_refl. cbn [andb negb fst]. now rewrite He.
Qed.

Lemma search_range_fst {St} (p : St -> ascii -> bool * St) (p0 : St)
  (text : list ascii) (b e : nat) :
  fst (search_range text b e p p0) = find_if p p0 (between text b e) b.
Proof.
  unfold search_range.
  destruct (Nat.eqb_spec (find_if p p0 (between text b e) b) e) as [E|E];
    simpl; congruence.
Qed.

Lemma find_if_head {St} (p : St -> ascii -> bool * St) (st : St)
  (c : ascii) (l : list ascii) (first : nat) :
  fst (p st c) = true -> find_if p st (c :: l) first = first.
Proof.
  intros H. simpl. destruct (p st c) as [r st']. simpl in H. now subst r.
Qed.

Lemma between_last (a' : list ascii) (x : ascii) (d : list ascii) :
  between ((a' ++ [x]) ++ d) (length a') (length ((a' ++ [x]) ++ d))
  = x :: d.
Proof.
  rewrite <- app_assoc. simpl. apply (between_app_r a' (x :: d)).
Qed.

(** No number is found in letters followed by digits. *)
Lemma search_number_name (a d : list ascii) :
  a <> [] ->
  forallb is_alpha a = true -> forallb is_digit d = true ->
  search_number operators_ (S (length (a ++ d))) (a ++ d) 0
    (length (a ++ d)) 0
  = Ok (length (a ++ d), length (a ++ d)).
Proof.
  intros Hne Ha Hd.
  assert (Hpos : (0 < length a)%nat)
    by (destruct a; [contradiction | simpl; lia]).
  assert (He : (0 =? length (a ++ d))%nat = false)
    by (apply Nat.eqb_neq; rewrite length_app; lia).
  cbn [search_number]. rewrite He.
  destruct d as [|c d'].
  - assert (Er : search_range (a ++ []) 0 (length (a ++ []))
                   match_number_call match_number_new
                 = (length (a ++ []), length (a ++ []))).
    { unfold search_range. rewrite between_all.
      rewrite find_if_number_alphas by exact Ha. simpl.
      rewrite app_nil_r. now rewrite Nat.eqb_refl. }
    rewrite Er. cbn [fst]. now rewrite Nat.eqb_refl.
  - set (text := a ++ c :: d') in *. set (e := length text) in *.
    assert (Hlen : e = (length a + S (length d'))%nat)
      by (unfold e, text; rewrite length_app; reflexivity).
    cbn [forallb] in Hd. apply andb_prop in Hd as [Hc Hd'].
    assert (Er : search_range text 0 e match_number_call match_number_new
                 = (length a, e)).
    { unfold search_range, e. rewrite between_all. unfold text.
      rewrite find_if_number_alphas by exact Ha.
      rewrite find_if_head by now apply match_number_digit.
      simpl (0 + length a)%nat. fold text. fold e.
      replace (length a =? e)%nat with false
        by (symmetry; apply Nat.eqb_neq; lia).
      unfold e, text. rewrite between_app_r.
      rewrite find_if_not1_digits by (simpl; now rewrite Hc, Hd').
      simpl. rewrite length_app. reflexivity. }
    rewrite Er. cbn [fst snd].
    replace (length a =? e)%nat with false
      by (symmetry; apply Nat.eqb_neq; lia).
    rewrite search_name_empty. cbn [fst snd].
    rewrite Nat.eqb_refl. cbn [andb negb].
    replace (length a =? 0)%nat with false
      by (symmetry; apply Nat.eqb_neq; lia).
    rewrite search_range_fst.
    destruct (exists_last Hne) as (a' & x & Ea).
    assert (Hx : is_alpha x = true).
    { rewrite Ea, forallb_app in Ha. apply andb_prop in Ha as [_ Hx].
      simpl in Hx. now rewrite andb_true_r in Hx. }
    assert (Hp : pred (length a) = length a')
      by (rewrite Ea, length_app; simpl; lia).
    rewrite Hp. unfold e, text. rewrite Ea, between_last.
    rewrite find_if_head by (now apply match_name_alpha).
    replace (length a' =? length ((a' ++ [x]) ++ c :: d'))%nat with false
      by (symmetry; apply Nat.eqb_neq; rewrite !length_app; simpl; lia).
    cbn [negb].
    destruct (length ((a' ++ [x]) ++ c :: d')) as [|n] eqn:En;
      [rewrite !length_app in En; simpl in En; lia|].
    apply search_number_empty.
Qed.

(** The name matcher accepts letters followed by digits to the end. *)
Lemma search_range_name_word (a d : list ascii) :
  a <> [] ->
  forallb is_alpha a = true -> forallb is_digit d = true ->
  search_range (a ++ d) 0 (length (a ++ d)) match_name_call match_name_new
  = (0%nat, length (a ++ d)).
Proof.
  intros Hne Ha Hd. unfold search_range. rewrite between_all.
  destruct a as [|c a]; [contradiction|].
  cbn [forallb] in Ha. apply andb_prop in Ha as [Hc Ha].
  destruct (match_name_alpha c Hc) as [Hacc Hcnt].
  change ((c :: a) ++ d) with (c :: (a ++ d)).
  rewrite find_if_head by exact Hacc.
  rewrite (between_all (c :: a ++ d)). cbn [length Nat.eqb].
  cbn [find_if]. unfold not1 at 1.
  destruct (match_name_call match_name_new c) as [r st'].
  simpl in Hacc, Hcnt. subst r. cbn [negb].
  rewrite find_if_not1_name; [reflexivity | lia |].
  rewrite forallb_app. apply andb_true_intro. split.
  - clear -Ha. induction a as [|x a IH]; simpl in *; [reflexivity|].
    apply andb_prop in Ha as [-> Ha]. simpl. now apply IH.
  - clear -Hd. induction d as [|x d IH]; simpl in *; [reflexivity|].
    apply andb_prop in Hd as [-> Hd]. rewrite orb_true_r. now apply IH.
Qed.

Lemma plain_token_name (s : string) (a d : list ascii) :
  list_ascii_of_string s = a ++ d ->
  a <> [] ->
  forallb is_alpha a = true -> forallb is_digit d = true ->
  is_operator operators_ s = false ->
  plain_token operators_ count_args_ s = Ok (Some (name_token s)).
Proof.
  intros Es Hne Ha Hd Hop. unfold plain_token.
  pose proof (text_of_all s) as Ht. rewrite Es in *.
  assert (He : (0 =? length (a ++ d))%nat = false).
  { apply Nat.eqb_neq. rewrite length_app.
    destruct a; [contradiction | simpl; lia]. }
  rewrite (search_number_name a d Hne Ha Hd). cbn [fst].
  rewrite Nat.eqb_refl. cbn [negb].
  cbn [search_name]. rewrite (search_range_name_word a d Hne Ha Hd).
  cbn [fst snd]. rewrite He, Nat.eqb_refl. cbn [orb].
  rewrite Ht, Hop. cbn [fst]. now rewrite He.
Qed.

(** A digit followed by a letter. *)
Lemma alpha_not_number (ch : ascii) :
  is_alpha ch = true -> is_E ch = false ->
  is_digit ch = false /\ Ascii.eqb ch "."%char = false /\
  Ascii.eqb ch "+"%char = false /\ Ascii.eqb ch "-"%char = false.
Proof.
  intros H HE.
  destruct ch as [[|] [|] [|] [|] [|] [|] [|] [|]];
    first [discriminate H | discriminate HE | now repeat split].
Qed.

Lemma match_number_letter (st : match_number) (ch : ascii) :
  is_alpha ch = true -> is_E ch = false ->
  fst (match_number_call st ch) = false.
Proof.
  intros H HE. destruct (alpha_not_number ch H HE) as (H1 & H2 & H3 & H4).
  unfold match_number_call. now rewrite H1, H2, HE, H3, H4.
Qed.

Lemma find_if_not1_digits_then (d : list ascii) (c : ascii)
  (rest : list ascii) :
  forall (st : match_number) (first : nat),
    forallb is_digit d = true ->
    is_alpha c = true -> is_E c = false ->
    find_if (not1 match_number_call) st (d ++ c :: rest) first
    = (first + length d)%nat.
Proof.
  induction d as [|x d IH]; intros st first Hd Hc HE; simpl.
  - pose proof (match_number_letter st c Hc HE) as Hr. unfold not1.
    destruct (match_number_call st c) as [r st']. simpl in Hr. subst r.
    simpl. lia.
  - apply andb_prop in Hd as [Hx Hd].
    pose proof (match_number_digit st x Hx) as Ha. unfold not1 at 1.
    destruct (match_number_call st x) as [r st']. simpl in Ha. subst r.
    simpl. rewrite IH by assumption. lia.
Qed.

Lemma between_prefix (d b : list ascii) :
  between (d ++ b) 0 (length (d ++ b)) = d ++ b.
Proof. apply between_all. Qed.

Lemma plain_token_digit_letter (s : string) (d b : list ascii) (c : ascii) :
  list_ascii_of_string s = d ++ c :: b ->
  d <> [] ->
  forallb is_digit d = true ->
  is_alpha c = true -> is_E c = false ->
  forallb is_alpha b = true ->
  is_operator operators_ (string_of_list_ascii (c :: b)) = false ->
  plain_token operators_ count_args_ s = Throw (invalid_name s).
Proof.
  intros Es Hne Hd Hc HE Hb Hop. unfold plain_token.
  pose proof (text_of_all s) as Ht. rewrite Es in *.
  set (text := d ++ c :: b) in *. set (e := length text) in *.
  assert (Hlen : e = (length d + S (length b))%nat)
    by (unfold e, text; rewrite length_app; reflexivity).
  assert (Hpos : (0 < length d)%nat)
    by (destruct d; [contradiction | simpl; lia]).
  assert (He : (0 =? e)%nat = false) by (apply Nat.eqb_neq; lia).
  assert (Hde : (length d =? e)%nat = false) by (apply Nat.eqb_neq; lia).
  assert (Er : search_range text 0 e match_number_call match_number_new
               = (0%nat, length d)).
  { unfold search_range, e. rewrite between_all. unfold text.
    destruct d as [|x d']; [contradiction|].
    cbn [forallb] in Hd. apply andb_prop in Hd as [Hx Hd'].
    change ((x :: d') ++ c :: b) with (x :: (d' ++ c :: b)).
    rewrite find_if_head by now apply match_number_digit.
    rewrite (between_all (x :: d' ++ c :: b)).
    cbn [length Nat.eqb].
    change (x :: d' ++ c :: b) with ((x :: d') ++ c :: b).
    rewrite find_if_not1_digits_then; try assumption; [reflexivity|].
    simpl. now rewrite Hx, Hd'. }
  assert (En : search_range text (length d) e match_name_call match_name_new
               = (length d, e)).
  { unfold search_range, e, text. rewrite between_app_r.
    destruct (match_name_alpha c Hc) as [Hacc Hcnt].
    rewrite find_if_head by exact Hacc.
    rewrite between_app_r.
    fold text. fold e. rewrite Hde.
    cbn [find_if]. unfold not1 at 1.
    destruct (match_name_call match_name_new c) as [r st'].
    simpl in Hacc, Hcnt. subst r. cbn [negb].
    rewrite find_if_not1_name; [f_equal; lia | lia |].
    clear -Hb. induction b as [|x b IH]; simpl in *; [reflexivity|].
    apply andb_prop in Hb as [-> Hb]. simpl. now apply IH. }
  cbn [search_number]. rewrite He, Er. cbn [fst snd].
  replace (0 =? e)%nat with false. cbn [search_name]. rewrite En.
  cbn [fst snd]. rewrite Hde, Nat.eqb_refl. cbn [orb].
  replace (text_of text (length d) e) with (string_of_list_ascii (c :: b))
    by (unfold text_of, e, text; now rewrite between_app_r).
  rewrite Hop. cbn [fst snd]. rewrite Nat.eqb_refl, Hde. cbn [andb negb].
  replace (S (pred e)) with e by lia. now rewrite Ht.
Qed.

End TokeniserClasses.

(** X14.  A word made of decimal digits is a value: [create_token] returns
    a VALUE token with the word as its text, whatever the table of
    operators when [count_args] is on, and unless the word is the name of
    an operator when it is off. *)
Theorem digits_are_values (operators_ : list operator_type)
  (count_args_ : bool) (s : string) :
  list_ascii_of_string s <> [] ->
  forallb is_digit (list_ascii_of_string s) = true ->
  (count_args_ = false -> is_operator operators_ s = false) ->
  create_token operators_ count_args_ s = Ok (Some (value_token s)).
Proof.
  intros Hne Hd Hop. unfold create_token. destruct count_args_.
  - rewrite find_char_none.
    + now apply plain_token_digits.
    + clear -Hd. induction (list_ascii_of_string s) as [|c l IH];
        simpl in *; [reflexivity|].
      apply andb_prop in Hd as [-> Hd]. rewrite orb_true_r. now apply IH.
  - rewrite Hop by reflexivity. now apply plain_token_digits.
Qed.

(** X15.  A word made of letters and underscores, followed or not by
    decimal digits, is a name unless it is the name of an operator:
    [create_token] returns a NAME token with the word as its text, in both
    modes.  No number is found in it, although its digits match one,
    because a letter comes before them. *)
Theorem identifiers_are_names (operators_ : list operator_type)
  (count_args_ : bool) (s : string) (a d : list ascii) :
  list_ascii_of_string s = a ++ d ->
  a <> [] ->
  forallb is_alpha a = true -> forallb is_digit d = true ->
  is_operator operators_ s = false ->
  create_token operators_ count_args_ s = Ok (Some (name_token s)).
Proof.
  intros Es Hne Ha Hd Hop. unfold create_token. destruct count_args_.
  - rewrite find_char_none.
    + now apply (plain_token_name operators_ true s a d).
    + rewrite Es, forallb_app. apply andb_true_intro. split.
      * clear -Ha. induction a as [|x a IH]; simpl in *; [reflexivity|].
        apply andb_prop in Ha as [-> Ha]. simpl. now apply IH.
      * clear -Hd. induction d as [|x d IH]; simpl in *; [reflexivity|].
        apply andb_prop in Hd as [-> Hd]. rewrite orb_true_r. now apply IH.
  - rewrite Hop. now apply (plain_token_name operators_ false s a d).
Qed.


(** X16.  A word in which a letter follows decimal digits is no token:
    [create_token] throws [invalid_name] with the word as its text, for
    digits followed by letters and underscores the first of which is not an
    [E], when these letters do not name an operator. *)
Theorem digit_then_letter_is_invalid (operators_ : list operator_type)
  (count_args_ : bool) (s : string) (d b : list ascii) (c : ascii) :
  list_ascii_of_string s = d ++ c :: b ->
  d <> [] ->
  forallb is_digit d = true ->
  is_alpha c = true -> is_E c = false ->
  forallb is_alpha b = true ->
  is_operator operators_ (string_of_list_ascii (c :: b)) = false ->
  (count_args_ = false -> is_operator operators_ s = false) ->
  create_token operators_ count_args_ s = Throw (invalid_name s).
Proof.
  intros Es Hne Hd Hc HE Hb Hop Hops. unfold create_token.
  destruct count_args_.
  - rewrite find_char_none.
    + now apply (plain_token_digit_letter operators_ true s d b c).
    + rewrite Es, forallb_app. apply andb_true_intro. split.
      * clear -Hd. induction d as [|x d IH]; simpl in *; [reflexivity|].
        apply andb_prop in Hd as [-> Hd]. rewrite orb_true_r. now apply IH.
      * simpl. rewrite Hc. simpl.
        clear -Hb. induction b as [|x b IH]; simpl in *; [reflexivity|].
        apply andb_prop in Hb as [-> Hb]. simpl. now apply IH.
  - rewrite Hops by reflexivity.
    now apply (plain_token_digit_letter operators_ false s d b c).
Qed.


(** ** The annotation of a word *)

Section Annotation.

Variable operators_ : list operator_type.

Lemma digit_facts (ch : ascii) :
  is_digit ch = true ->
  is_space ch = false /\ Ascii.eqb ch "-"%char = false /\
  Ascii.eqb ch "+"%char = false /\ Ascii.eqb ch "]"%char = false /\
  0 <= Z.of_nat (nat_of_ascii ch) - 48 <= 9.
Proof.
  intros H.
  assert (Hb : negb (is_space ch) && negb (Ascii.eqb ch "-"%char)
               && negb (Ascii.eqb ch "+"%char)
               && negb (Ascii.eqb ch "]"%char)
               && (0 <=? Z.of_nat (nat_of_ascii ch) - 48)
               && (Z.of_nat (nat_of_ascii ch) - 48 <=? 9) = true).
  { destruct ch as [[|] [|] [|] [|] [|] [|] [|] [|]];
      first [discriminate H | reflexivity]. }
  repeat (apply andb_prop in Hb as [Hb ?]).
  repeat match goal with
         | H : negb _ = true |- _ => apply negb_true_iff in H
         end.
  repeat split; try assumption; lia.
Qed.

Lemma span_digits (ds rest : list ascii) :
  forallb is_digit ds = true ->
  span is_digit (ds ++ " "%char :: rest) = (ds, " "%char :: rest).
Proof.
  induction ds as [|c ds IH]; simpl; [reflexivity|].
  intros H. apply andb_prop in H as [Hc Hd]. rewrite Hc.
  now rewrite IH.
Qed.

Lemma digits_value_nonneg (ds : list ascii) :
  forall acc : Z,
    0 <= acc -> forallb is_digit ds = true -> 0 <= digits_value ds acc.
Proof.
  induction ds as [|c ds IH]; intros acc Ha H; simpl; [exact Ha|].
  apply andb_prop in H as [Hc Hd].
  destruct (digit_facts c Hc) as (_ & _ & _ & _ & Hv).
  apply IH; [lia | exact Hd].
Qed.

(** Reading one number of an annotation. *)
Lemma extract_int_literal (ds rest : list ascii) :
  is_int_literal ds = true ->
  extract_int (IStringStream (" "%char :: ds ++ " "%char :: rest)
                 false false)
  = (Some (digits_value ds 0),
     IStringStream (" "%char :: rest) false false).
Proof.
  unfold is_int_literal. intros H.
  apply andb_prop in H as [H Hmax]. apply andb_prop in H as [Hne Hd].
  destruct ds as [|c ds]; [discriminate|].
  pose proof Hd as Hd0. cbn [forallb] in Hd.
  apply andb_prop in Hd as [Hc Hd].
  destruct (digit_facts c Hc) as (Hsp & Hm & Hp & _ & _).
  unfold extract_int. cbn [good eofbit failbit negb andb buf].
  change (skip_space (" "%char :: (c :: ds) ++ " "%char :: rest))
    with (skip_space ((c :: ds) ++ " "%char :: rest)).
  cbn [skip_space app]. rewrite Hsp, Hm, Hp.
  change (c :: ds ++ " "%char :: rest)
    with ((c :: ds) ++ " "%char :: rest).
  rewrite (span_digits (c :: ds) rest Hd0).
  pose proof (digits_value_nonneg (c :: ds) 0 ltac:(lia) Hd0) as Hn.
  replace (int_min <=? digits_value (c :: ds) 0) with true
    by (symmetry; apply Z.leb_le; unfold int_min; lia).
  now rewrite Hmax.
Qed.

Lemma read_values_literals (dss : list (list ascii)) :
  forall (values : list Z) (fuel : nat),
    forallb is_int_literal dss = true ->
    (length dss < fuel)%nat ->
    read_values fuel
      (IStringStream (annotation_body dss) false false) values
    = values ++ map (fun ds => digits_value ds 0) dss.
Proof.
  unfold annotation_body.
  induction dss as [|ds dss IH]; intros values fuel H Hf;
    (destruct fuel as [|fuel]; [simpl in Hf; lia|]).
  - simpl. rewrite app_nil_r. now destruct fuel.
  - cbn [forallb] in H. apply andb_prop in H as [Hds Hdss].
    cbn [read_values failbit flat_map].
    assert (E : (" "%char :: ds) ++ flat_map (fun ds => " "%char :: ds) dss
                ++ [" "%char]
                = " "%char :: ds ++ " "%char
                  :: match dss with
                     | [] => []
                     | ds' :: dss' =>
                         ds' ++ flat_map (fun ds => " "%char :: ds) dss'
                         ++ [" "%char]
                     end).
    { destruct dss as [|ds' dss']; simpl; [reflexivity|].
      now rewrite <- !app_assoc. }
    rewrite <- app_assoc, E, (extract_int_literal ds _ Hds).
    assert (E' : " "%char
                 :: match dss with
                    | [] => []
                    | ds' :: dss' =>
                        ds' ++ flat_map (fun ds => " "%char :: ds) dss'
                        ++ [" "%char]
                    end
                 = flat_map (fun ds => " "%char :: ds) dss ++ [" "%char]).
    { destruct dss as [|ds' dss']; simpl; [reflexivity|].
      now rewrite <- !app_assoc. }
    rewrite E', IH by (try assumption; simpl in Hf; lia).
    cbn [map]. now rewrite <- app_assoc.
Qed.

Lemma find_char_first (ch : ascii) (pre rest : list ascii) :
  find_char ch pre 0 = None ->
  find_char ch (pre ++ ch :: rest) 0 = Some (length pre).
Proof.
  induction pre as [|c pre IH]; simpl.
  - now rewrite Ascii.eqb_refl.
  - destruct (Ascii.eqb c ch); [discriminate|].
    destruct (find_char ch pre 0); [discriminate|].
    intros _. now rewrite IH.
Qed.

Lemma find_char_from (ch : ascii) (pre l : list ascii) :
  find_char ch (pre ++ l) (length pre)
  = option_map (Nat.add (length pre)) (find_char ch l 0).
Proof.
  induction pre as [|c pre IH]; simpl.
  - now destruct (find_char ch l 0).
  - rewrite IH. now destruct (find_char ch l 0).
Qed.

Lemma find_char_absent (ch : ascii) (l : list ascii) :
  forallb (fun c => negb (Ascii.eqb c ch)) l = true ->
  find_char ch l 0 = None.
Proof.
  induction l as [|c l IH]; simpl; [reflexivity|].
  intros H. apply andb_prop in H as [Hc Hl].
  apply negb_true_iff in Hc. rewrite Hc. now rewrite IH.
Qed.

Lemma annotation_body_chars (dss : list (list ascii)) :
  forallb is_int_literal dss = true ->
  forallb (fun c => negb (Ascii.eqb c "]"%char)) (annotation_body dss) = true
  /\ (length dss <= length (annotation_body dss))%nat.
Proof.
  unfold annotation_body.
  induction dss as [|ds dss IH]; simpl; [split; [reflexivity | lia]|].
  intros H. apply andb_prop in H as [Hds Hdss].
  destruct (IH Hdss) as [IH1 IH2]. rewrite <- app_assoc.
  rewrite forallb_app, IH1, length_app. split; [|lia].
  rewrite andb_true_r.
  unfold is_int_literal in Hds. apply andb_prop in Hds as [Hds _].
  apply andb_prop in Hds as [_ Hd].
  clear -Hd. induction ds as [|c ds IHd]; simpl in *; [reflexivity|].
  apply andb_prop in Hd as [Hc Hd].
  destruct (digit_facts c Hc) as (_ & _ & _ & -> & _). simpl.
  now apply IHd.
Qed.

End Annotation.

(** X19.  With [count_args] on, a word [name[ n1 ... nk ]] whose
    annotation holds decimal numbers that are [int]s, each after a blank
    and with a blank before the closing bracket, is turned into the token
    that these numbers select: the function [name] with [n1] arguments for
    one number, with [n1] arguments and [n2] values for two, the operator
    [name] with [n1] left and [n2] right arguments and [n3] values for
    three, and no token otherwise. *)
Theorem annotation_is_read (operators_ : list operator_type)
  (s name : string) (dss : list (list ascii)) :
  list_ascii_of_string s
  = list_ascii_of_string name
    ++ "["%char :: annotation_body dss ++ ["]"%char] ->
  find_char "["%char (list_ascii_of_string name) 0 = None ->
  forallb is_int_literal dss = true ->
  create_token operators_ true s
  = Ok (annotated_token name (map (fun ds => digits_value ds 0) dss)).
Proof.
  intros Es Hname Hd. unfold create_token. rewrite Es.
  set (lname := list_ascii_of_string name) in *.
  set (body := annotation_body dss) in *.
  destruct (annotation_body_chars dss Hd) as [Hb Hlen]. fold body in Hb, Hlen.
  rewrite (find_char_first "["%char lname _ Hname).
  rewrite find_char_from.
  assert (Hc : find_char "]"%char ("["%char :: body ++ ["]"%char]) 0
               = Some (S (length body))).
  { change ("["%char :: body ++ ["]"%char])
      with (("["%char :: body) ++ "]"%char :: []).
    rewrite find_char_first; [reflexivity|].
    apply find_char_absent. simpl. exact Hb. }
  rewrite Hc. cbn [option_map].
  assert (Hn : text_of (lname ++ "["%char :: body ++ ["]"%char]) 0
                 (length lname) = name).
  { unfold text_of, between. rewrite Nat.sub_0_r, drop_0.
    rewrite take_app_length. apply string_of_list_ascii_of_string. }
  assert (Hbt : between (lname ++ "["%char :: body ++ ["]"%char])
                  (S (length lname)) (length lname + S (length body))
                = body).
  { unfold between.
    replace (length lname + S (length body) - S (length lname))%nat
      with (length body) by lia.
    change (lname ++ "["%char :: body ++ ["]"%char])
      with (lname ++ ["["%char] ++ body ++ ["]"%char]).
    rewrite app_assoc.
    replace (S (length lname)) with (length (lname ++ ["["%char]))
      by (rewrite length_app; simpl; lia).
    rewrite drop_app_length. apply take_app_length. }
  rewrite Hn, Hbt. unfold annotation_values, istringstream_new.
  unfold body. rewrite read_values_literals; [reflexivity | exact Hd |].
  fold body. lia.
Qed.



(** ** The tokeniser on annotated words *)

Section TokeniserItems.

Variable operators_ : list operator_type.
Variable debug_ : bool.

Lemma digits_word (ds : list ascii) :
  is_int_literal ds = true ->
  ds <> [] /\
  forallb (fun ch => negb (is_space ch)) ds = true /\
  forallb (fun ch => negb (Ascii.eqb ch Ascii.zero)) ds = true /\
  last_is "]"%char ds = false.
Proof.
  unfold is_int_literal. intros H.
  apply andb_prop in H as [H _]. apply andb_prop in H as [Hne Hd].
  split; [now destruct ds|].
  assert (Hall : forallb (fun ch => negb (is_space ch)
                                    && negb (Ascii.eqb ch Ascii.zero)
                                    && negb (Ascii.eqb ch "]"%char)) ds
                 = true).
  { clear Hne. induction ds as [|c ds IH]; simpl in *; [reflexivity|].
    apply andb_prop in Hd as [Hc Hd]. rewrite (IH Hd), andb_true_r.
    clear -Hc.
    destruct c as [[|] [|] [|] [|] [|] [|] [|] [|]];
      first [discriminate Hc | reflexivity]. }
  apply forallb_both in Hall as [Hall H3].
  apply forallb_both in Hall as [H1 H2].
  split; [exact H1|]. split; [exact H2|].
  unfold last_is. destruct (last ds) as [c|] eqn:E; [|reflexivity].
  apply negb_true_iff. rewrite forallb_forall in H3. apply H3.
  rewrite last_Some in E. destruct E as [l' ->].
  apply in_or_app. right. now left.
Qed.

(** The inner loop of [create_tokens] on an annotation. *)
Lemma gather_annotation (dss : list (list ascii)) :
  forall (rest s2 : list ascii) (sv : list (list ascii)) (fuel : nat),
    forallb is_int_literal dss = true ->
    last_is "]"%char s2 = false ->
    (length dss < fuel)%nat ->
    gather fuel
      (IStringStream (annotation_body dss ++ "]"%char :: " "%char :: rest)
         false false)
      s2 sv
    = (sv ++ dss ++ [["]"%char]],
       IStringStream (" "%char :: rest) false false).
Proof.
  unfold annotation_body.
  induction dss as [|ds dss IH]; intros rest s2 sv fuel Hd Hs2 Hf;
    (destruct fuel as [|fuel]; [simpl in Hf; lia|]);
    cbn [gather failbit negb andb]; rewrite Hs2; cbn [negb].
  - cbn [flat_map app].
    pose proof (extract_string_word [" "%char] ["]"%char] rest s2
                  eq_refl ltac:(discriminate) eq_refl) as Hx.
    cbn [app] in Hx. rewrite Hx.
    cbn [good eofbit failbit negb andb].
    destruct fuel; reflexivity.
  - cbn [forallb] in Hd. apply andb_prop in Hd as [Hds Hdss].
    destruct (digits_word ds Hds) as (Hne & Hsp & _ & Hl).
    cbn [flat_map]. rewrite <- !app_assoc.
    assert (E : (" "%char :: ds)
                ++ flat_map (fun ds => " "%char :: ds) dss
                ++ [" "%char] ++ "]"%char :: " "%char :: rest
                = [" "%char] ++ ds ++ " "%char
                  :: match dss with
                     | [] => "]"%char :: " "%char :: rest
                     | ds' :: dss' =>
                         ds' ++ flat_map (fun ds => " "%char :: ds) dss'
                         ++ [" "%char] ++ "]"%char :: " "%char :: rest
                     end).
    { destruct dss as [|ds' dss']; simpl; [reflexivity|].
      now rewrite <- !app_assoc. }
    rewrite E, (extract_string_word [" "%char] ds _ s2 eq_refl Hne Hsp).
    cbn [good eofbit failbit negb andb].
    assert (E' : " "%char
                 :: match dss with
                    | [] => "]"%char :: " "%char :: rest
                    | ds' :: dss' =>
                        ds' ++ flat_map (fun ds => " "%char :: ds) dss'
                        ++ [" "%char] ++ "]"%char :: " "%char :: rest
                    end
                 = (flat_map (fun ds => " "%char :: ds) dss ++ [" "%char])
                   ++ "]"%char :: " "%char :: rest).
    { destruct dss as [|ds' dss']; simpl; [reflexivity|].
      now rewrite <- !app_assoc. }
    rewrite E', IH by (try assumption; simpl in Hf; lia).
    now rewrite <- app_assoc.
Qed.

Lemma join_annotation (dss : list (list ascii)) :
  forall s : list ascii,
    join s (dss ++ [["]"%char]])
    = s ++ annotation_body dss ++ ["]"%char].
Proof.
  unfold join, annotation_body.
  induction dss as [|ds dss IH]; intros s; simpl; [reflexivity|].
  rewrite IH. now rewrite <- !app_assoc.
Qed.

Lemma string_of_list_ascii_app (l1 l2 : list ascii) :
  string_of_list_ascii (l1 ++ l2)
  = (string_of_list_ascii l1 ++ string_of_list_ascii l2)%string.
Proof.
  induction l1 as [|c l1 IH]; simpl; [reflexivity | now rewrite IH].
Qed.

Lemma annotated_word_chars (name : string) (dss : list (list ascii)) :
  list_ascii_of_string (item_word (annotated_word name dss))
  = (list_ascii_of_string name ++ ["["%char])
    ++ annotation_body dss ++ ["]"%char].
Proof.
  cbn [item_word]. rewrite !list_ascii_of_string_app.
  rewrite list_ascii_of_string_of_list_ascii. simpl.
  now rewrite <- app_assoc.
Qed.

Lemma item_word_no_nul (it : rpn_item) :
  item_ok it = true ->
  forallb (fun ch => negb (Ascii.eqb ch Ascii.zero))
    (list_ascii_of_string (item_word it)) = true.
Proof.
  destruct it as [w|name dss]; cbn [item_ok]; intros H.
  - unfold taken_alone in H. apply andb_prop in H as [H _].
    now destruct (is_word_chars w H) as (_ & _ & Hz).
  - apply andb_prop in H as [Hn Hd].
    rewrite annotated_word_chars, !forallb_app.
    apply forallb_both in Hn as [Hn _]. apply forallb_both in Hn as [_ Hn].
    rewrite Hn. cbn [forallb andb]. rewrite andb_true_r.
    change (negb (Ascii.eqb "["%char Ascii.zero)) with true.
    change (negb (Ascii.eqb "]"%char Ascii.zero)) with true.
    cbn [andb]. unfold annotation_body. rewrite forallb_app.
    change (forallb (fun ch => negb (Ascii.eqb ch Ascii.zero)) [" "%char])
      with true.
    rewrite !andb_true_r.
    clear -Hd. induction dss as [|ds dss IH]; simpl in *; [reflexivity|].
    apply andb_prop in Hd as [Hds Hdss].
    destruct (digits_word ds Hds) as (_ & _ & Hz & _).
    now rewrite forallb_app, Hz, IH.
Qed.

Lemma create_tokens_loop_items (items : list rpn_item) :
  forall (pre : list ascii) (tokens_ : list token) (fuel : nat),
    forallb is_space pre = true ->
    forallb item_ok items = true ->
    (length (pre ++ list_ascii_of_string
                      (blank_ended (map item_word items))) < fuel)%nat ->
    create_tokens_loop operators_ true debug_ fuel
      (IStringStream
         (pre ++ list_ascii_of_string (blank_ended (map item_word items)))
         false false)
      tokens_
    = push_tokens operators_ true debug_ (map item_word items) tokens_.
Proof.
  induction items as [|it items IH]; intros pre tokens_ fuel Hp Hok Hf;
    (destruct fuel as [|fuel]; [lia|]); cbn [create_tokens_loop failbit].
  - simpl. rewrite app_nil_r. unfold extract_string. simpl.
    rewrite <- (app_nil_r pre), skip_space_spaces by exact Hp.
    reflexivity.
  - cbn [forallb] in Hok. apply andb_prop in Hok as [Hit Hitems].
    cbn [map blank_ended fold_right] in *.
    fold (blank_ended (map item_word items)) in *.
    set (R := list_ascii_of_string (blank_ended (map item_word items)))
      in *.
    rewrite !list_ascii_of_string_app in *.
    cbn [list_ascii_of_string app] in *. fold R in Hf |- *.
    destruct it as [w|name dss].
    + cbn [item_word item_ok] in *. unfold taken_alone in Hit.
      apply andb_prop in Hit as [Hw Ha].
      destruct (is_word_chars w Hw) as (Hne & Hsp & _).
      rewrite (extract_string_word pre _ _ [] Hp Hne Hsp).
      destruct (list_ascii_of_string w) as [|c lw] eqn:E; [contradiction|].
      cbn [is_nil andb].
      replace (contains "["%char (c :: lw)
               && negb (last_is "]"%char (c :: lw))) with false.
      2:{ simpl in Ha. destruct (contains "["%char (c :: lw));
            [|reflexivity]. simpl in *. now rewrite Ha. }
      rewrite <- E, string_of_list_ascii_of_string. cbn [push_tokens].
      destruct (push_token operators_ true debug_ w tokens_)
        as [tokens'| | |]; try reflexivity.
      apply (IH [" "%char] tokens' fuel); [reflexivity | exact Hitems |].
      rewrite !length_app in *. simpl in *. lia.
    + cbn [item_ok] in Hit. apply andb_prop in Hit as [Hn Hd].
      rewrite annotated_word_chars in *.
      set (lname := list_ascii_of_string name) in *.
      apply forallb_both in Hn as [Hn Hbr].
      apply forallb_both in Hn as [Hsp _].
      destruct (annotation_body_chars dss Hd) as [_ Hlen].
      assert (Hbody : exists b', annotation_body dss = " "%char :: b').
      { unfold annotation_body. destruct dss; simpl; eauto. }
      destruct Hbody as [b' Hb'].
      assert (Hbuf : pre ++ ((lname ++ ["["%char])
                             ++ annotation_body dss ++ ["]"%char])
                     ++ " "%char :: R
                     = pre ++ (lname ++ ["["%char])
                       ++ " "%char :: (b' ++ "]"%char :: " "%char :: R)).
      { rewrite Hb'. rewrite <- !app_assoc. reflexivity. }
      rewrite Hbuf.
      rewrite (extract_string_word pre (lname ++ ["["%char]) _ []);
        [|exact Hp | now destruct lname |].
      2:{ rewrite forallb_app, Hsp. reflexivity. }
      assert (Hnil : is_nil (lname ++ ["["%char]) = false)
        by now destruct lname.
      rewrite Hnil.
      assert (Hcont : contains "["%char (lname ++ ["["%char]) = true).
      { unfold contains. rewrite find_char_first; [reflexivity|].
        now apply find_char_absent. }
      assert (Hlast : last_is "]"%char (lname ++ ["["%char]) = false).
      { unfold last_is. now rewrite last_snoc. }
      rewrite Hcont, Hlast. cbn [andb negb buf].
      change (" "%char :: b' ++ "]"%char :: " "%char :: R)
        with ((" "%char :: b') ++ "]"%char :: " "%char :: R).
      rewrite <- Hb'.
      rewrite (gather_annotation dss R [" "%char] [] _ Hd eq_refl)
        by (rewrite length_app; lia).
      cbn [app]. rewrite join_annotation.
      replace (string_of_list_ascii
                 ((lname ++ ["["%char]) ++ annotation_body dss
                  ++ ["]"%char]))
        with (item_word (annotated_word name dss))
        by (unfold lname; rewrite <- annotated_word_chars;
            now rewrite string_of_list_ascii_of_string).
      cbn [push_tokens].
      destruct (push_token operators_ true debug_ _ tokens_)
        as [tokens'| | |]; try reflexivity.
      apply (IH [" "%char] tokens' fuel); [reflexivity | exact Hitems |].
      rewrite Hbuf in Hf. rewrite !length_app in *. simpl in *.
      rewrite !length_app in *. simpl in *. lia.
Qed.

End TokeniserItems.

(** X20.  With [count_args] on, a text in RPN as [to_rpn] writes it, made
    of plain words and of names with an annotation [name[ n1 ... nk ]]
    spread over blanks, each item followed by a blank, is tokenised item
    by item: [create_tokens] joins the words of an annotation up to the
    closing bracket and hands each item to [create_token], in order, up to
    the first that fails. *)
Theorem create_tokens_items (operators_ : list operator_type)
  (debug_ : bool) (items : list rpn_item) :
  forallb item_ok items = true ->
  create_tokens operators_ true debug_ (blank_ended (map item_word items))
  = push_tokens operators_ true debug_ (map item_word items) [].
Proof.
  intros Hok. unfold create_tokens.
  rewrite c_str_no_nul.
  - apply (create_tokens_loop_items operators_ debug_ items []);
      [reflexivity | exact Hok | simpl; lia].
  - clear -Hok. induction items as [|it items IH]; simpl; [reflexivity|].
    simpl in Hok. apply andb_prop in Hok as [Hit Hitems].
    rewrite list_ascii_of_string_app, forallb_app.
    rewrite (item_word_no_nul it Hit). simpl. now apply IH.
Qed.



(** ** The text of an expression in reverse Polish notation *)

Section MoreExpressionText.

Variable libm : cmath.
Variable operators_ : list operator_type.
Variable debug_ : bool.

(** No variable or constant has the name of an operator. *)
Hypothesis names_free :
  forallb (fun n => negb (is_operator operators_ n))
    (map v_name (variables ++ constants)) = true.

Lemma push_tokens_app (ws1 ws2 : list string) (tokens_ tokens' : list token) :
  push_tokens operators_ true debug_ ws1 tokens_ = Ok tokens' ->
  push_tokens operators_ true debug_ (ws1 ++ ws2) tokens_
  = push_tokens operators_ true debug_ ws2 tokens'.
Proof.
  revert tokens_. induction ws1 as [|w ws1 IH]; intros tokens_ H; simpl in *.
  - now injection H as <-.
  - destruct (push_token operators_ true debug_ w tokens_); try discriminate.
    now apply IH.
Qed.

Lemma push_token_some (w : string) (t : token) (tokens_ : list token) :
  create_token operators_ true w = Ok (Some t) ->
  push_tokens operators_ true debug_ [w] tokens_ = Ok (tokens_ ++ [t]).
Proof.
  intros H. simpl. unfold push_token. rewrite H. now destruct debug_.
Qed.

Lemma digit_word_chars (l : list ascii) :
  forallb is_digit l = true ->
  forallb (fun ch => negb (is_space ch) && negb (Ascii.eqb ch Ascii.zero)) l
  = true /\
  forallb (fun ch => is_alpha ch || is_digit ch) l = true.
Proof.
  induction l as [|c l IH]; simpl; [now split|].
  intros H. apply andb_prop in H as [Hc Hl].
  destruct (IH Hl) as [-> ->]. rewrite Hc, orb_true_r.
  destruct (digit_facts c Hc) as (-> & _). split; [|reflexivity].
  rewrite !andb_true_r. cbn [negb andb].
  destruct c as [[|] [|] [|] [|] [|] [|] [|] [|]]; try reflexivity;
    discriminate Hc.
Qed.

Lemma expression_items (e : expr) :
  well_formed libm e -> decimal e = true ->
  forallb item_ok (rpn_items e) = true /\
  exists ts,
    map Some ts = rpn e /\
    forall tokens_,
      push_tokens operators_ true debug_ (map item_word (rpn_items e)) tokens_
      = Ok (tokens_ ++ ts).
Proof.
  induction e as [s|n|u a IH|b a1 IH1 a2 IH2]; intros Hwf Hd;
    cbn [well_formed decimal] in Hwf, Hd; cbn [rpn rpn_items map item_word].
  - apply andb_prop in Hd as [Hne Hd].
    destruct (digit_word_chars _ Hd) as [Hw Ha].
    split.
    + cbn [forallb item_ok]. unfold taken_alone, is_word, contains.
      rewrite Hne, Hw, (find_char_none _ Ha). reflexivity.
    + exists [value_token s]. split; [reflexivity|]. intros tokens_.
      apply push_token_some. unfold create_token. cbv zeta.
      rewrite (find_char_none _ Ha).
      apply plain_token_digits; [|exact Hd].
      now destruct (list_ascii_of_string s).
  - assert (Hn : item_ok (plain_word n) = true /\
                 create_token operators_ true n = Ok (Some (name_token n))).
    { rewrite forallb_forall in names_free.
      pose proof (names_free n Hwf) as Hop.
      apply negb_true_iff in Hop. simpl in Hwf.
      repeat (destruct Hwf as [<-|Hwf];
              [split; [reflexivity|];
               lazy -[is_operator]; rewrite Hop; reflexivity|]).
      contradiction. }
    destruct Hn as [Hok Hn]. split.
    + cbn [forallb]. now rewrite Hok.
    + exists [name_token n]. split; [reflexivity|]. intros tokens_.
      now apply push_token_some.
  - destruct Hwf as (Hin & Hl & Hwf).
    destruct (IH Hwf Hd) as (Hok & ts & Hts & Hp).
    assert (Hu : item_ok (plain_word (u_name u ++ "[1]")) = true /\
                 create_token operators_ true (u_name u ++ "[1]")
                 = Ok (Some (function_token (u_name u) 1 (-1)))).
    { simpl in Hin.
      repeat (destruct Hin as [<-|Hin]; [split; reflexivity|]).
      contradiction. }
    destruct Hu as [Hok' Hu]. split.
    + rewrite forallb_app, Hok. cbn [forallb]. now rewrite Hok'.
    + exists (ts ++ [function_token (u_name u) 1 (-1)]). split.
      * now rewrite map_app, Hts.
      * intros tokens_. rewrite map_app.
        rewrite (push_tokens_app _ _ _ _ (Hp tokens_)).
        cbn [map item_word]. rewrite (push_token_some _ _ _ Hu).
        now rewrite app_assoc.
  - destruct Hwf as (Hin & Hwf1 & Hwf2).
    apply andb_prop in Hd as [Hd1 Hd2].
    destruct (IH1 Hwf1 Hd1) as (Hok1 & ts1 & Hts1 & Hp1).
    destruct (IH2 Hwf2 Hd2) as (Hok2 & ts2 & Hts2 & Hp2).
    assert (Hb : item_ok (binary_item b) = true /\
                 create_token operators_ true (item_word (binary_item b))
                 = Ok (Some (binary_token b))).
    { simpl in Hin.
      repeat (destruct Hin as [<-|Hin]; [split; reflexivity|]).
      contradiction. }
    destruct Hb as [Hok' Hb]. split.
    + rewrite !forallb_app, Hok1, Hok2. cbn [forallb]. now rewrite Hok'.
    + exists (ts1 ++ ts2 ++ [binary_token b]). split.
      * now rewrite !map_app, Hts1, Hts2.
      * intros tokens_. rewrite !map_app.
        rewrite (push_tokens_app _ _ _ _ (Hp1 tokens_)).
        rewrite (push_tokens_app _ _ _ _ (Hp2 _)).
        cbn [map]. rewrite (push_token_some _ _ _ Hb).
        now rewrite <- !app_assoc.
Qed.

(** X24.  The text of an expression on the default environment is read
    back as its tokens.  With [count_args] on, and when no variable or
    constant bears the name of an operator, the expression in reverse
    Polish notation with the annotations of [to_rpn], every word followed
    by a blank and the literals written with decimal digits, is tokenised
    into exactly the tokens of the expression: a VALUE for each literal, a
    NAME for each variable and constant, a FUNCTION with its number of
    arguments for [f[1]] and [f[2]], an OPERATOR with one operand on each
    side for [op[ 1 1 1 ]]; none is null. *)
Theorem expression_text_tokenises (e : expr) :
  well_formed libm e -> decimal e = true ->
  exists tokens_ : list token,
    create_tokens operators_ true debug_ (rpn_text e) = Ok tokens_ /\
    map Some tokens_ = rpn e.
Proof.
  intros Hwf Hd.
  destruct (expression_items e Hwf Hd) as (Hok & ts & Hts & Hp).
  exists ts. split; [|exact Hts].
  specialize (Hp []). cbn [app] in Hp. rewrite <- Hp.
  unfold rpn_text, create_tokens.
  rewrite c_str_no_nul.
  - apply (create_tokens_loop_items operators_ debug_ (rpn_items e) []);
      [reflexivity | exact Hok | simpl; lia].
  - clear -Hok. induction (rpn_items e) as [|it items IH]; simpl;
      [reflexivity|].
    simpl in Hok. apply andb_prop in Hok as [Hit Hitems].
    rewrite list_ascii_of_string_app, forallb_app.
    rewrite (item_word_no_nul it Hit). simpl. now apply IH.
Qed.

End MoreExpressionText.

(** ** The reference-counted pointer *)

Section SharedPtr.

Lemma owners_app (c : nat) (l1 l2 : list shared_ptr) :
  owners c (l1 ++ l2) = (owners c l1 + owners c l2)%nat.
Proof. induction l1 as [|v l1 IH]; simpl; [reflexivity | lia]. Qed.

Lemma owners_insert (c : nat) (l : list shared_ptr) :
  forall (i : nat) (v v' : shared_ptr),
    l !! i = Some v ->
    (owners c (<[i := v']> l) + (if owns c v then 1 else 0)
     = owners c l + (if owns c v' then 1 else 0))%nat.
Proof.
  induction l as [|x l IH]; intros [|i] v v' H; simpl in *;
    try discriminate.
  - injection H as ->. lia.
  - specialize (IH i v v' H). lia.
Qed.

Lemma owners_le_length (c : nat) (l : list shared_ptr) :
  (owners c l <= length l)%nat.
Proof.
  induction l as [|v l IH]; simpl; [lia|]. destruct (owns c v); lia.
Qed.

Lemma owners_pos (c : nat) (l : list shared_ptr) (i : nat)
  (v : shared_ptr) :
  l !! i = Some v -> owns c v = true -> (0 < owners c l)%nat.
Proof.
  revert i. induction l as [|x l IH]; intros [|i] H Ho; simpl in *;
    try discriminate.
  - injection H as ->. rewrite Ho. lia.
  - specialize (IH i H Ho). lia.
Qed.

Lemma owns_iff (c : nat) (v : shared_ptr) :
  owns c v = true <-> countPtr_ v = Some c.
Proof.
  unfold owns. destruct (countPtr_ v) as [c'|]; [|split; discriminate].
  split.
  - intros H. apply Nat.eqb_eq in H. now subst.
  - intros [= ->]. apply Nat.eqb_refl.
Qed.

Lemma in_insert (l : list shared_ptr) (i : nat) (v x : shared_ptr) :
  In x (<[i := v]> l) -> x = v \/ In x l.
Proof.
  revert i. induction l as [|y l IH]; intros [|i]; simpl; try tauto.
  - intros [<-|H]; auto.
  - intros [<-|H]; [auto|]. destruct (IH i H); auto.
Qed.

(** The counter of a variable that has one holds the number of the
    variables that share it. *)
Lemma counted_owner (w : world) (i c : nat) (v : shared_ptr) :
  counted w -> vars w !! i = Some v -> countPtr_ v = Some c ->
  ptr_ v = Some c /\
  counters (heap w) !! c = Some (Some (Z.of_nat (owners c (vars w)))) /\
  objects (heap w) !! c = Some true /\
  (0 < owners c (vars w) <= length (vars w))%nat.
Proof.
  intros (Hlen & Hptr & Hc) Hv Hcp.
  assert (Hin : In v (vars w)).
  { apply list_elem_of_In. eapply list_elem_of_lookup_2. exact Hv. }
  pose proof (owners_pos c (vars w) i v Hv (proj2 (owns_iff c v) Hcp))
    as Hpos.
  pose proof (owners_le_length c (vars w)) as Hle.
  specialize (Hc c).
  destruct (counters (heap w) !! c) as [[n|]|].
  - destruct Hc as (Ho & -> & _). rewrite (Hptr v Hin), Hcp.
    repeat split; try assumption; lia.
  - destruct Hc as [_ Hc]. lia.
  - lia.
Qed.

Lemma counted_release (w : world) (i : nat) (this : shared_ptr) :
  counted w -> vars w !! i = Some this ->
  Z.of_nat (length (vars w)) < int_max ->
  exists sp st',
    release this (heap w) = Done (sp, st') /\
    countPtr_ sp = None /\
    counted (World st' (<[i := sp]> (vars w))).
Proof.
  intros Hw Hv Hb. unfold release.
  destruct (countPtr_ this) as [c|] eqn:Hcp.
  - destruct (counted_owner w i c this Hw Hv Hcp) as (Hp & Hcnt & Hobj & Hn).
    destruct Hw as (Hlen & Hptr & Hc).
    unfold decrement. rewrite Hcnt.
    set (n := Z.of_nat (owners c (vars w))) in *.
    rewrite wrap_int_id by (unfold in_int, int_min, int_max in *; lia).
    assert (Hclt : (c < length (counters (heap w)))%nat)
      by (apply lookup_lt_Some in Hcnt; exact Hcnt).
    assert (Hown : forall c',
               owners c' (<[i := SharedPtr None None]> (vars w))
               = (owners c' (vars w) - (if (c' =? c)%nat then 1 else 0))%nat).
    { intros c'.
      pose proof (owners_insert c' (vars w) i this (SharedPtr None None) Hv)
        as E.
      change (owns c' (SharedPtr None None)) with false in E.
      unfold owns in E. rewrite Hcp in E.
      rewrite Nat.eqb_sym in E. destruct (c' =? c)%nat; lia. }
    assert (Hptr' : forall v,
               In v (<[i := SharedPtr None None]> (vars w)) ->
               ptr_ v = countPtr_ v).
    { intros v Hin. apply in_insert in Hin as [->|Hin];
        [reflexivity | now apply Hptr]. }
    destruct (Z.eqb_spec (n - 1) 0) as [E|E].
    + unfold delete_ptr. rewrite Hp. cbn [objects]. rewrite Hobj.
      unfold delete_count. cbn [counters].
      rewrite list_lookup_insert_eq by exact Hclt.
      exists (SharedPtr None None). eexists. split; [reflexivity|].
      split; [reflexivity|].
      split; [|split]; cbn [heap vars counters objects].
      * now rewrite !length_insert.
      * exact Hptr'.
      * intros c'. rewrite Hown. rewrite list_insert_insert_eq.
        destruct (Nat.eqb_spec c' c) as [->|Hne].
        -- rewrite list_lookup_insert_eq by exact Hclt.
           rewrite list_lookup_insert_eq by lia. split; [reflexivity | lia].
        -- rewrite !list_lookup_insert_ne by congruence.
           rewrite Nat.sub_0_r. apply Hc.
    + exists (SharedPtr None None). eexists. split; [reflexivity|].
      split; [reflexivity|].
      split; [|split]; cbn [heap vars counters objects].
      * now rewrite length_insert.
      * exact Hptr'.
      * intros c'. rewrite Hown.
        destruct (Nat.eqb_spec c' c) as [->|Hne].
        -- rewrite list_lookup_insert_eq by exact Hclt.
           split; [exact Hobj|]. split; lia.
        -- rewrite list_lookup_insert_ne by congruence.
           rewrite Nat.sub_0_r. apply Hc.
  - exists this, (heap w). split; [reflexivity|]. split; [exact Hcp|].
    rewrite list_insert_id by exact Hv. now destruct w.
Qed.

Lemma counted_acquire (w : world) (i r : nat) (slot o : shared_ptr) :
  counted w ->
  vars w !! i = Some slot -> countPtr_ slot = None ->
  vars w !! r = Some o ->
  Z.of_nat (length (vars w)) < int_max ->
  exists sp st',
    acquire o (heap w) = Done (sp, st') /\
    counted (World st' (<[i := sp]> (vars w))).
Proof.
  intros Hw Hi Hslot Hr Hb. unfold acquire.
  destruct (countPtr_ o) as [c|] eqn:Hcp.
  - destruct (counted_owner w r c o Hw Hr Hcp) as (Hp & Hcnt & Hobj & Hn).
    destruct Hw as (Hlen & Hptr & Hc).
    unfold increment. rewrite Hcnt.
    set (n := Z.of_nat (owners c (vars w))) in *.
    rewrite wrap_int_id by (unfold in_int, int_min, int_max in *; lia).
    assert (Hclt : (c < length (counters (heap w)))%nat)
      by (apply lookup_lt_Some in Hcnt; exact Hcnt).
    exists (SharedPtr (Some c) (ptr_ o)). eexists. split; [reflexivity|].
    assert (Hown : forall c',
               owners c' (<[i := SharedPtr (Some c) (ptr_ o)]> (vars w))
               = (owners c' (vars w) + (if (c' =? c)%nat then 1 else 0))%nat).
    { intros c'.
      pose proof (owners_insert c' (vars w) i slot
                    (SharedPtr (Some c) (ptr_ o)) Hi) as E.
      unfold owns in E. rewrite Hslot in E. cbn [countPtr_] in E.
      rewrite Nat.eqb_sym in E. destruct (c' =? c)%nat; lia. }
    split; [|split]; cbn [heap vars counters objects].
    + now rewrite length_insert.
    + intros v Hin. apply in_insert in Hin as [->|Hin];
        [exact Hp | now apply Hptr].
    + intros c'. rewrite Hown.
      destruct (Nat.eqb_spec c' c) as [->|Hne].
      * rewrite list_lookup_insert_eq by exact Hclt.
        split; [exact Hobj|]. split; lia.
      * rewrite list_lookup_insert_ne by congruence.
        rewrite Nat.add_0_r. apply Hc.
  - exists (SharedPtr None (ptr_ o)), (heap w). split; [reflexivity|].
    destruct Hw as (Hlen & Hptr & Hc).
    assert (Hpo : ptr_ o = None).
    { rewrite (Hptr o); [exact Hcp|].
      apply list_elem_of_In. eapply list_elem_of_lookup_2. exact Hr. }
    rewrite Hpo.
    assert (Hown : forall c',
               owners c' (<[i := SharedPtr None None]> (vars w))
               = owners c' (vars w)).
    { intros c'.
      pose proof (owners_insert c' (vars w) i slot (SharedPtr None None) Hi)
        as E.
      unfold owns in E. rewrite Hslot in E. cbn [countPtr_] in E. lia. }
    split; [|split]; cbn [heap vars].
    + exact Hlen.
    + intros v Hin. apply in_insert in Hin as [->|Hin];
        [reflexivity | now apply Hptr].
    + intros c'. rewrite Hown. apply Hc.
Qed.

Lemma counted_null (w : world) :
  counted w ->
  counted (World (heap w) (vars w ++ [SharedPtr None None])).
Proof.
  intros (Hlen & Hptr & Hc). split; [|split]; cbn [heap vars].
  - exact Hlen.
  - intros v Hin. apply in_app_or in Hin as [Hin|[<-|[]]];
      [now apply Hptr | reflexivity].
  - intros c. rewrite owners_app. simpl. rewrite Nat.add_0_r. apply Hc.
Qed.

Lemma insert_last (l : list shared_ptr) (x y : shared_ptr) :
  <[length l := x]> (l ++ [y]) = l ++ [x].
Proof. induction l as [|v l IH]; simpl; [reflexivity | now rewrite IH]. Qed.

Lemma counted_make_shared (w : world) :
  counted w ->
  counted
    (World
       (Store (counters (heap w) ++ [Some 1]) (objects (heap w) ++ [true]))
       (vars w
        ++ [SharedPtr (Some (length (counters (heap w))))
              (Some (length (objects (heap w))))])).
Proof.
  intros (Hlen & Hptr & Hc). split; [|split]; cbn [heap vars counters objects].
  - rewrite !length_app. simpl. lia.
  - intros v Hin. apply in_app_or in Hin as [Hin|[<-|[]]];
      [now apply Hptr|]. simpl. now rewrite Hlen.
  - intros c. rewrite owners_app. cbn [owners owns countPtr_].
    destruct (Nat.lt_trichotomy c (length (counters (heap w))))
      as [Hlt|[->|Hgt]].
    + rewrite lookup_app_l by exact Hlt.
      rewrite lookup_app_l by lia.
      replace (length (counters (heap w)) =? c)%nat with false
        by (symmetry; apply Nat.eqb_neq; lia).
      rewrite !Nat.add_0_r. apply Hc.
    + rewrite lookup_app_r by lia. rewrite Nat.sub_diag. simpl.
      rewrite lookup_app_r by lia. rewrite Hlen, Nat.sub_diag. simpl.
      rewrite Nat.eqb_refl. specialize (Hc (length (counters (heap w)))).
      rewrite (lookup_ge_None_2 (counters (heap w))) in Hc by lia.
      rewrite Hc. repeat split; lia.
    + rewrite (lookup_ge_None_2 (counters (heap w) ++ [Some 1]))
        by (rewrite length_app; simpl; lia).
      replace (length (counters (heap w)) =? c)%nat with false
        by (symmetry; apply Nat.eqb_neq; lia).
      specialize (Hc c).
      rewrite (lookup_ge_None_2 (counters (heap w))) in Hc by lia.
      rewrite Hc. reflexivity.
Qed.

Lemma counted_perform (a : action) (w : world) :
  counted w ->
  Z.of_nat (length (vars w)) + 1 < int_max ->
  match perform a w with
  | Done w' => counted w' /\ (length (vars w') <= S (length (vars w)))%nat
  | Fault f => f = no_such_variable
  end.
Proof.
  intros Hw Hb. destruct a as [| |r|i r|i]; cbn [perform].
  - cbn [shared_ptr_new counters objects].
    split; [now apply counted_make_shared|].
    cbn [vars]. rewrite length_app. simpl. lia.
  - split; [now apply counted_null|].
    cbn [vars]. rewrite length_app. simpl. lia.
  - destruct (vars w !! r) as [o|] eqn:Hr; [|reflexivity].
    destruct (counted_acquire
                (World (heap w) (vars w ++ [SharedPtr None None]))
                (length (vars w)) r (SharedPtr None None) o)
      as (sp & st' & Ha & Hc').
    + now apply counted_null.
    + cbn [vars]. rewrite lookup_app_r by lia.
      now rewrite Nat.sub_diag.
    + reflexivity.
    + cbn [vars]. now apply lookup_app_l_Some.
    + cbn [vars]. rewrite length_app. simpl. lia.
    + cbn [heap vars] in Ha, Hc'. rewrite Ha. rewrite insert_last in Hc'.
      split; [exact Hc'|]. cbn [vars]. rewrite length_app. simpl. lia.
  - destruct (vars w !! i) as [this|] eqn:Hi; [|reflexivity].
    destruct (vars w !! r) as [o|] eqn:Hr; [|reflexivity].
    destruct (Nat.eqb_spec i r) as [E|E]; [split; [exact Hw | lia]|].
    destruct (counted_release w i this Hw Hi ltac:(lia))
      as (this' & st1 & Hrel & Hnull & Hw1).
    rewrite Hrel. rewrite list_lookup_insert_ne by exact E. rewrite Hr.
    destruct (counted_acquire (World st1 (<[i := this']> (vars w)))
                i r this' o Hw1)
      as (sp & st2 & Ha & Hw2).
    + cbn [vars]. apply list_lookup_insert_eq.
      now apply lookup_lt_Some in Hi.
    + exact Hnull.
    + cbn [vars]. now rewrite list_lookup_insert_ne by exact E.
    + cbn [vars]. rewrite length_insert. lia.
    + cbn [heap vars] in Ha, Hw2. rewrite Ha.
      rewrite list_insert_insert_eq in Hw2.
      split; [exact Hw2|]. cbn [vars]. rewrite length_insert. lia.
  - destruct (vars w !! i) as [this|] eqn:Hi; [|reflexivity].
    destruct (counted_release w i this Hw Hi ltac:(lia))
      as (sp & st' & Hrel & _ & Hw').
    rewrite Hrel. split; [exact Hw'|]. cbn [vars].
    rewrite length_insert. lia.
Qed.

Lemma counted_perform_all (l : list action) :
  forall w : world,
    counted w ->
    Z.of_nat (length (vars w) + length l) < int_max ->
    match perform_all l w with
    | Done w' => counted w'
    | Fault f => f = no_such_variable
    end.
Proof.
  induction l as [|a l IH]; intros w Hw Hb; cbn [perform_all].
  - exact Hw.
  - pose proof (counted_perform a w Hw ltac:(simpl in Hb; lia)) as Hp.
    destruct (perform a w) as [w'|f]; [|exact Hp].
    destruct Hp as [Hw' Hlen]. apply IH; [exact Hw'|].
    simpl in Hb. lia.
Qed.

Lemma counted_live (w : world) (o : nat) :
  counted w ->
  (objects (heap w) !! o = Some true <->
   exists v, In v (vars w) /\ ptr_ v = Some o).
Proof.
  intros (Hlen & Hptr & Hc). specialize (Hc o). split.
  - intros Ho.
    destruct (counters (heap w) !! o) as [[n|]|] eqn:E.
    + destruct Hc as (_ & _ & Hpos).
      clear -Hpos Hptr. induction (vars w) as [|v l IH]; simpl in *; [lia|].
      destruct (owns o v) eqn:Hv.
      * exists v. split; [now left|].
        rewrite (Hptr v (or_introl eq_refl)). now apply owns_iff.
      * destruct IH as (v' & Hin & Hp); [auto | lia |].
        exists v'. split; [now right | exact Hp].
    + destruct Hc as [Hc _]. congruence.
    + apply lookup_ge_None_1 in E. apply lookup_lt_Some in Ho. lia.
  - intros (v & Hin & Hp).
    assert (Hown : (0 < owners o (vars w))%nat).
    { apply list_elem_of_In, list_elem_of_lookup_1 in Hin as [i Hi].
      apply (owners_pos o (vars w) i v Hi). apply owns_iff.
      rewrite <- (Hptr v); [exact Hp|].
      apply list_elem_of_In. eapply list_elem_of_lookup_2. exact Hi. }
    destruct (counters (heap w) !! o) as [[n|]|].
    + now destruct Hc.
    + destruct Hc as [_ Hc]. lia.
    + lia.
Qed.

End SharedPtr.

(** X21.  Reference counting in [shared_ptr]: whatever a client does with
    variables of the class by constructing them from new objects or as
    null, copying, assigning (also a variable to itself) and destroying
    them, nothing is deleted twice, no counter is used after it has been
    deleted and no [assert] fails.  At every point a counter holds the
    number of the variables that share it, and an object is there exactly
    when some variable points to it: it is deleted with the last pointer
    to it and not before.  The counters are [int]s: the client makes fewer
    variables than the largest of them. *)
Theorem shared_ptr_counts (l : list action) :
  Z.of_nat (length l) < int_max ->
  match perform_all l empty_world with
  | Done w =>
      counted w /\
      forall o, objects (heap w) !! o = Some true <->
                exists v, In v (vars w) /\ ptr_ v = Some o
  | Fault f => f = no_such_variable
  end.
Proof.
  intros Hb.
  assert (H0 : counted empty_world).
  { split; [reflexivity|]. split; [intros v []|]. now intros [|c]. }
  pose proof (counted_perform_all l empty_world H0 ltac:(simpl; lia)) as H.
  destruct (perform_all l empty_world) as [w|f]; [|exact H].
  split; [exact H|]. intros o. now apply counted_live.
Qed.



(** ** The tracer of allocations *)

Section Tracer.

Lemma held_insert (m : gmap Z Entry) (p : Z) (e : Entry) :
  m !! p = None -> held (<[p := e]> m) = held m + size_ e.
Proof.
  intros H. unfold held. rewrite map_fold_insert_L; [reflexivity| |exact H].
  intros. lia.
Qed.

Lemma held_delete (m : gmap Z Entry) (p : Z) (e : Entry) :
  m !! p = Some e -> held m = held (delete p m) + size_ e.
Proof.
  intros H. unfold held.
  rewrite (map_fold_delete_L _ _ p e m); [reflexivity| |exact H].
  intros. lia.
Qed.

Lemma accounted_step (t : MemTracer) (c : tracer_call) :
  accounted t ->
  match c with
  | call_Add p _ _ _ s => map_ t !! p = None
  | call_Remove _ => True
  end ->
  accounted (tracer_step t c) /\
  map_ (tracer_step t c)
  = match c with
    | call_Add p file line fn s => <[p := MkEntry file line fn s]> (map_ t)
    | call_Remove p => delete p (map_ t)
    end.
Proof.
  intros (Hl & Ha & Hd & Hacc) Hc.
  assert (Hrange : forall z, in_size (wrap_size z)).
  { intros z. unfold in_size, wrap_size, size_max.
    pose proof (Z.mod_pos_bound z (2 ^ 64) ltac:(lia)). lia. }
  destruct t as [m lc am dm]. cbn [lockCount_ amem_ dmem_ map_] in *.
  subst lc. destruct c as [p file line fn s|p]; cbn [tracer_step].
  - assert (E : Add p file line fn s (MkMemTracer m 0 am dm)
                = MkMemTracer (<[p := MkEntry file line fn s]> m) 0
                    (wrap_size (am + s)) dm).
    { unfold Add, lock, unlock. cbn [lockCount_ amem_ dmem_ map_].
      change (0 <? 0) with false. cbv iota.
      now change (wrap_int (wrap_int (0 + 1) - 1)) with 0. }
    rewrite E. unfold accounted. cbn [lockCount_ amem_ dmem_ map_].
    split; [|reflexivity].
    split; [reflexivity|]. split; [apply Hrange|]. split; [exact Hd|].
    rewrite (held_insert m p _ Hc). cbn [size_]. unfold wrap_size in *.
    rewrite Zminus_mod_idemp_l.
    replace (am + s - dm) with ((am - dm) + s) by lia.
    rewrite Zplus_mod, Hacc, <- Zplus_mod. reflexivity.
  - destruct (m !! p) as [e|] eqn:E.
    + assert (E' : Remove p (MkMemTracer m 0 am dm)
                   = MkMemTracer (delete p m) 0 am
                       (wrap_size (dm + size_ e))).
      { unfold Remove, lock, unlock. cbn [lockCount_ amem_ dmem_ map_].
        change (0 <? 0) with false. cbv iota. rewrite E.
        now change (wrap_int (wrap_int (0 + 1) - 1)) with 0. }
      rewrite E'. unfold accounted. cbn [lockCount_ amem_ dmem_ map_].
      split; [|reflexivity].
      split; [reflexivity|]. split; [exact Ha|]. split; [apply Hrange|].
      rewrite (held_delete m p e E) in Hacc. unfold wrap_size in *.
      rewrite Zminus_mod_idemp_r.
      replace (am - (dm + size_ e)) with ((am - dm) - size_ e) by lia.
      rewrite Zminus_mod, Hacc, <- Zminus_mod. f_equal. lia.
    + assert (E' : Remove p (MkMemTracer m 0 am dm)
                   = MkMemTracer m 0 am dm).
      { unfold Remove, lock, unlock. cbn [lockCount_ amem_ dmem_ map_].
        change (0 <? 0) with false. cbv iota. rewrite E.
        now change (wrap_int (wrap_int (0 + 1) - 1)) with 0. }
      rewrite E'. cbn [map_]. split; [|now rewrite delete_id].
      split; [reflexivity|]. split; [exact Ha|].
      split; [exact Hd | exact Hacc].
Qed.

Lemma accounted_trace (calls : list tracer_call) :
  forall t : MemTracer,
    accounted t -> allocates calls (map_ t) ->
    accounted (trace calls t).
Proof.
  unfold trace.
  induction calls as [|c calls IH]; intros t Ht Hp; simpl; [exact Ht|].
  destruct c as [p file line fn s|p].
  - destruct Hp as (Hfresh & Hs & Hp).
    destruct (accounted_step t (call_Add p file line fn s) Ht Hfresh)
      as [Ht' Hm].
    apply IH; [exact Ht'|]. now rewrite Hm.
  - destruct (accounted_step t (call_Remove p) Ht I) as [Ht' Hm].
    apply IH; [exact Ht'|]. now rewrite Hm.
Qed.

End Tracer.

(** X22.  The accounts of [MemTracer]: for the calls of a program that
    allocates with [malloc], so that no block is added while it is in the
    map, the bytes allocated less the bytes deallocated are, modulo
    2^64, the bytes of the blocks that the map holds, and the lock is
    released after each call.  When [Dump] finds the map empty and reports
    no leak, the two totals it prints are equal. *)
Theorem tracer_accounts (calls : list tracer_call) :
  allocates calls ∅ ->
  let t := trace calls MemTracer_new in
  lockCount_ t = 0 /\
  wrap_size (amem_ t - dmem_ t) = wrap_size (held (map_ t)) /\
  (map_ t = ∅ -> amem_ t = dmem_ t).
Proof.
  intros Hp t.
  assert (H0 : accounted MemTracer_new).
  { unfold accounted, MemTracer_new. cbn [lockCount_ amem_ dmem_ map_].
    split; [reflexivity|].
    split; [unfold in_size, size_max; lia|].
    split; [unfold in_size, size_max; lia|].
    unfold held. now rewrite map_fold_empty. }
  destruct (accounted_trace calls MemTracer_new H0 Hp)
    as (Hl & Ha & Hd & Hacc).
  fold t in Hl, Ha, Hd, Hacc.
  split; [exact Hl|]. split; [exact Hacc|].
  intros He. rewrite He in Hacc. unfold held in Hacc.
  rewrite map_fold_empty in Hacc.
  unfold wrap_size, in_size, size_max in *.
  rewrite Z.mod_0_l in Hacc by lia.
  apply Z.mod_divide in Hacc; [|lia]. destruct Hacc as [k Hk]. nia.
Qed.


(** ** The statements at work *)

Section MoreAtDouble.

Open Scope float_scope.

#[local] Instance double_host_sample : Numeric float := double atof_decimal.


(** [(1,2,3) + (4,5,6)] on the stack. *)
Lemma vector_op_apply_lifts_witness :
  call (vector_op_apply 3 (function_binary add "+" 2 1 1))
    (Machine (set_stack [6; 5; 4; 3; 2; 1] sample_rte) sample_cells)
  = (Ok tt,
     Machine
       (set_stack (zip_with add [3; 2; 1] [6; 5; 4] ++ [])
          (set_stack [6; 5; 4; 3; 2; 1] sample_rte))
       sample_cells).
Proof.
  apply (vector_op_apply_lifts add "+" 2 1 1 3 [3; 2; 1] [6; 5; 4] []
           (Machine (set_stack [6; 5; 4; 3; 2; 1] sample_rte) sample_cells)
           eq_refl eq_refl eq_refl).
Defined.

(** [(x,y) = (1,2)]: the program loads [1], [2], [x] and [y]. *)
Lemma vector_assign_assigns_witness :
  call (vector_assign 2)
    (Machine
       {| fun_tab := []; var_tab := [0%nat; 1%nat]; const_tab := [];
          prog_p := Some [load_val 1; load_val 2; load_var 0%nat;
                          load_var 1%nat; call_fun (vector_assign 2)];
          stack := [0; 0; 2; 1]; exe_stack := []; ip := 4 |}
       [Value "x" 0; Value "y" 0])
  = (Ok tt,
     Machine
       {| fun_tab := []; var_tab := [0%nat; 1%nat]; const_tab := [];
          prog_p := Some [load_val 1; load_val 2; load_var 0%nat;
                          load_var 1%nat; call_fun (vector_assign 2)];
          stack := [2; 1]; exe_stack := []; ip := 4 |}
       [Value "x" 1; Value "y" 2]).
Proof.
  apply (proj1
           (vector_assign_assigns 2 [1%nat; 0%nat] [0; 0] [2; 1] []
              [load_val 1; load_val 2; load_var 0%nat; load_var 1%nat;
               call_fun (vector_assign 2)]
              (Machine
                 {| fun_tab := []; var_tab := [0%nat; 1%nat];
                    const_tab := [];
                    prog_p := Some [load_val 1; load_val 2; load_var 0%nat;
                                    load_var 1%nat;
                                    call_fun (vector_assign 2)];
                    stack := [0; 0; 2; 1]; exe_stack := []; ip := 4 |}
                 [Value "x" 0; Value "y" 0])
              eq_refl eq_refl eq_refl eq_refl eq_refl
              ltac:(intros [|[|i]] h H; simpl in H; try discriminate;
                    injection H as <-; unfold in_size, size_max; simpl;
                    repeat split; lia))).
Defined.

(** The dot product of the default environment consumes six values and
    produces one. *)
Lemma default_functions_arity_witness :
  Z.of_nat
    (length
       (stack
          (env (snd (call dotprod3
                       (Machine (set_stack [6; 5; 4; 3; 2; 1] sample_rte)
                          sample_cells))))))
  = (6 - 6 + 1)%Z.
Proof.
  apply (default_functions_arity cmath_sample atof_decimal
           (fun_tab (env default_machine)) dotprod3
           (Machine (set_stack [6; 5; 4; 3; 2; 1] sample_rte) sample_cells)
           (snd (call dotprod3
                   (Machine (set_stack [6; 5; 4; 3; 2; 1] sample_rte)
                      sample_cells)))
           eq_refl
           ltac:(simpl; repeat (first [left; reflexivity | right]))
           ltac:(simpl; lia)
           eq_refl).
Defined.

Lemma compile_safe_witness :
  tables_valid
    (snd (compile true true [Some (name_token "t")]
            (Machine sample_rte sample_cells))).
Proof.
  apply (proj1
           (compile_safe true true [Some (name_token "t")]
              (Machine sample_rte sample_cells)
              ltac:(intros h [[<-|[]]|[]]; simpl; lia))).
Defined.



(** ** The parser at work *)

Lemma validate_accepts_balanced_witness :
  validate_parentheses "(a+(b))" = parentheses_matched.
Proof.
  apply (proj2 (validate_accepts_balanced "(a+(b))" eq_refl)).
  reflexivity.
Defined.

Lemma create_tokens_words_witness :
  create_tokens ops_array true false
    (blank_ended ["1"; "x"; "f[2]"]%string)
  = push_tokens ops_array true false ["1"; "x"; "f[2]"]%string [].
Proof.
  apply (create_tokens_words ops_array true false
           ["1"; "x"; "f[2]"]%string eq_refl).
Defined.

Lemma digits_are_values_witness :
  create_token ops_array true "42" = Ok (Some (value_token "42")).
Proof.
  apply (digits_are_values ops_array true "42"
           ltac:(discriminate) eq_refl ltac:(discriminate)).
Defined.

Lemma identifiers_are_names_witness :
  create_token ops_array false "y_1" = Ok (Some (name_token "y_1")).
Proof.
  apply (identifiers_are_names ops_array false "y_1"
           ["y"; "_"]%char ["1"]%char
           eq_refl ltac:(discriminate) eq_refl eq_refl eq_refl).
Defined.

Lemma digit_then_letter_is_invalid_witness :
  create_token ops_array false "2x" = Throw (invalid_name "2x").
Proof.
  apply (digit_then_letter_is_invalid ops_array false "2x"
           ["2"]%char [] "x"%char
           eq_refl ltac:(discriminate) eq_refl eq_refl eq_refl eq_refl
           eq_refl ltac:(reflexivity)).
Defined.

Lemma annotation_is_read_witness :
  create_token ops_array true "+[ 1 1 1 ]"
  = Ok (Some (operator_token "+" 1 1 1)).
Proof.
  apply (annotation_is_read ops_array "+[ 1 1 1 ]" "+"
           [["1"]; ["1"]; ["1"]]%char eq_refl eq_refl eq_refl).
Defined.

Lemma create_tokens_items_witness :
  create_tokens ops_array true false
    (blank_ended
       (map item_word
          [plain_word "2"; plain_word "3";
           annotated_word "+" [["1"]; ["1"]; ["1"]]%char]))
  = push_tokens ops_array true false
      (map item_word
         [plain_word "2"; plain_word "3";
          annotated_word "+" [["1"]; ["1"]; ["1"]]%char]) [].
Proof.
  apply (create_tokens_items ops_array false
           [plain_word "2"; plain_word "3";
            annotated_word "+" [["1"]; ["1"]; ["1"]]%char] eq_refl).
Defined.

(** ** The default environment at work *)

(** [2 + 3] *)
Lemma binary_operator_applies_witness :
  compile true true
    [Some (value_token "2"); Some (value_token "3");
     Some (operator_token "+" 1 1 1)] default_machine
  = (Ok [load_val (atof_decimal "2"); load_val (atof_decimal "3");
         call_fun (function_binary add "+" 2 1 1)],
     default_machine).
Proof.
  apply (proj1
           (binary_operator_applies cmath_sample atof_decimal default_machine
              (BinaryT "+" add 1) "2" "3" true 4 eq_refl
              ltac:(simpl; repeat (first [left; reflexivity | right]))
              eq_refl ltac:(lia))).
Defined.

(** [cos( 9 )] *)
Lemma unary_function_applies_witness :
  compile true true
    [Some (value_token "9"); Some (function_token "cos" 1 1)] default_machine
  = (Ok [load_val (atof_decimal "9");
         call_fun (function_unary (cos cmath_sample) "cos" 1 1 0)],
     default_machine).
Proof.
  apply (proj1
           (unary_function_applies cmath_sample atof_decimal default_machine
              (UnaryT "cos" (cos cmath_sample) 0) "9" 1 true 3 eq_refl
              ltac:(simpl; repeat (first [left; reflexivity | right]))
              eq_refl ltac:(lia))).
Defined.

Lemma sample_expr_well_formed : well_formed cmath_sample sample_expr.
Proof.
  repeat split; simpl; repeat (first [left; reflexivity | right]).
Defined.

Lemma expression_evaluates_witness :
  exists (program : @prog_type float) (m' : @machine float),
    compile true false (rpn sample_expr) default_machine
    = (Ok program, default_machine) /\
    length program = length (rpn sample_expr) /\
    run 6 0%Z
      (Machine (set_prog_p (Some program) (env default_machine))
         (cells default_machine))
    = (Ok tt, m') /\
    stack (env m') = [eval atof_decimal default_machine sample_expr] /\
    cells m' = cells default_machine.
Proof.
  apply (expression_evaluates cmath_sample atof_decimal false
           default_machine default_machine eq_refl eq_refl eq_refl
           sample_expr 6 sample_expr_well_formed
           ltac:(unfold size_max; simpl; lia) ltac:(simpl; lia)).
Defined.

Lemma expression_text_tokenises_witness :
  exists tokens_ : list token,
    create_tokens ops_array true false (rpn_text sample_expr) = Ok tokens_ /\
    map Some tokens_ = rpn sample_expr.
Proof.
  apply (expression_text_tokenises cmath_sample ops_array false eq_refl
           sample_expr sample_expr_well_formed eq_refl).
Defined.

End MoreAtDouble.

(** ** The reference counts and the tracer at work *)

(** A pointer, a copy of it, the end of the first, an assignment of the
    copy to itself, the end of the copy. *)
Lemma shared_ptr_counts_witness :
  match
    perform_all [make_shared; copy 0; destroy 0; assign 1 1; destroy 1]
      empty_world
  with
  | Done w =>
      counted w /\
      forall o, objects (heap w) !! o = Some true <->
                exists v, In v (vars w) /\ ptr_ v = Some o
  | Fault f => f = no_such_variable
  end.
Proof.
  apply (shared_ptr_counts
           [make_shared; copy 0; destroy 0; assign 1 1; destroy 1] eq_refl).
Defined.

(** A block of eight bytes is allocated and freed. *)
Lemma tracer_accounts_witness :
  lockCount_
    (trace [call_Add 16 "test.cpp" 3 None 8; call_Remove 16] MemTracer_new)
  = 0.
Proof.
  apply (proj1
           (tracer_accounts
              [call_Add 16 "test.cpp" 3 None 8; call_Remove 16]
              ltac:(cbn [allocates];
                    split; [apply lookup_empty|];
                    split; [unfold size_max; lia|exact I]))).
Defined.
